(** * Neutron: the game registry, collision, platformer physics and engine loop

    A shallow embedding of [src/Neutron/Neutron.ts] (the second [Neutron]
    namespace of that file: classes [Engine], [Game], [Camera], [Sprite],
    [Effects], [Collision], [Particle] and [Platformer]).

    Conventions of the embedding.
    - A JavaScript [number] is an exact rational ([Q]): the rounding of IEEE
      doubles, [NaN] and the infinities are not modelled.  [toFixed(1)] is the
      decimal rounding of the exact value.  Where the outcome of a method
      depends on the rounding, the method is embedded once more over
      binary64 floating-point numbers, in [Module Double].
    - Objects live in a store ([heap]) and are named by references; the
      registry, the camera and the candidate lists hold references, so that
      [includes], [===] and in-place mutation behave as in the source.
    - A method is a function on the world; a method that can throw returns a
      [result]. *)

From Stdlib Require Import QArith Qround Qabs Lqa Sorted.
From Stdlib Require Floats.
From stdpp Require Import base list strings gmap.

Open Scope Q_scope.

(** ** Numbers *)

(** [a < b] and [a >= b] on numbers, as booleans. *)
Definition Qltb (a b : Q) : bool := negb (Qle_bool b a).
Definition Qgtb (a b : Q) : bool := Qltb b a.
Definition Qgeb (a b : Q) : bool := Qle_bool b a.

(** [v.toFixed(1)]: the digits of [v] with one decimal, as a signed number of
    tenths.  A negative [v] is printed as [-] followed by the digits of [-v];
    the digits are those of the integer [n] for which [n / 10] is nearest to
    the value, the larger [n] on a tie. *)
Definition toFixed1 (v : Q) : Z :=
  let n := Qfloor (Qabs v * 10 + (1 # 2)) in
  if Qltb v 0 then (- n)%Z else n.

(** [Number(v.toFixed(1))]. *)
Definition round1 (v : Q) : Q := Qred (toFixed1 v # 10).

(** [Math.abs(v) < 0.3] and the like read better with a name. *)
Definition Math_abs (v : Q) : Q := Qabs v.

(** ** Classes and [instanceof] *)

Abbreviation ref := nat.

(** The classes of the engine that sprites are made of, and the classes a
    game derives from them ([class Player extends Neutron.Platformer]). *)
Inductive Class : Type :=
  | SpriteClass
  | PlatformerClass
  | Subclass (name : string) (base : Class).

#[global] Instance Class_eq_dec : EqDecision Class.
Proof. solve_decision. Defined.

(** The prototype chain of a class, the class itself first. *)
Fixpoint prototypeChain (c : Class) : list Class :=
  match c with
  | SpriteClass => [SpriteClass]
  | PlatformerClass => [PlatformerClass; SpriteClass]
  | Subclass _ base => c :: prototypeChain base
  end.

(** [o instanceof T], for an object [o] of class [c]. *)
Definition instanceof (c T : Class) : bool :=
  bool_decide (T ∈ prototypeChain c).

(** ** Objects *)

(** [class Effects] (the three ellipse angles, which hold [2 * Math.PI], are
    left out: nothing below reads them). *)
Record Effects : Type := mkEffects {
  hidden : bool;
  transparency : Q;
  rotation : Q;
  isEclipse : bool
}.

(** [new Effects()]. *)
Definition new_Effects : Effects :=
  {| hidden := false; transparency := 0; rotation := 0; isEclipse := false |}.

(** An instance of [Sprite] or of a class derived from it.  The [sp_] fields
    are those of [class Sprite], the [pl_] fields those [class Platformer]
    adds; an object that is not a [Platformer] carries the latter unused. *)
Record Obj : Type := mkObj {
  cls : Class;
  sp_id : string;
  sp_x : Q;
  sp_y : Q;
  sp_width : Q;
  sp_height : Q;
  sp_color : string;
  sp_stageLevel : Q;
  sp_effects : Effects;
  pl_vx : Q;
  pl_vxSpeed : Q;
  pl_maxVX : option Q;
  pl_vy : Q;
  pl_vySpeed : Q;
  pl_maxVY : option Q;
  pl_gravityAcc : Q;
  pl_hasPlatformerBelow : bool;
  pl_checkAllPlatformers : bool;
  pl_platformersToCheckCollision : list ref
}.

Definition set_sp_id (v : string) (o : Obj) : Obj :=
  mkObj (cls o) v (sp_x o) (sp_y o) (sp_width o) (sp_height o) (sp_color o)
    (sp_stageLevel o) (sp_effects o) (pl_vx o) (pl_vxSpeed o) (pl_maxVX o)
    (pl_vy o) (pl_vySpeed o) (pl_maxVY o) (pl_gravityAcc o)
    (pl_hasPlatformerBelow o) (pl_checkAllPlatformers o)
    (pl_platformersToCheckCollision o).

Definition set_sp_x (v : Q) (o : Obj) : Obj :=
  mkObj (cls o) (sp_id o) v (sp_y o) (sp_width o) (sp_height o) (sp_color o)
    (sp_stageLevel o) (sp_effects o) (pl_vx o) (pl_vxSpeed o) (pl_maxVX o)
    (pl_vy o) (pl_vySpeed o) (pl_maxVY o) (pl_gravityAcc o)
    (pl_hasPlatformerBelow o) (pl_checkAllPlatformers o)
    (pl_platformersToCheckCollision o).

Definition set_sp_y (v : Q) (o : Obj) : Obj :=
  mkObj (cls o) (sp_id o) (sp_x o) v (sp_width o) (sp_height o) (sp_color o)
    (sp_stageLevel o) (sp_effects o) (pl_vx o) (pl_vxSpeed o) (pl_maxVX o)
    (pl_vy o) (pl_vySpeed o) (pl_maxVY o) (pl_gravityAcc o)
    (pl_hasPlatformerBelow o) (pl_checkAllPlatformers o)
    (pl_platformersToCheckCollision o).

Definition set_sp_stageLevel (v : Q) (o : Obj) : Obj :=
  mkObj (cls o) (sp_id o) (sp_x o) (sp_y o) (sp_width o) (sp_height o)
    (sp_color o) v (sp_effects o) (pl_vx o) (pl_vxSpeed o) (pl_maxVX o)
    (pl_vy o) (pl_vySpeed o) (pl_maxVY o) (pl_gravityAcc o)
    (pl_hasPlatformerBelow o) (pl_checkAllPlatformers o)
    (pl_platformersToCheckCollision o).

Definition set_sp_effects (v : Effects) (o : Obj) : Obj :=
  mkObj (cls o) (sp_id o) (sp_x o) (sp_y o) (sp_width o) (sp_height o)
    (sp_color o) (sp_stageLevel o) v (pl_vx o) (pl_vxSpeed o) (pl_maxVX o)
    (pl_vy o) (pl_vySpeed o) (pl_maxVY o) (pl_gravityAcc o)
    (pl_hasPlatformerBelow o) (pl_checkAllPlatformers o)
    (pl_platformersToCheckCollision o).

Definition set_pl_vx (v : Q) (o : Obj) : Obj :=
  mkObj (cls o) (sp_id o) (sp_x o) (sp_y o) (sp_width o) (sp_height o)
    (sp_color o) (sp_stageLevel o) (sp_effects o) v (pl_vxSpeed o)
    (pl_maxVX o) (pl_vy o) (pl_vySpeed o) (pl_maxVY o) (pl_gravityAcc o)
    (pl_hasPlatformerBelow o) (pl_checkAllPlatformers o)
    (pl_platformersToCheckCollision o).

Definition set_pl_maxVX (v : option Q) (o : Obj) : Obj :=
  mkObj (cls o) (sp_id o) (sp_x o) (sp_y o) (sp_width o) (sp_height o)
    (sp_color o) (sp_stageLevel o) (sp_effects o) (pl_vx o) (pl_vxSpeed o)
    v (pl_vy o) (pl_vySpeed o) (pl_maxVY o) (pl_gravityAcc o)
    (pl_hasPlatformerBelow o) (pl_checkAllPlatformers o)
    (pl_platformersToCheckCollision o).

Definition set_pl_vy (v : Q) (o : Obj) : Obj :=
  mkObj (cls o) (sp_id o) (sp_x o) (sp_y o) (sp_width o) (sp_height o)
    (sp_color o) (sp_stageLevel o) (sp_effects o) (pl_vx o) (pl_vxSpeed o)
    (pl_maxVX o) v (pl_vySpeed o) (pl_maxVY o) (pl_gravityAcc o)
    (pl_hasPlatformerBelow o) (pl_checkAllPlatformers o)
    (pl_platformersToCheckCollision o).

Definition set_pl_maxVY (v : option Q) (o : Obj) : Obj :=
  mkObj (cls o) (sp_id o) (sp_x o) (sp_y o) (sp_width o) (sp_height o)
    (sp_color o) (sp_stageLevel o) (sp_effects o) (pl_vx o) (pl_vxSpeed o)
    (pl_maxVX o) (pl_vy o) (pl_vySpeed o) v (pl_gravityAcc o)
    (pl_hasPlatformerBelow o) (pl_checkAllPlatformers o)
    (pl_platformersToCheckCollision o).

Definition set_pl_gravityAcc (v : Q) (o : Obj) : Obj :=
  mkObj (cls o) (sp_id o) (sp_x o) (sp_y o) (sp_width o) (sp_height o)
    (sp_color o) (sp_stageLevel o) (sp_effects o) (pl_vx o) (pl_vxSpeed o)
    (pl_maxVX o) (pl_vy o) (pl_vySpeed o) (pl_maxVY o) v
    (pl_hasPlatformerBelow o) (pl_checkAllPlatformers o)
    (pl_platformersToCheckCollision o).

Definition set_pl_hasPlatformerBelow (v : bool) (o : Obj) : Obj :=
  mkObj (cls o) (sp_id o) (sp_x o) (sp_y o) (sp_width o) (sp_height o)
    (sp_color o) (sp_stageLevel o) (sp_effects o) (pl_vx o) (pl_vxSpeed o)
    (pl_maxVX o) (pl_vy o) (pl_vySpeed o) (pl_maxVY o) (pl_gravityAcc o)
    v (pl_checkAllPlatformers o) (pl_platformersToCheckCollision o).

Definition set_pl_platformersToCheckCollision (v : list ref) (o : Obj) : Obj :=
  mkObj (cls o) (sp_id o) (sp_x o) (sp_y o) (sp_width o) (sp_height o)
    (sp_color o) (sp_stageLevel o) (sp_effects o) (pl_vx o) (pl_vxSpeed o)
    (pl_maxVX o) (pl_vy o) (pl_vySpeed o) (pl_maxVY o) (pl_gravityAcc o)
    (pl_hasPlatformerBelow o) (pl_checkAllPlatformers o) v.

(** What a dangling reference would read; no reference of the program
    dangles, since JavaScript keeps every reachable object alive. *)
#[global] Instance Obj_inhabited : Inhabited Obj :=
  populate (mkObj SpriteClass EmptyString 0 0 0 0 EmptyString 0 new_Effects
              0 0 None 0 0 None 0 false false []).

(** [class Camera]. *)
Record Camera : Type := mkCamera {
  cam_x : Q;
  cam_y : Q;
  toFollow : option ref
}.

(** [class Particle]. *)
Record Particle : Type := mkParticle {
  pt_id : string;
  pt_x : Q;
  pt_y : Q;
  pt_width : Q;
  pt_height : Q;
  pt_color : string;
  pt_vx : Q;
  pt_vy : Q;
  pt_maxVX : option Q;
  pt_maxVY : option Q;
  pt_transparency : Q;
  pt_isEclipse : bool
}.

#[global] Instance Particle_inhabited : Inhabited Particle :=
  populate (mkParticle EmptyString 0 0 0 0 EmptyString 0 0 None None 0 false).

(** The part of [interface Events] the engine reads: whether the mouse is
    down, and the last mouse event (its pointer position) if there is one. *)
Record Events : Type := mkEvents {
  isMouseDown : bool;
  mouseEvent : option (Q * Q)
}.

(** ** The world

    The store of sprite objects and of particles, the allocation pointer of
    [new], the two sequences of [class Game], the camera, the size of the
    canvas as the renderer reports it, and the input state. *)
Record World : Type := mkWorld {
  heap : gmap nat Obj;
  next : ref;
  sprites : list ref;
  pheap : gmap nat Particle;
  particles : list ref;
  camera : Camera;
  renderWidth : Q;
  renderHeight : Q;
  events : Events
}.

Definition with_heap (h : gmap nat Obj) (w : World) : World :=
  mkWorld h (next w) (sprites w) (pheap w) (particles w) (camera w)
    (renderWidth w) (renderHeight w) (events w).

Definition with_next (n : ref) (w : World) : World :=
  mkWorld (heap w) n (sprites w) (pheap w) (particles w) (camera w)
    (renderWidth w) (renderHeight w) (events w).

Definition with_sprites (l : list ref) (w : World) : World :=
  mkWorld (heap w) (next w) l (pheap w) (particles w) (camera w)
    (renderWidth w) (renderHeight w) (events w).

Definition with_pheap (h : gmap nat Particle) (w : World) : World :=
  mkWorld (heap w) (next w) (sprites w) h (particles w) (camera w)
    (renderWidth w) (renderHeight w) (events w).

Definition with_camera (c : Camera) (w : World) : World :=
  mkWorld (heap w) (next w) (sprites w) (pheap w) (particles w) c
    (renderWidth w) (renderHeight w) (events w).

(** The object a reference denotes, and a field write through a reference. *)
Definition obj (w : World) (r : ref) : Obj := heap w !!! r.

Definition upd (r : ref) (f : Obj -> Obj) (w : World) : World :=
  with_heap (<[r := f (obj w r)]> (heap w)) w.

(** ** [class Sprite]: getters and setters *)

Definition getId (w : World) (r : ref) : string := sp_id (obj w r).
Definition getX (w : World) (r : ref) : Q := sp_x (obj w r).
Definition getY (w : World) (r : ref) : Q := sp_y (obj w r).
Definition getWidth (w : World) (r : ref) : Q := sp_width (obj w r).
Definition getHeight (w : World) (r : ref) : Q := sp_height (obj w r).
Definition getStageLevel (w : World) (r : ref) : Q := sp_stageLevel (obj w r).
Definition getEffect (w : World) (r : ref) : Effects := sp_effects (obj w r).

Definition setX (r : ref) (v : Q) : World -> World := upd r (set_sp_x v).
Definition setY (r : ref) (v : Q) : World -> World := upd r (set_sp_y v).
Definition setStageLevel (r : ref) (v : Q) : World -> World :=
  upd r (set_sp_stageLevel v).

(** [getGame().getSprites()]. *)
Definition getSprites (w : World) : list ref := sprites w.

(** ** [class Collision] *)

(** [touching(other)], for the collision helper of sprite [me]. *)
Definition touching (w : World) (me other : ref) : bool :=
  Qltb (getX w me) (getX w other + getWidth w other) &&
  Qgtb (getX w me + getWidth w me) (getX w other) &&
  Qltb (getY w me) (getY w other + getHeight w other) &&
  Qgtb (getY w me + getHeight w me) (getY w other).

(** [this.me !== sprite]. *)
Definition differs (a b : ref) : bool := negb (a =? b)%nat.

(** [touchingSprite()]. *)
Definition touchingSprite (w : World) (me : ref) : list ref :=
  List.filter (fun sprite => touching w me sprite && differs sprite me)
    (getSprites w).

(** [getSpriteAboveSelf()]: the sprite is moved up by one, the registry is
    searched, and the sprite is moved back. *)
Definition getSpriteAboveSelf (me : ref) (w : World) : list ref * World :=
  let w := setY me (getY w me - 1) w in
  let touchingSprites :=
    List.filter (fun sprite => touching w me sprite && differs me sprite)
      (getSprites w) in
  let w := setY me (getY w me + 1) w in
  (touchingSprites, w).

(** [getSpriteBelowSelf()]. *)
Definition getSpriteBelowSelf (me : ref) (w : World) : list ref * World :=
  let w := setY me (getY w me + 1) w in
  let touchingSprites :=
    List.filter (fun sprite => touching w me sprite && differs me sprite)
      (getSprites w) in
  let w := setY me (getY w me - 1) w in
  (touchingSprites, w).

(** ** [class Game] *)

(** [arr.includes(sprite)]: membership by reference. *)
Definition includes (arr : list ref) (sprite : ref) : bool :=
  bool_decide (sprite ∈ arr).

(** [if (!arr.includes(sprite)) arr.push(sprite)]. *)
Definition pushIfAbsent (arr : list ref) (sprite : ref) : list ref :=
  if includes arr sprite then arr else arr ++ [sprite].

(** [Array.prototype.sort(compare)].  The language fixes the result, not the
    algorithm: the sort is stable, and [compare a b > 0] puts [a] after [b].
    It is modelled by the stable insertion sort: an element is put before the
    first element it does not have to follow. *)
Fixpoint sort_insert (compare : ref -> ref -> Q) (a : ref) (arr : list ref)
  : list ref :=
  match arr with
  | [] => [a]
  | b :: rest =>
      if Qgtb (compare a b) 0 then b :: sort_insert compare a rest
      else a :: arr
  end.

Definition Array_sort (compare : ref -> ref -> Q) (arr : list ref) : list ref :=
  foldr (sort_insert compare) [] arr.

(** [sortSprites(arr)]. *)
Definition sortSprites (w : World) (arr : list ref) : list ref :=
  Array_sort (fun a b => getStageLevel w a - getStageLevel w b) arr.

(** The argument of [addNewSprite]: [Sprite | Sprite[]]. *)
Inductive SpriteArg : Type :=
  | One (sprite : ref)
  | Many (arr : list ref).

(** The sprites [addNewSprite] pushes onto the registry before it sorts. *)
Definition pushAll (a : SpriteArg) (arr : list ref) : list ref :=
  match a with
  | Many l => foldl pushIfAbsent arr l
  | One sprite => pushIfAbsent arr sprite
  end.

(** [addNewSprite(sprites)]. *)
Definition addNewSprite (a : SpriteArg) (w : World) : World :=
  with_sprites (sortSprites w (pushAll a (sprites w))) w.

(** [getSpriteById(id)]: [filter(...)[0]], [None] for [undefined]. *)
Definition getSpriteById (id : string) (w : World) : option ref :=
  head (List.filter (fun sprite => bool_decide (getId w sprite = id))
          (sprites w)).

(** [getSpritesByType(constructor)]. *)
Definition getSpritesByType (T : Class) (w : World) : list ref :=
  List.filter (fun sprite => instanceof (cls (obj w sprite)) T) (sprites w).

(** [deleteSpriteById(id)]. *)
Definition deleteSpriteById (id : string) (w : World) : World :=
  with_sprites
    (List.filter (fun sprite => negb (bool_decide (getId w sprite = id)))
       (sprites w)) w.

(** [deleteSpritesByType(type)].  The callback of the source is
    [(sprite) => sprite! instanceof type]: the [!] is TypeScript's non-null
    assertion on [sprite], which compiles away, so the callback is
    [sprite instanceof type]. *)
Definition deleteSpritesByType (T : Class) (w : World) : World :=
  with_sprites
    (List.filter (fun sprite => instanceof (cls (obj w sprite)) T) (sprites w))
    w.

(** [deleteSprites()]. *)
Definition deleteSprites (w : World) : World := with_sprites [] w.

(** ** Constructors and the methods that throw *)

Inductive result (A : Type) : Type :=
  | Ok (a : A)
  | Throw (message : string).
Arguments Ok {A} a.
Arguments Throw {A} message.

Definition already_exists (id : string) : string :=
  ("Sprite " ++ id ++ " already exists!")%string.

(** The body of [Sprite]'s constructor, run for [new C(...)] where [C] is
    [Sprite] or derives from it: the fresh object is [next w]. *)
Definition Sprite_constructor (C : Class) (id : string)
    (x y width height : Q) (color : string) (stageLevel : Q) (w : World)
  : result (ref * World) :=
  match getSpriteById id w with
  | Some _ => Throw (already_exists id)
  | None =>
      let this := next w in
      let o := mkObj C id x y width height color stageLevel new_Effects
                 0 0 None 0 0 None 0 false false [] in
      Ok (this, with_next (S this) (with_heap (<[this := o]> (heap w)) w))
  end.

(** [new Sprite(id, x, y, width, height, color, stageLevel)]. *)
Definition new_Sprite := Sprite_constructor SpriteClass.

(** The body of [Platformer]'s constructor after [super(...)]. *)
Definition Platformer_init (w : World) (o : Obj) : Obj :=
  mkObj (cls o) (sp_id o) (sp_x o) (sp_y o) (sp_width o) (sp_height o)
    (sp_color o) (sp_stageLevel o) (sp_effects o)
    0 0.5 None 0 0.5 None 0.2 false true
    (getSpritesByType PlatformerClass w).

Definition Platformer_constructor (C : Class) (id : string)
    (x y width height : Q) (color : string) (stageLevel : Q) (w : World)
  : result (ref * World) :=
  match Sprite_constructor C id x y width height color stageLevel w with
  | Throw m => Throw m
  | Ok (this, w) => Ok (this, upd this (Platformer_init w) w)
  end.

(** [new Platformer(id, x, y, width, height, color, stageLevel)]. *)
Definition new_Platformer := Platformer_constructor PlatformerClass.

(** [setId(_val)]. *)
Definition setId (this : ref) (val : string) (w : World) : result World :=
  match getSpriteById val w with
  | Some _ => Throw (already_exists val)
  | None => Ok (upd this (set_sp_id val) w)
  end.

(** [Effects.setTransparency(_val)]: a plain assignment. *)
Definition Effects_setTransparency (val : Q) (e : Effects) : Effects :=
  mkEffects (hidden e) val (rotation e) (isEclipse e).

(** [Effects.setTransparency(transparency)] of the later revision of the
    engine ([src/neutron.ts]), which validates its argument.  The message of
    the source ends with the number, which is left out here. *)
Definition Effects_setTransparency_later (val : Q) (e : Effects)
  : result Effects :=
  if Qltb val 0 || Qgtb val 100
  then Throw "Transparency must be between 0 and 100"
  else Ok (mkEffects (hidden e) val (rotation e) (isEclipse e)).

(** [sprite.getEffect().setTransparency(_val)]. *)
Definition setTransparency (this : ref) (val : Q) : World -> World :=
  upd this (fun o => set_sp_effects (Effects_setTransparency val (sp_effects o)) o).

Definition getTransparency (w : World) (this : ref) : Q :=
  transparency (getEffect w this).

(** ** [class Platformer] *)

Definition getVX (w : World) (r : ref) : Q := pl_vx (obj w r).
Definition getVY (w : World) (r : ref) : Q := pl_vy (obj w r).
Definition getMaxVX (w : World) (r : ref) : option Q := pl_maxVX (obj w r).
Definition getMaxVY (w : World) (r : ref) : option Q := pl_maxVY (obj w r).
Definition getGravityAcc (w : World) (r : ref) : Q := pl_gravityAcc (obj w r).
Definition getPlatformersToCheckCollision (w : World) (r : ref) : list ref :=
  pl_platformersToCheckCollision (obj w r).

Definition setMaxVX (r : ref) (v : option Q) : World -> World :=
  upd r (set_pl_maxVX v).
Definition setMaxVY (r : ref) (v : option Q) : World -> World :=
  upd r (set_pl_maxVY v).
Definition setGravityAcc (r : ref) (v : Q) : World -> World :=
  upd r (set_pl_gravityAcc v).
Definition setPlatformerSpritesToCheckCollisionWith (r : ref) (v : list ref)
  : World -> World :=
  upd r (set_pl_platformersToCheckCollision v).

(** [max !== null && v > max] and [max !== null && v < -max]. *)
Definition above_max (max : option Q) (v : Q) : bool :=
  match max with Some m => Qgtb v m | None => false end.
Definition below_min (max : option Q) (v : Q) : bool :=
  match max with Some m => Qltb v (- m) | None => false end.

(** [setVX(_val)]. *)
Definition setVX (this : ref) (val : Q) (w : World) : World :=
  let w := upd this (set_pl_vx val) w in
  let w := upd this (set_pl_vx (round1 (getVX w this))) w in
  if above_max (getMaxVX w this) (getVX w this)
  then upd this (set_pl_vx (default 0 (getMaxVX w this))) w
  else if below_min (getMaxVX w this) (getVX w this)
  then upd this (set_pl_vx (- default 0 (getMaxVX w this))) w
  else w.

(** [setVY(_val)]. *)
Definition setVY (this : ref) (val : Q) (w : World) : World :=
  let w := upd this (set_pl_vy val) w in
  let w := upd this (set_pl_vy (round1 (getVY w this))) w in
  if above_max (getMaxVY w this) (getVY w this)
  then upd this (set_pl_vy (default 0 (getMaxVY w this))) w
  else if below_min (getMaxVY w this) (getVY w this)
  then upd this (set_pl_vy (- default 0 (getMaxVY w this))) w
  else w.

(** The refresh of the candidate list that opens [doGravity], [moveX] and
    [moveY]. *)
Definition refreshCandidates (this : ref) (w : World) : World :=
  if pl_checkAllPlatformers (obj w this)
  then upd this (set_pl_platformersToCheckCollision
                   (getSpritesByType PlatformerClass w)) w
  else w.

(** The callback of the [forEach] of [doGravity]. *)
Definition doGravity_each (this : ref) (w : World) (platformer : ref) : World :=
  if touching w this platformer && differs this platformer then
    let w :=
      if Qltb (pl_vy (obj w this)) 0
      then setY this (getY w platformer + getHeight w platformer) w
      else
        let w := setY this (getY w platformer - getHeight w this) w in
        upd this (set_pl_hasPlatformerBelow true) w in
    let w :=
      if touching w this platformer
      then setY this (getY w this + 0.1) w
      else w in
    setVY this 0 w
  else w.

(** [doGravity()]. *)
Definition doGravity (this : ref) (w : World) : World :=
  let w := refreshCandidates this w in
  let w := upd this (set_pl_hasPlatformerBelow false) w in
  let w := setY this (getY w this + getVY w this) w in
  let w := foldl (doGravity_each this) w (getPlatformersToCheckCollision w this) in
  if negb (pl_hasPlatformerBelow (obj w this))
  then setVY this (getVY w this + getGravityAcc w this) w
  else w.

(** [doJump(jumpHeight)]. *)
Definition doJump (this : ref) (jumpHeight : Q) (w : World) : World :=
  let '(below, w) := getSpriteBelowSelf this w in
  if (0 <? length below)%nat then setVY this (- jumpHeight) w else w.

(** [getPlatformerBelowSelf()]. *)
Definition getPlatformerBelowSelf (this : ref) (w : World) : list ref * World :=
  let '(below, w) := getSpriteBelowSelf this w in
  (List.filter (fun sprite => instanceof (cls (obj w sprite)) PlatformerClass)
     below, w).

(** [addFrictionX(friction)]. *)
Definition addFrictionX (this : ref) (friction : Q) (w : World) : World :=
  let w := setVX this (getVX w this * friction) w in
  if Qltb (Math_abs (getVX w this)) 0.3 then setVX this 0 w else w.

(** [addFrictionY(friction)]. *)
Definition addFrictionY (this : ref) (friction : Q) (w : World) : World :=
  let w := setVY this (getVY w this * friction) w in
  if Qltb (Math_abs (getVY w this)) 0.3 then setVY this 0 w else w.

(** ** [class Camera] *)

(** [setX(_val)] and [setY(_val)] of the camera. *)
Definition Camera_setX (val : Q) (w : World) : World :=
  with_camera (mkCamera (round1 val) (cam_y (camera w)) (toFollow (camera w))) w.
Definition Camera_setY (val : Q) (w : World) : World :=
  with_camera (mkCamera (cam_x (camera w)) (round1 val) (toFollow (camera w))) w.

(** ** [class Particle] *)

(** [Particle.update()]. *)
Definition Particle_update (p : Particle) : Particle :=
  let x := pt_x p + pt_vx p in
  let y := pt_y p + pt_vy p in
  let vx :=
    match pt_maxVX p with
    | Some m => if Qgtb (pt_vx p) m then m
                else if Qltb (pt_vx p) (- m) then - m else pt_vx p
    | None => pt_vx p
    end in
  let vy :=
    match pt_maxVY p with
    | Some m => if Qgtb (pt_vy p) m then m
                else if Qltb (pt_vy p) (- m) then - m else pt_vy p
    | None => pt_vy p
    end in
  mkParticle (pt_id p) x y (pt_width p) (pt_height p) (pt_color p) vx vy
    (pt_maxVX p) (pt_maxVY p) (pt_transparency p) (pt_isEclipse p).

(** [particle.update()] through a reference. *)
Definition updateParticle (r : ref) (w : World) : World :=
  with_pheap (<[r := Particle_update (pheap w !!! r)]> (pheap w)) w.

(** ** [class Engine] *)

Record Engine : Type := mkEngine {
  fps : nat;
  tps : nat;
  fpsCounter : nat;
  tpsCounter : nat;
  idealTps : Q;
  lastUpdateTime : Q;
  minFrameTime : Q;
  accumulatedTime : Q;
  maxUpdatesPerFrame : nat;
  enableFrameSkipping : bool;
  framesToSkip : Q;
  logPerformanceInfo : bool;
  stopVal : bool;
  hasInited : bool;
  hasLoadedAssets : bool
}.

(** The engine after [new Engine()] at time [now] and [init] with [tps]. *)
Definition new_Engine (now tps : Q) : Engine :=
  mkEngine 0 0 0 0 tps now (1000 / tps) 0 5 true 1 false false false false.

Definition with_accumulatedTime (v : Q) (e : Engine) : Engine :=
  mkEngine (fps e) (tps e) (fpsCounter e) (tpsCounter e) (idealTps e)
    (lastUpdateTime e) (minFrameTime e) v (maxUpdatesPerFrame e)
    (enableFrameSkipping e) (framesToSkip e) (logPerformanceInfo e)
    (stopVal e) (hasInited e) (hasLoadedAssets e).

Definition with_lastUpdateTime (v : Q) (e : Engine) : Engine :=
  mkEngine (fps e) (tps e) (fpsCounter e) (tpsCounter e) (idealTps e)
    v (minFrameTime e) (accumulatedTime e) (maxUpdatesPerFrame e)
    (enableFrameSkipping e) (framesToSkip e) (logPerformanceInfo e)
    (stopVal e) (hasInited e) (hasLoadedAssets e).

Definition with_fpsCounter (v : nat) (e : Engine) : Engine :=
  mkEngine (fps e) (tps e) v (tpsCounter e) (idealTps e)
    (lastUpdateTime e) (minFrameTime e) (accumulatedTime e)
    (maxUpdatesPerFrame e) (enableFrameSkipping e) (framesToSkip e)
    (logPerformanceInfo e) (stopVal e) (hasInited e) (hasLoadedAssets e).

Definition with_tpsCounter (v : nat) (e : Engine) : Engine :=
  mkEngine (fps e) (tps e) (fpsCounter e) v (idealTps e)
    (lastUpdateTime e) (minFrameTime e) (accumulatedTime e)
    (maxUpdatesPerFrame e) (enableFrameSkipping e) (framesToSkip e)
    (logPerformanceInfo e) (stopVal e) (hasInited e) (hasLoadedAssets e).

Definition with_hasInited (v : bool) (e : Engine) : Engine :=
  mkEngine (fps e) (tps e) (fpsCounter e) (tpsCounter e) (idealTps e)
    (lastUpdateTime e) (minFrameTime e) (accumulatedTime e)
    (maxUpdatesPerFrame e) (enableFrameSkipping e) (framesToSkip e)
    (logPerformanceInfo e) (stopVal e) v (hasLoadedAssets e).

Definition with_hasLoadedAssets (v : bool) (e : Engine) : Engine :=
  mkEngine (fps e) (tps e) (fpsCounter e) (tpsCounter e) (idealTps e)
    (lastUpdateTime e) (minFrameTime e) (accumulatedTime e)
    (maxUpdatesPerFrame e) (enableFrameSkipping e) (framesToSkip e)
    (logPerformanceInfo e) (stopVal e) (hasInited e) v.

(** What a frame calls, in the order of the calls. *)
Inductive Call : Type :=
  | CallInit
  | CallParticleUpdate (particle : ref)
  | CallSpriteUpdate (sprite : ref)
  | CameraFollow
  | CallWhileMouseDown
  | CallHostUpdate
  | CallDraw
  | RequestAnimationFrame.

#[global] Instance Call_eq_dec : EqDecision Call.
Proof. solve_decision. Defined.

Definition isParticleUpdate (c : Call) : bool :=
  match c with CallParticleUpdate _ => true | _ => false end.

Section EngineLoop.

(** The code of the game: [sprite.update()] as the class of the sprite
    overrides it, and the callbacks of [EngineSettings].  They act on the
    world, not on the private timing fields of the engine. *)
Variable sprite_update : ref -> World -> World.
Variable settings_update : World -> World.
Variable settings_init : World -> World.
Variable whileMouseDown : Q * Q -> World -> World.
Variable drawFunction : World -> World.

(** [getSprites().forEach((sprite) => sprite.update())], over the registry
    as it stands when the step starts. *)
Definition updateSprites (w : World) : list Call * World :=
  foldl (fun '(calls, w) sprite =>
           (calls ++ [CallSpriteUpdate sprite], sprite_update sprite w))
    ([], w) (getSprites w).

(** The block [if (camera.getToFollow() !== null) { ... }]. *)
Definition followSprite (w : World) : list Call * World :=
  match toFollow (camera w) with
  | Some toFollow =>
      let w := Camera_setX (getX w toFollow - renderWidth w / 2) w in
      let w := Camera_setY (getY w toFollow - renderHeight w / 2) w in
      ([CameraFollow], w)
  | None => ([], w)
  end.

(** The block [if (events.isMouseDown && events.mouseEvent) { ... }]. *)
Definition mouseHeld (w : World) : list Call * World :=
  match isMouseDown (events w), mouseEvent (events w) with
  | true, Some e => ([CallWhileMouseDown], whileMouseDown e w)
  | _, _ => ([], w)
  end.

(** The closure [this.update] that [init] installs: one simulation step. *)
Definition Engine_update (w : World) : list Call * World :=
  let '(c1, w) := updateSprites w in
  let '(c2, w) := followSprite w in
  let '(c3, w) := mouseHeld w in
  (c1 ++ c2 ++ c3 ++ [CallHostUpdate], settings_update w).

(** The closure of the later revision of the engine ([src/neutron.ts]),
    which updates the particles first. *)
Definition updateParticles (w : World) : list Call * World :=
  foldl (fun '(calls, w) particle =>
           (calls ++ [CallParticleUpdate particle], updateParticle particle w))
    ([], w) (particles w).

Definition Engine_update_later (w : World) : list Call * World :=
  let '(c0, w) := updateParticles w in
  let '(c1, w) := Engine_update w in
  (c0 ++ c1, w).

(** The [while] loop of [startLoop], for a step function [step].  [fuel]
    bounds the unfolding; [maxUpdatesPerFrame] is always enough. *)
Fixpoint catchUp (step : World -> list Call * World) (fuel updates : nat)
    (e : Engine) (w : World) : list (list Call) * Engine * World :=
  match fuel with
  | O => ([], e, w)
  | S fuel =>
      if Qgeb (accumulatedTime e) (minFrameTime e) &&
         (updates <? maxUpdatesPerFrame e)%nat
      then
        let '(calls, w) := step w in
        let e := with_tpsCounter (S (tpsCounter e)) e in
        let e := with_accumulatedTime (accumulatedTime e - minFrameTime e) e in
        let '(steps, e, w) := catchUp step fuel (S updates) e w in
        (calls :: steps, e, w)
      else ([], e, w)
  end.

(** The two [if]s after the loop. *)
Definition frameSkip (e : Engine) : Engine :=
  if enableFrameSkipping e &&
     Qgtb (accumulatedTime e) (minFrameTime e * framesToSkip e)
  then with_accumulatedTime 0 e
  else if Qgtb (accumulatedTime e) (minFrameTime e * 5)
  then with_accumulatedTime (minFrameTime e * 5) e
  else e.

(** What one invocation of the frame driver yields: the calls made before
    the loop, the calls of each simulation step, the calls made after the
    loop, and the engine and the world it leaves. *)
Record Frame : Type := mkFrame {
  before : list Call;
  steps : list (list Call);
  after : list Call;
  engine : Engine;
  world : World
}.

(** [startLoop], for a step function [step]; [currentTime] is what
    [performance.now()] returns and [numberOfAssetsToLoad] what the loader
    reports. *)
Definition startLoop_with (step : World -> list Call * World)
    (currentTime : Q) (numberOfAssetsToLoad : nat)
    (e : Engine) (w : World) : Frame :=
  if stopVal e then mkFrame [] [] [] e w
  else
    let e := if (numberOfAssetsToLoad =? 0)%nat
             then with_hasLoadedAssets false e else e in
    if hasLoadedAssets e then mkFrame [] [] [RequestAnimationFrame] e w
    else
      let '(c0, e, w) :=
        if negb (hasInited e)
        then ([CallInit], with_hasInited true e, settings_init w)
        else ([], e, w) in
      let e := with_fpsCounter (S (fpsCounter e)) e in
      let deltaTime := currentTime - lastUpdateTime e in
      let e := with_lastUpdateTime currentTime e in
      let e := with_accumulatedTime (accumulatedTime e + deltaTime) e in
      let '(steps, e, w) := catchUp step (maxUpdatesPerFrame e) 0 e w in
      let e := frameSkip e in
      mkFrame c0 steps [CallDraw; RequestAnimationFrame] e (drawFunction w).

(** [startLoop] as [src/Neutron/Neutron.ts] has it. *)
Definition startLoop := startLoop_with Engine_update.

(** [startLoop] as [src/neutron.ts] has it. *)
Definition startLoop_later := startLoop_with Engine_update_later.

End EngineLoop.

(** ** Statements in the words of the specification *)

(** *** Collision *)

(** The four comparisons of the overlap test. *)
Definition overlap (w : World) (a b : ref) : Prop :=
  getX w a < getX w b + getWidth w b /\
  getX w a + getWidth w a > getX w b /\
  getY w a < getY w b + getHeight w b /\
  getY w a + getHeight w a > getY w b.

(** Two rectangles share an edge: a side of one lies on the line of the
    opposite side of the other. *)
Definition shares_edge (w : World) (a b : ref) : Prop :=
  getX w a + getWidth w a == getX w b \/
  getX w b + getWidth w b == getX w a \/
  getY w a + getHeight w a == getY w b \/
  getY w b + getHeight w b == getY w a.

(** *** The registry *)

(** Every reference of the registry has been allocated. *)
Definition registry_allocated (w : World) : Prop :=
  forall r, r ∈ sprites w -> (r < next w)%nat.

(** No registered sprite has the id. *)
Definition id_free (id : string) (w : World) : Prop :=
  forall r, r ∈ sprites w -> getId w r <> id.

(** [n] constructions in a row by the same [new] expression, none of the
    objects being added to the registry: the references of the objects, or
    the error of the first construction that throws. *)
Fixpoint constructMany (n : nat) (construct : World -> result (ref * World))
    (w : World) : result (list ref * World) :=
  match n with
  | O => Ok ([], w)
  | S n =>
      match construct w with
      | Throw m => Throw m
      | Ok (this, w) =>
          match constructMany n construct w with
          | Throw m => Throw m
          | Ok (rest, w) => Ok (this :: rest, w)
          end
      end
  end.

(** The sequence is in ascending order of stage level. *)
Definition ascending (w : World) (arr : list ref) : Prop :=
  StronglySorted (fun a b => getStageLevel w a <= getStageLevel w b) arr.

(** The sprite has stage level [v]. *)
Definition at_level (w : World) (v : Q) (sprite : ref) : bool :=
  Qeq_bool (getStageLevel w sprite) v.

(** The references an argument of [addNewSprite] carries. *)
Definition refs_of (a : SpriteArg) : list ref :=
  match a with One sprite => [sprite] | Many l => l end.

(** A series of calls of [addNewSprite], and the references the calls carry
    in the order in which each is inserted for the first time. *)
Definition addAll (args : list SpriteArg) (w : World) : World :=
  foldl (fun w a => addNewSprite a w) w args.

Definition firstInsertions (args : list SpriteArg) : list ref :=
  foldl (fun arr a => pushAll a arr) [] args.

(** *** The store *)

(** The world with object [o] stored at [r] and nothing else changed. *)
Definition put (r : ref) (o : Obj) (w : World) : World :=
  with_heap (<[r := o]> (heap w)) w.

(** *** Velocities *)

(** What the velocity setters store for a value [v] under a limit [max]:
    [v] rounded to one decimal, then clamped when a limit is set. *)
Definition storedVelocity (max : option Q) (v : Q) : Q :=
  let r := round1 v in
  match max with
  | None => r
  | Some m => if Qgtb r m then m else if Qltb r (- m) then - m else r
  end.

(** The limit is [null] or not negative. *)
Definition limit_ok (max : option Q) : Prop :=
  match max with None => True | Some m => 0 <= m end.

(** *** The steps of [doGravity] *)

(** The overlap test for [me] moved to height [y]. *)
Definition overlaps (me : Obj) (y : Q) (p : Obj) : bool :=
  Qltb (sp_x me) (sp_x p + sp_width p) &&
  Qgtb (sp_x me + sp_width me) (sp_x p) &&
  Qltb y (sp_y p + sp_height p) &&
  Qgtb (y + sp_height me) (sp_y p).

(** What a gravity step tracks: the height, the vertical velocity and
    whether a platformer has been found below. *)
Record Falling : Type := mkFalling {
  f_y : Q;
  f_vy : Q;
  f_below : bool
}.

(** One candidate [p]: if it touches, snap below it when moving up and onto
    it otherwise (which grounds), nudge by 0.1 if they still touch, and
    store 0 as the velocity.  [store] is what a write to [vy] keeps. *)
Definition gravity_contact (store : Q -> Q) (me : Obj) (st : Falling) (p : Obj)
  : Falling :=
  if overlaps me (f_y st) p then
    let y := if Qltb (f_vy st) 0 then sp_y p + sp_height p
             else sp_y p - sp_height me in
    let below := if Qltb (f_vy st) 0 then f_below st else true in
    let y := if overlaps me y p then y + 0.1 else y in
    mkFalling y (store 0) below
  else st.

(** The candidates of a gravity step: every registered platformer in
    check-all mode, the stored list otherwise. *)
Definition gravity_candidates (w : World) (this : ref) : list ref :=
  if pl_checkAllPlatformers (obj w this)
  then getSpritesByType PlatformerClass w
  else pl_platformersToCheckCollision (obj w this).

(** The steps in order: the candidates are refreshed, the flag is reset, [vy]
    is added to [y], the candidates other than the platformer itself are
    handled one after the other, and gravity is added unless grounded. *)
Definition gravity_fall (store : Q -> Q) (w : World) (this : ref) : Falling :=
  let me := obj w this in
  let others := List.filter (differs this) (gravity_candidates w this) in
  let st := foldl (gravity_contact store me)
              (mkFalling (sp_y me + pl_vy me) (pl_vy me) false)
              (map (obj w) others) in
  if f_below st then st
  else mkFalling (f_y st) (store (f_vy st + pl_gravityAcc me)) (f_below st).

(** The object with the height, the velocity and the flag of [st]. *)
Definition place (st : Falling) (o : Obj) : Obj :=
  set_pl_vy (f_vy st)
    (set_sp_y (f_y st) (set_pl_hasPlatformerBelow (f_below st) o)).

(** *** A frame *)

(** The time the loop has to spend: what was left plus what has passed. *)
Definition timeToSpend (currentTime : Q) (e : Engine) : Q :=
  accumulatedTime e + (currentTime - lastUpdateTime e).

(** The frame reaches the loop: the engine is not stopped and no asset is
    pending. *)
Definition running (numberOfAssetsToLoad : nat) (e : Engine) : Prop :=
  stopVal e = false /\
  (numberOfAssetsToLoad = 0%nat \/ hasLoadedAssets e = false).

(** ** Worlds for the examples *)

(** A sprite object with the fields a rectangle needs. *)
Definition rectangle (C : Class) (id : string) (x y width height : Q) : Obj :=
  mkObj C id x y width height "#000000" 0 new_Effects
    0 0.5 None 0 0.5 None 0.2 false true [].

(** A platformer with velocity [vx], [vy] and limits [maxVX], [maxVY]. *)
Definition mover (C : Class) (id : string) (x y width height : Q)
    (vx vy : Q) (maxVX maxVY : option Q) : Obj :=
  mkObj C id x y width height "#0000ff" 10 new_Effects
    vx 0.5 maxVX vy 0.5 maxVY 0.2 false true [].

(** A sprite object with a stage level. *)
Definition leveled (id : string) (stageLevel : Q) : Obj :=
  mkObj SpriteClass id 0 0 10 10 "#ffffff" stageLevel new_Effects
    0 0 None 0 0 None 0 false false [].

(** No input, and a world with nothing in it. *)
Definition no_events : Events := mkEvents false None.

Definition empty_world : World :=
  mkWorld ∅ 0 [] ∅ [] (mkCamera 0 0 None) 800 600 no_events.

(** A at x in [0,10] and B at x in [10,20], both at y in [0,10]. *)
Definition world_AB : World :=
  with_next 2
    (with_heap (<[0%nat := rectangle SpriteClass "A" 0 0 10 10]>
                  (<[1%nat := rectangle SpriteClass "B" 10 0 10 10]> ∅))
       empty_world).

(** A class of the game: [class Player extends Neutron.Platformer]. *)
Definition PlayerClass : Class := Subclass "Player" PlatformerClass.

(** A registry with a background that is a plain sprite, a platformer as
    ground and a player standing on it. *)
Definition world_mixed : World :=
  with_sprites [0; 1; 2]%nat
    (with_next 3
       (with_heap
          (<[0%nat := rectangle SpriteClass "background" 0 0 800 600]>
             (<[1%nat := rectangle PlatformerClass "ground" 0 500 800 100]>
                (<[2%nat := rectangle PlayerClass "player" 100 420 80 80]> ∅)))
          empty_world)).

(** Three sprites with stage levels 3, 1 and 2, none registered. *)
Definition world_levels : World :=
  with_next 3
    (with_heap (<[0%nat := leveled "three" 3]>
                  (<[1%nat := leveled "one" 1]>
                     (<[2%nat := leveled "two" 2]> ∅)))
       empty_world).

(** One platformer alone in the registry. *)
Definition world_mover (vx vy : Q) (maxVX maxVY : option Q) : World :=
  with_sprites [0%nat]
    (with_next 1
       (with_heap
          (<[0%nat := mover PlatformerClass "player" 0 0 10 10 vx vy maxVX maxVY]> ∅)
          empty_world)).

(** A player falling onto the ground at 2.5 a step, and the same player
    higher up at its limit velocity of 10. *)
Definition world_fall (y vy : Q) (maxVY : option Q) : World :=
  with_sprites [0; 1]%nat
    (with_next 2
       (with_heap
          (<[0%nat := mover PlatformerClass "player" 0 y 10 10 0 vy None maxVY]>
             (<[1%nat := rectangle PlatformerClass "ground" 0 100 100 20]> ∅))
          empty_world)).

(** A world with one sprite and one particle that moves by 1 a step. *)
Definition world_particle : World :=
  mkWorld (<[0%nat := rectangle SpriteClass "box" 0 0 10 10]> ∅) 1 [0%nat]
    (<[0%nat := mkParticle "spark" 0 0 2 2 "#ffffff" 1 0 None None 0 false]> ∅)
    [0%nat] (mkCamera 0 0 None) 800 600 no_events.

(** A game whose sprites and callbacks do nothing. *)
Definition idle_sprite (sprite : ref) (w : World) : World := w.
Definition idle (w : World) : World := w.
Definition idle_mouse (e : Q * Q) (w : World) : World := w.

(** * More of the engine

    The probes, the moves, the particles, stopping and sampling, the draw
    pass and the mouse, embedded as the parts above. *)

(** ** [class Collision]: the probes to the left and to the right *)

(** [getSpriteLeftSelf()]. *)
Definition getSpriteLeftSelf (me : ref) (w : World) : list ref * World :=
  let w := setX me (getX w me - 1) w in
  let touchingSprites :=
    List.filter (fun sprite => touching w me sprite && differs me sprite)
      (getSprites w) in
  let w := setX me (getX w me + 1) w in
  (touchingSprites, w).

(** [getSpriteRightSelf()]. *)
Definition getSpriteRightSelf (me : ref) (w : World) : list ref * World :=
  let w := setX me (getX w me + 1) w in
  let touchingSprites :=
    List.filter (fun sprite => touching w me sprite && differs me sprite)
      (getSprites w) in
  let w := setX me (getX w me - 1) w in
  (touchingSprites, w).

(** ** [class Platformer]: moves and directional queries *)

(** [moveX(x)]. *)
Definition moveX (this : ref) (x : Q) (w : World) : World :=
  let w := refreshCandidates this w in
  let w := setX this (getX w this + x) w in
  let touchingPlatformers :=
    List.filter
      (fun platformer => touching w this platformer && differs this platformer)
      (getPlatformersToCheckCollision w this) in
  foldl (fun w platformer =>
           if Qgtb x 0
           then setX this (getX w platformer - getWidth w this) w
           else setX this (getX w platformer + getWidth w platformer) w)
    w touchingPlatformers.

(** [moveY(y)]. *)
Definition moveY (this : ref) (y : Q) (w : World) : World :=
  let w := refreshCandidates this w in
  let w := setY this (getY w this + y) w in
  let touchingPlatformers :=
    List.filter
      (fun platformer => touching w this platformer && differs this platformer)
      (getPlatformersToCheckCollision w this) in
  foldl (fun w platformer =>
           if Qgtb y 0
           then setY this (getY w platformer - getHeight w this) w
           else setY this (getY w platformer + getHeight w platformer) w)
    w touchingPlatformers.

(** [.filter((sprite) => sprite instanceof Platformer)]. *)
Definition platformersOf (w : World) (l : list ref) : list ref :=
  List.filter (fun sprite => instanceof (cls (obj w sprite)) PlatformerClass) l.

(** [getPlatformerAboveSelf()], [getPlatformerLeftSelf()] and
    [getPlatformerRightSelf()]. *)
Definition getPlatformerAboveSelf (this : ref) (w : World) : list ref * World :=
  let '(found, w) := getSpriteAboveSelf this w in (platformersOf w found, w).

Definition getPlatformerLeftSelf (this : ref) (w : World) : list ref * World :=
  let '(found, w) := getSpriteLeftSelf this w in (platformersOf w found, w).

Definition getPlatformerRightSelf (this : ref) (w : World) : list ref * World :=
  let '(found, w) := getSpriteRightSelf this w in (platformersOf w found, w).

(** ** [class Sprite]: being on screen, going to a place *)

(** [a <= b] on numbers, as a boolean. *)
Definition Qleb (a b : Q) : bool := Qle_bool a b.

(** [isOnScreen()]. *)
Definition isOnScreen (w : World) (this : ref) : bool :=
  Qgeb (getX w this + getWidth w this) (cam_x (camera w)) &&
  Qleb (getX w this) (cam_x (camera w) + renderWidth w) &&
  Qgeb (getY w this + getHeight w this) (cam_y (camera w)) &&
  Qleb (getY w this) (cam_y (camera w) + renderHeight w).

(** [goTo(_valx, _valy)]. *)
Definition Sprite_goTo (this : ref) (valx valy : Q) (w : World) : World :=
  let w := upd this (set_sp_x valx) w in
  upd this (set_sp_y valy) w.

Inductive ScreenPlaces : Type :=
  | center
  | verticalCenter
  | horizontalCenter
  | randomPosition.

(** [to(place)]; [random1] and [random2] are what the two calls of
    [Math.random()] return, if they are made. *)
Definition Sprite_to (this : ref) (place : ScreenPlaces) (random1 random2 : Q)
    (w : World) : World :=
  match place with
  | center =>
      Sprite_goTo this (renderWidth w / 2 - getWidth w this / 2)
        (renderHeight w / 2 - getHeight w this / 2) w
  | verticalCenter =>
      Sprite_goTo this (getX w this)
        (renderHeight w / 2 - getHeight w this / 2) w
  | horizontalCenter =>
      Sprite_goTo this (renderWidth w / 2 - getWidth w this / 2)
        (getY w this) w
  | randomPosition =>
      Sprite_goTo this (inject_Z (Qfloor (random1 * renderWidth w)))
        (inject_Z (Qfloor (random2 * renderHeight w))) w
  end.

(** ** [class Game]: the particles *)

(** [getParticles()]. *)
Definition getParticles (w : World) : list ref := particles w.

Definition with_particles (l : list ref) (w : World) : World :=
  mkWorld (heap w) (next w) (sprites w) (pheap w) l (camera w)
    (renderWidth w) (renderHeight w) (events w).

(** [addParticle(particle)]: as [addNewSprite], without the sort. *)
Definition addParticle (a : SpriteArg) (w : World) : World :=
  with_particles (pushAll a (particles w)) w.

(** [getParticleById(id)]. *)
Definition getParticleById (id : string) (w : World) : option ref :=
  head (List.filter (fun particle => bool_decide (pt_id (pheap w !!! particle) = id))
          (particles w)).

(** [deleteParticleById(id)]. *)
Definition deleteParticleById (id : string) (w : World) : World :=
  with_particles
    (List.filter
       (fun particle => negb (bool_decide (pt_id (pheap w !!! particle) = id)))
       (particles w)) w.

Definition particle_exists (id : string) : string :=
  ("Particle with id " ++ id ++ " already exists")%string.

(** [new Particle(id, x, y, width, height, color)]: the fresh particle is the
    first reference the store of particles does not hold. *)
Definition new_Particle (id : string) (x y width height : Q) (color : string)
    (w : World) : result (ref * World) :=
  match getParticleById id w with
  | Some _ => Throw (particle_exists id)
  | None =>
      let this := fresh (dom (pheap w)) in
      let p := mkParticle id x y width height color 0 0 None None 0 false in
      Ok (this, with_pheap (<[this := p]> (pheap w)) w)
  end.

(** ** [class Engine]: stopping, resuming and sampling *)

Definition with_stopVal (v : bool) (e : Engine) : Engine :=
  mkEngine (fps e) (tps e) (fpsCounter e) (tpsCounter e) (idealTps e)
    (lastUpdateTime e) (minFrameTime e) (accumulatedTime e)
    (maxUpdatesPerFrame e) (enableFrameSkipping e) (framesToSkip e)
    (logPerformanceInfo e) v (hasInited e) (hasLoadedAssets e).

(** [stop()]. *)
Definition Engine_stop (e : Engine) : Engine := with_stopVal true e.

(** The callback [startPerformanceTracker] hands to [setInterval]; what it
    logs is left out. *)
Definition performanceSample (e : Engine) : Engine :=
  mkEngine (fpsCounter e) (tpsCounter e) 0 0 (idealTps e)
    (lastUpdateTime e) (minFrameTime e) (accumulatedTime e)
    (maxUpdatesPerFrame e) (enableFrameSkipping e) (framesToSkip e)
    (logPerformanceInfo e) (stopVal e) (hasInited e) (hasLoadedAssets e).

(** [getFps()] and [getTps()]. *)
Definition getFps (e : Engine) : nat := fps e.
Definition getTps (e : Engine) : nat := tps e.

(** [new Engine()] at time [now]. *)
Definition Engine_constructor (now : Q) : Engine :=
  mkEngine 0 0 0 0 70 now (1000 / 70) 0 5 true 1 false false false false.

Definition with_idealTps (v : Q) (e : Engine) : Engine :=
  mkEngine (fps e) (tps e) (fpsCounter e) (tpsCounter e) v
    (lastUpdateTime e) (minFrameTime e) (accumulatedTime e)
    (maxUpdatesPerFrame e) (enableFrameSkipping e) (framesToSkip e)
    (logPerformanceInfo e) (stopVal e) (hasInited e) (hasLoadedAssets e).

Definition with_minFrameTime (v : Q) (e : Engine) : Engine :=
  mkEngine (fps e) (tps e) (fpsCounter e) (tpsCounter e) (idealTps e)
    (lastUpdateTime e) v (accumulatedTime e)
    (maxUpdatesPerFrame e) (enableFrameSkipping e) (framesToSkip e)
    (logPerformanceInfo e) (stopVal e) (hasInited e) (hasLoadedAssets e).

Section EngineStart.

Variable sprite_update : ref -> World -> World.
Variable settings_update : World -> World.
Variable settings_init : World -> World.
Variable whileMouseDown : Q * Q -> World -> World.
Variable drawFunction : World -> World.

(** [start()]: [now] is what [performance.now()] returns in [start] and
    [currentTime] what it returns in the call of [startLoop] that follows. *)
Definition Engine_start (now currentTime : Q) (numberOfAssetsToLoad : nat)
    (e : Engine) (w : World) : Frame :=
  if stopVal e then
    let e := with_stopVal false e in
    let e := with_lastUpdateTime now e in
    let e := with_accumulatedTime 0 e in
    startLoop sprite_update settings_update settings_init whileMouseDown
      drawFunction currentTime numberOfAssetsToLoad e w
  else mkFrame [] [] [] e w.

(** The [load] of [EngineSettings]. *)
Variable settings_load : World -> World.

(** [init(engineSettings)], for the world the components it creates make up;
    [numberOfAssetsToLoad] is what the loader reports once [load] has
    returned, and [currentTime] what [performance.now()] returns in the call
    of [startLoop] that ends [init].  The interval of
    [startPerformanceTracker] fires later. *)
Definition Engine_init (tps : Q) (numberOfAssetsToLoad : nat)
    (currentTime : Q) (e : Engine) (w : World) : Frame :=
  let e := with_idealTps tps e in
  let e := with_minFrameTime (1000 / idealTps e) e in
  let w := settings_load w in
  let e := if negb (numberOfAssetsToLoad =? 0)%nat
           then with_hasLoadedAssets true e else e in
  startLoop sprite_update settings_update settings_init whileMouseDown
    drawFunction currentTime numberOfAssetsToLoad e w.

End EngineStart.

(** ** [class Render] *)

(** [isVisible(obj, cameraX, cameraY, screenWidth, screenHeight)], for an
    object at [(objX, objY)] of size [objWidth] by [objHeight]. *)
Definition isVisible (objX objY objWidth objHeight : Q)
    (cameraX cameraY screenWidth screenHeight : Q) : bool :=
  let x := objX - cameraX in
  let y := objY - cameraY in
  let width := objWidth in
  let height := objHeight in
  Qgeb (x + width) 0 && Qleb x screenWidth &&
  Qgeb (y + height) 0 && Qleb y screenHeight.

Definition isVisibleSprite (w : World) (sprite : ref) : bool :=
  isVisible (getX w sprite) (getY w sprite) (getWidth w sprite)
    (getHeight w sprite) (cam_x (camera w)) (cam_y (camera w))
    (renderWidth w) (renderHeight w).

Definition isVisibleParticle (w : World) (particle : ref) : bool :=
  isVisible (pt_x (pheap w !!! particle)) (pt_y (pheap w !!! particle))
    (pt_width (pheap w !!! particle)) (pt_height (pheap w !!! particle))
    (cam_x (camera w)) (cam_y (camera w)) (renderWidth w) (renderHeight w).

(** The value of a hexadecimal digit: [[a-f\d]] under the flag [i]. *)
Definition hexDigit (c : Ascii.ascii) : option Z :=
  let n := Z.of_N (Ascii.N_of_ascii c) in
  if (48 <=? n)%Z && (n <=? 57)%Z then Some (n - 48)%Z
  else if (97 <=? n)%Z && (n <=? 102)%Z then Some (n - 87)%Z
  else if (65 <=? n)%Z && (n <=? 70)%Z then Some (n - 55)%Z
  else None.

(** [hexToRgb(hex)]: the pattern is an optional [#] (character 35) and three
    groups of two hexadecimal digits, from the start of the string to its
    end; a group is read by [parseInt(group, 16)]. *)
Definition hexToRgb (hex : string) : list Q :=
  let digits :=
    match hex with
    | String c rest => if Ascii.eqb c (Ascii.ascii_of_N 35) then rest else hex
    | EmptyString => hex
    end in
  match map hexDigit (String.list_ascii_of_string digits) with
  | [Some a; Some b; Some c; Some d; Some e; Some f] =>
      [inject_Z (16 * a + b) / 255;
       inject_Z (16 * c + d) / 255;
       inject_Z (16 * e + f) / 255]
  | _ => [0; 0; 0]
  end.

(** What [ajustCanvasRatio] writes: the ratio it keeps and the size of the
    canvas on the page, in pixels. *)
Record Layout : Type := mkLayout {
  fullScreenRatio : option (Q * Q);
  styleWidth : Q;
  styleHeight : Q
}.

(** [ajustCanvasRatio(xRatio, yRatio)], in a window of [innerWidth] by
    [innerHeight]. *)
Definition ajustCanvasRatio (innerWidth innerHeight xRatio yRatio : Q)
  : Layout :=
  if Qgtb innerHeight (innerWidth * (yRatio / xRatio))
  then mkLayout (Some (xRatio, yRatio))
         innerWidth (innerWidth * (yRatio / xRatio))
  else mkLayout (Some (xRatio, yRatio))
         (innerHeight * (xRatio / yRatio)) innerHeight.

(** What the draw function calls, in the order of the calls; the clearing of
    the canvas and the painting of the background come first. *)
Inductive DrawCall : Type :=
  | CallClear
  | CallDrawParticle (particle : ref)
  | CallDrawSprite (sprite : ref)
  | CallSpriteDraw (sprite : ref)
  | CallHostDraw.

Section Draw.

(** [sprite.draw()] as the class of the sprite overrides it, and the [draw]
    of [EngineSettings]. *)
Variable sprite_draw : ref -> World -> World.
Variable settings_draw : World -> World.

(** The function [drawFunction()] returns, as far as its calls go:
    [drawParticle] for every visible particle, then [drawSprite] (which
    paints unless the sprite is hidden) and the [draw] of the sprite for
    every visible sprite, then the [draw] of the game.  What is visible is
    decided before anything is drawn. *)
Definition Render_draw (w : World) : list DrawCall * World :=
  let visibleParticles := List.filter (isVisibleParticle w) (getParticles w) in
  let visibleSprites := List.filter (isVisibleSprite w) (getSprites w) in
  let c1 := map CallDrawParticle visibleParticles in
  let '(c2, w) :=
    foldl (fun '(calls, w) sprite =>
             (calls ++ [CallDrawSprite sprite; CallSpriteDraw sprite],
              sprite_draw sprite w))
      ([], w) visibleSprites in
  ([CallClear] ++ c1 ++ c2 ++ [CallHostDraw], settings_draw w).

End Draw.

(** ** [class Controller]: the mouse

    The keys and the touch handlers, which repeat the computations of the
    mouse handlers, are left out. *)

(** What the handlers read of the canvas: [offsetLeft], [offsetTop] and the
    size of [getBoundingClientRect()]. *)
Record Canvas : Type := mkCanvas {
  offsetLeft : Q;
  offsetTop : Q;
  rectWidth : Q;
  rectHeight : Q
}.

Record Controller : Type := mkController {
  mouseClientX : option Q;
  mouseClientY : option Q;
  mouseX : option Q;
  mouseY : option Q
}.

(** [new Controller(render, engine, events)]. *)
Definition new_Controller : Controller := mkController None None None None.

Definition with_events (ev : Events) (w : World) : World :=
  mkWorld (heap w) (next w) (sprites w) (pheap w) (particles w) (camera w)
    (renderWidth w) (renderHeight w) ev.

(** The position in the game of a pointer at [clientX] or [clientY]. *)
Definition gameX (canvas : Canvas) (w : World) (clientX : Q) : Q :=
  (clientX - offsetLeft canvas) * (renderWidth w / rectWidth canvas) +
  cam_x (camera w).

Definition gameY (canvas : Canvas) (w : World) (clientY : Q) : Q :=
  (clientY - offsetTop canvas) * (renderHeight w / rectHeight canvas) +
  cam_y (camera w).

(** What reaches the controller: a mouse event with its [clientX] and
    [clientY], or a change of visibility of the document. *)
Inductive Input : Type :=
  | MouseDown (e : Q * Q)
  | MouseUp (e : Q * Q)
  | MouseMove (e : Q * Q)
  | VisibilityChange (visible : bool).

Section ControllerHandlers.

Variable canvas : Canvas.

(** The callbacks [mouseDown], [mouseUp] and [mouseMove] of [Events]. *)
Variable mouseDown mouseUp mouseMove : Q * Q -> World -> World.

(** What the three mouse listeners do first. *)
Definition locate (e : Q * Q) (w : World) : Controller :=
  let x := gameX canvas w (fst e) in
  let y := gameY canvas w (snd e) in
  mkController (Some (fst e)) (Some (snd e)) (Some x) (Some y).

(** The listeners the constructor installs. *)
Definition handle (input : Input) (c : Controller) (w : World)
  : Controller * World :=
  match input with
  | MouseDown e =>
      let c := locate e w in
      let w := with_events (mkEvents true (mouseEvent (events w))) w in
      let w := with_events (mkEvents (isMouseDown (events w)) (Some e)) w in
      (c, mouseDown e w)
  | MouseUp e =>
      let c := locate e w in
      let w := with_events (mkEvents false (mouseEvent (events w))) w in
      let w := with_events (mkEvents (isMouseDown (events w)) (Some e)) w in
      (c, mouseUp e w)
  | MouseMove e =>
      let c := locate e w in
      let w := mouseMove e w in
      (c, with_events (mkEvents (isMouseDown (events w)) (Some e)) w)
  | VisibilityChange visible =>
      if visible then (c, w)
      else (c, with_events (mkEvents false (mouseEvent (events w))) w)
  end.

Definition handleAll (inputs : list Input) (c : Controller) (w : World)
  : Controller * World :=
  foldl (fun '(c, w) input => handle input c w) (c, w) inputs.

End ControllerHandlers.

(** [getMouseX()] and [getMouseY()]: [None] for [null]. *)
Definition getMouseX (canvas : Canvas) (c : Controller) (w : World)
  : option Q * Controller :=
  match mouseClientX c with
  | None => (None, c)
  | Some clientX =>
      if Qeq_bool clientX 0 then (None, c)
      else
        let x := gameX canvas w clientX in
        (Some x, mkController (mouseClientX c) (mouseClientY c) (Some x) (mouseY c))
  end.

Definition getMouseY (canvas : Canvas) (c : Controller) (w : World)
  : option Q * Controller :=
  match mouseClientY c with
  | None => (None, c)
  | Some clientY =>
      if Qeq_bool clientY 0 then (None, c)
      else
        let y := gameY canvas w clientY in
        (Some y, mkController (mouseClientX c) (mouseClientY c) (mouseX c) (Some y))
  end.

(** ** Statements *)

(** *** Moves and probes *)

(** The overlap test for [me] moved to [(x, y)]. *)
Definition overlapsAt (me : Obj) (x y : Q) (p : Obj) : bool :=
  Qltb x (sp_x p + sp_width p) &&
  Qgtb (x + sp_width me) (sp_x p) &&
  Qltb y (sp_y p + sp_height p) &&
  Qgtb (y + sp_height me) (sp_y p).

(** The candidates other than the platformer that overlap it when it stands
    at [(x, y)]. *)
Definition hitAt (w : World) (this : ref) (x y : Q) : list ref :=
  List.filter
    (fun p => overlapsAt (obj w this) x y (obj w p) && differs this p)
    (gravity_candidates w this).

(** Where [moveX(dx)] leaves the platformer: displaced by [dx] if nothing is
    hit, against the left edge of the last candidate hit when moving right
    and against its right edge otherwise. *)
Definition moveX_x (w : World) (this : ref) (dx : Q) : Q :=
  match last (hitAt w this (getX w this + dx) (getY w this)) with
  | None => getX w this + dx
  | Some p => if Qgtb dx 0 then getX w p - getWidth w this
              else getX w p + getWidth w p
  end.

(** Where [moveY(dy)] leaves the platformer. *)
Definition moveY_y (w : World) (this : ref) (dy : Q) : Q :=
  match last (hitAt w this (getX w this) (getY w this + dy)) with
  | None => getY w this + dy
  | Some p => if Qgtb dy 0 then getY w p - getHeight w this
              else getY w p + getHeight w p
  end.

(** The platformer with its candidate list refreshed. *)
Definition refreshed (w : World) (this : ref) : Obj :=
  set_pl_platformersToCheckCollision (gravity_candidates w this) (obj w this).

(** The sprites of the registry other than [me] that overlap it when it
    stands at [(x, y)]. *)
Definition foundAt (w : World) (me : ref) (x y : Q) : list ref :=
  List.filter
    (fun sprite => overlapsAt (obj w me) x y (obj w sprite) && differs me sprite)
    (sprites w).

(** A velocity under a limit, without rounding. *)
Definition clamped (max : option Q) (v : Q) : Q :=
  match max with
  | Some m => if Qgtb v m then m else if Qltb v (- m) then - m else v
  | None => v
  end.

(** The velocity is within the limit, if there is one. *)
Definition within (max : option Q) (v : Q) : Prop :=
  match max with Some m => Qabs v <= m | None => True end.

(** The method leaves the check-all mode of every platformer as it is. *)
Definition keeps_mode (method : World -> World) : Prop :=
  forall w r,
    pl_checkAllPlatformers (obj (method w) r) =
    pl_checkAllPlatformers (obj w r).

(** *** A platformer at rest *)

(** [me] and [q] are apart along [x]. *)
Definition apart (me q : Obj) : Prop :=
  Qltb (sp_x me) (sp_x q + sp_width q) &&
  Qgtb (sp_x me + sp_width me) (sp_x q) = false.

(** The platformer stands on [p] with no vertical velocity, and is apart
    along [x] from every other candidate. *)
Definition restsOn (w : World) (this p : ref) : Prop :=
  let me := obj w this in
  this <> p /\ p ∈ gravity_candidates w this /\
  sp_x me < sp_x (obj w p) + sp_width (obj w p) /\
  sp_x (obj w p) < sp_x me + sp_width me /\
  sp_y me = sp_y (obj w p) - sp_height me /\
  pl_vy me = 0 /\
  (forall q, q ∈ gravity_candidates w this -> q <> this ->
             obj w q = obj w p \/ apart me (obj w q)).

(** The velocity one call of [doGravity] gives a platformer that has none. *)
Definition pull (w : World) (this : ref) : Q :=
  storedVelocity (pl_maxVY (obj w this)) (0 + pl_gravityAcc (obj w this)).

(** *** Frames *)

Section EngineRun.

Variable sprite_update : ref -> World -> World.
Variable settings_update : World -> World.
Variable settings_init : World -> World.
Variable whileMouseDown : Q * Q -> World -> World.
Variable drawFunction : World -> World.

(** The frame driver invoked once for each entry of [ticks], an entry being
    the time of the invocation and the number of assets then pending. *)
Fixpoint runFrames (ticks : list (Q * nat)) (e : Engine) (w : World)
  : list Frame :=
  match ticks with
  | [] => []
  | (currentTime, numberOfAssetsToLoad) :: ticks =>
      let f := startLoop sprite_update settings_update settings_init
                 whileMouseDown drawFunction currentTime numberOfAssetsToLoad
                 e w in
      f :: runFrames ticks (engine f) (world f)
  end.

End EngineRun.

(** The engine after the frames: that of the last frame. *)
Definition engineAfter (e : Engine) (fs : list Frame) : Engine :=
  match last fs with Some f => engine f | None => e end.

(** The frame got to the drawing. *)
Definition drew (f : Frame) : bool := bool_decide (CallDraw ∈ after f).

(** The engine is as [new Engine()] and [init] leave the fields no method
    writes: frame skipping on, one frame to skip. *)
Definition skipsFrames (e : Engine) : Prop :=
  enableFrameSkipping e = true /\ framesToSkip e == 1.

(** The engine as the loop of a frame finds it: the frame counted, the time
    passed added to the time to spend. *)
Definition atLoop (currentTime : Q) (e : Engine) : Engine :=
  mkEngine (fps e) (tps e) (S (fpsCounter e)) (tpsCounter e) (idealTps e)
    currentTime (minFrameTime e) (timeToSpend currentTime e)
    (maxUpdatesPerFrame e) (enableFrameSkipping e) (framesToSkip e)
    (logPerformanceInfo e) false true false.

(** The number of steps a budget of time allows. *)
Definition stepsDue (e : Engine) (budget : Q) : Z :=
  Z.min (Z.of_nat (maxUpdatesPerFrame e)) (Qfloor (budget / minFrameTime e)).

(** *** Colours and the mouse *)

(** Two hexadecimal digits for a number below 256. *)
Definition hexChar (d : Z) : Ascii.ascii :=
  Ascii.ascii_of_N (Z.to_N (if (d <? 10)%Z then d + 48 else d + 87)).

Definition toHex2 (n : Z) : string :=
  String (hexChar (n / 16)) (String (hexChar (n mod 16)) EmptyString).

(** The callback leaves the input state of [Events] alone. *)
Definition keeps_events (callback : Q * Q -> World -> World) : Prop :=
  forall e w, events (callback e w) = events w.

(** ** More worlds for the examples *)

(** A player one unit to the left of a wall, both on the ground. *)
Definition world_wall : World :=
  with_sprites [0; 1; 2]%nat
    (with_next 3
       (with_heap
          (<[0%nat := rectangle PlatformerClass "ground" 0 100 200 20]>
             (<[1%nat := rectangle PlatformerClass "wall" 50 0 10 100]>
                (<[2%nat := mover PlayerClass "player" 39 90 10 10 3 0
                              (Some 5) None]> ∅)))
          empty_world)).

(** [world_mixed] after [new Sprite("coin", 300, 400, 20, 20, "#ffff00", 5)],
    the coin not yet registered. *)
Definition world_coin : World :=
  match new_Sprite "coin" 300 400 20 20 "#ffff00" 5 world_mixed with
  | Ok (_, w) => w
  | Throw _ => world_mixed
  end.

(** [world_mixed] with the camera following the player. *)
Definition world_follow : World :=
  with_camera (mkCamera 0 0 (Some 2%nat)) world_mixed.

(** [world_particle] after [new Particle("dust", 5, 5, 1, 1, "#888888")], the
    new particle not yet registered. *)
Definition world_dust : World :=
  match new_Particle "dust" 5 5 1 1 "#888888" world_particle with
  | Ok (_, w) => w
  | Throw _ => world_particle
  end.

(** * The platformer on IEEE doubles

    The parts above take a JavaScript number for an exact rational.  What
    the collision test, the probes, the moves, gravity and friction leave
    depends on the rounding of the doubles the engine runs on, so these
    methods of [class Collision] and [class Platformer] are embedded here a
    second time over binary64 numbers: the primitive floats of the kernel,
    which [SpecFloat] specifies.  [+], [-], [*], [<] and [>] are the
    IEEE 754 operations, a decimal literal is the double nearest to it, and
    [NaN], the infinities and the negative zero are values like the others. *)

Module Double.

Import PrimFloat SpecFloat FloatOps.
#[local] Set Warnings "-inexact-float".
#[local] Open Scope float_scope.

(** ** Numbers *)

(** [a > b]. *)
Definition gtb (a b : float) : bool := b <? a.

(** The digits of [v.toFixed(1)] for a finite [v] of magnitude [m * 2 ^ e]:
    those of the integer [n] for which [n / 10] is nearest to the magnitude,
    the larger [n] on a tie, that is the integer part of
    [10 * m * 2 ^ e + 1 / 2]. *)
Definition toFixed1 (v : float) : Z :=
  match Prim2SF v with
  | S754_finite _ m e =>
      if (0 <=? e)%Z then (10 * Z.pos m * 2 ^ e)%Z
      else ((20 * Z.pos m + 2 ^ (- e)) / 2 ^ (1 - e))%Z
  | _ => 0%Z
  end.

(** [Number(s)] for the string [s] of a number [n] of tenths: the double
    nearest to [n / 10], which the correctly rounded division of the
    integer [n] by 10 gives. *)
Definition tenths (n : Z) : float :=
  match n with
  | Zpos p =>
      SF2Prim (SFdiv prec emax (S754_finite false p 0) (S754_finite false 10 0))
  | _ => 0
  end.

(** [Number(v.toFixed(1))].  [toFixed] prints [NaN] and the infinities by
    name and a magnitude of 1e21 or more as [toString] does, so that
    [Number] reads [v] back; it prints a negative [v] as [-] followed by the
    digits of [-v], and both zeros as [0.0]. *)
Definition round1 (v : float) : float :=
  match Prim2SF v with
  | S754_finite s _ _ =>
      if abs v <? 1e21
      then (if s then - tenths (toFixed1 v) else tenths (toFixed1 v))
      else v
  | S754_zero _ => 0
  | _ => v
  end.

(** ** Objects and the world *)

(** An instance of [Sprite] or of a class derived from it, as in the first
    part, with doubles for its numbers; the effects are not numbers these
    methods read and stay as they were. *)
Record Obj : Type := mkObj {
  cls : Class;
  sp_id : string;
  sp_x : float;
  sp_y : float;
  sp_width : float;
  sp_height : float;
  sp_color : string;
  sp_stageLevel : float;
  sp_effects : Effects;
  pl_vx : float;
  pl_vxSpeed : float;
  pl_maxVX : option float;
  pl_vy : float;
  pl_vySpeed : float;
  pl_maxVY : option float;
  pl_gravityAcc : float;
  pl_hasPlatformerBelow : bool;
  pl_checkAllPlatformers : bool;
  pl_platformersToCheckCollision : list ref
}.

Definition set_sp_x (v : float) (o : Obj) : Obj :=
  mkObj (cls o) (sp_id o) v (sp_y o) (sp_width o) (sp_height o) (sp_color o)
    (sp_stageLevel o) (sp_effects o) (pl_vx o) (pl_vxSpeed o) (pl_maxVX o)
    (pl_vy o) (pl_vySpeed o) (pl_maxVY o) (pl_gravityAcc o)
    (pl_hasPlatformerBelow o) (pl_checkAllPlatformers o)
    (pl_platformersToCheckCollision o).

Definition set_sp_y (v : float) (o : Obj) : Obj :=
  mkObj (cls o) (sp_id o) (sp_x o) v (sp_width o) (sp_height o) (sp_color o)
    (sp_stageLevel o) (sp_effects o) (pl_vx o) (pl_vxSpeed o) (pl_maxVX o)
    (pl_vy o) (pl_vySpeed o) (pl_maxVY o) (pl_gravityAcc o)
    (pl_hasPlatformerBelow o) (pl_checkAllPlatformers o)
    (pl_platformersToCheckCollision o).

Definition set_pl_vx (v : float) (o : Obj) : Obj :=
  mkObj (cls o) (sp_id o) (sp_x o) (sp_y o) (sp_width o) (sp_height o)
    (sp_color o) (sp_stageLevel o) (sp_effects o) v (pl_vxSpeed o)
    (pl_maxVX o) (pl_vy o) (pl_vySpeed o) (pl_maxVY o) (pl_gravityAcc o)
    (pl_hasPlatformerBelow o) (pl_checkAllPlatformers o)
    (pl_platformersToCheckCollision o).

Definition set_pl_vy (v : float) (o : Obj) : Obj :=
  mkObj (cls o) (sp_id o) (sp_x o) (sp_y o) (sp_width o) (sp_height o)
    (sp_color o) (sp_stageLevel o) (sp_effects o) (pl_vx o) (pl_vxSpeed o)
    (pl_maxVX o) v (pl_vySpeed o) (pl_maxVY o) (pl_gravityAcc o)
    (pl_hasPlatformerBelow o) (pl_checkAllPlatformers o)
    (pl_platformersToCheckCollision o).

Definition set_pl_hasPlatformerBelow (v : bool) (o : Obj) : Obj :=
  mkObj (cls o) (sp_id o) (sp_x o) (sp_y o) (sp_width o) (sp_height o)
    (sp_color o) (sp_stageLevel o) (sp_effects o) (pl_vx o) (pl_vxSpeed o)
    (pl_maxVX o) (pl_vy o) (pl_vySpeed o) (pl_maxVY o) (pl_gravityAcc o) v
    (pl_checkAllPlatformers o) (pl_platformersToCheckCollision o).

Definition set_pl_platformersToCheckCollision (v : list ref) (o : Obj) : Obj :=
  mkObj (cls o) (sp_id o) (sp_x o) (sp_y o) (sp_width o) (sp_height o)
    (sp_color o) (sp_stageLevel o) (sp_effects o) (pl_vx o) (pl_vxSpeed o)
    (pl_maxVX o) (pl_vy o) (pl_vySpeed o) (pl_maxVY o) (pl_gravityAcc o)
    (pl_hasPlatformerBelow o) (pl_checkAllPlatformers o) v.

(** What a dangling reference would read. *)
#[global] Instance Obj_inhabited : Inhabited Obj :=
  populate (mkObj SpriteClass EmptyString 0 0 0 0 EmptyString 0 new_Effects
              0 0 None 0 0 None 0 false false []).

(** The store of sprite objects and the sprite sequence of [class Game]. *)
Record World : Type := mkWorld {
  heap : gmap nat Obj;
  sprites : list ref
}.

(** The object a reference denotes, a field write through a reference, and
    the world with object [o] stored at [r]. *)
Definition obj (w : World) (r : ref) : Obj := heap w !!! r.

Definition upd (r : ref) (f : Obj -> Obj) (w : World) : World :=
  mkWorld (<[r := f (obj w r)]> (heap w)) (sprites w).

Definition put (r : ref) (o : Obj) (w : World) : World :=
  mkWorld (<[r := o]> (heap w)) (sprites w).

(** ** [class Sprite]: getters and setters *)

Definition getX (w : World) (r : ref) : float := sp_x (obj w r).
Definition getY (w : World) (r : ref) : float := sp_y (obj w r).
Definition getWidth (w : World) (r : ref) : float := sp_width (obj w r).
Definition getHeight (w : World) (r : ref) : float := sp_height (obj w r).

Definition setX (r : ref) (v : float) : World -> World := upd r (set_sp_x v).
Definition setY (r : ref) (v : float) : World -> World := upd r (set_sp_y v).

(** [getGame().getSprites()] and [getSpritesByType(constructor)]. *)
Definition getSprites (w : World) : list ref := sprites w.

Definition getSpritesByType (T : Class) (w : World) : list ref :=
  List.filter (fun sprite => instanceof (cls (obj w sprite)) T) (sprites w).

(** ** [class Collision] *)

(** [touching(other)], for the collision helper of sprite [me]. *)
Definition touching (w : World) (me other : ref) : bool :=
  (getX w me <? getX w other + getWidth w other) &&
  gtb (getX w me + getWidth w me) (getX w other) &&
  (getY w me <? getY w other + getHeight w other) &&
  gtb (getY w me + getHeight w me) (getY w other).

(** [getSpriteAboveSelf()]: the sprite is moved up by one, the registry is
    searched, and the sprite is moved down by one. *)
Definition getSpriteAboveSelf (me : ref) (w : World) : list ref * World :=
  let w := setY me (getY w me - 1) w in
  let touchingSprites :=
    List.filter (fun sprite => touching w me sprite && differs me sprite)
      (getSprites w) in
  let w := setY me (getY w me + 1) w in
  (touchingSprites, w).

(** [getSpriteBelowSelf()]. *)
Definition getSpriteBelowSelf (me : ref) (w : World) : list ref * World :=
  let w := setY me (getY w me + 1) w in
  let touchingSprites :=
    List.filter (fun sprite => touching w me sprite && differs me sprite)
      (getSprites w) in
  let w := setY me (getY w me - 1) w in
  (touchingSprites, w).

(** [getSpriteLeftSelf()]. *)
Definition getSpriteLeftSelf (me : ref) (w : World) : list ref * World :=
  let w := setX me (getX w me - 1) w in
  let touchingSprites :=
    List.filter (fun sprite => touching w me sprite && differs me sprite)
      (getSprites w) in
  let w := setX me (getX w me + 1) w in
  (touchingSprites, w).

(** [getSpriteRightSelf()]. *)
Definition getSpriteRightSelf (me : ref) (w : World) : list ref * World :=
  let w := setX me (getX w me + 1) w in
  let touchingSprites :=
    List.filter (fun sprite => touching w me sprite && differs me sprite)
      (getSprites w) in
  let w := setX me (getX w me - 1) w in
  (touchingSprites, w).

(** ** [class Platformer] *)

Definition getVX (w : World) (r : ref) : float := pl_vx (obj w r).
Definition getVY (w : World) (r : ref) : float := pl_vy (obj w r).
Definition getMaxVX (w : World) (r : ref) : option float := pl_maxVX (obj w r).
Definition getMaxVY (w : World) (r : ref) : option float := pl_maxVY (obj w r).
Definition getGravityAcc (w : World) (r : ref) : float :=
  pl_gravityAcc (obj w r).
Definition getPlatformersToCheckCollision (w : World) (r : ref) : list ref :=
  pl_platformersToCheckCollision (obj w r).

(** [max !== null && v > max] and [max !== null && v < -max]. *)
Definition above_max (max : option float) (v : float) : bool :=
  match max with Some m => gtb v m | None => false end.
Definition below_min (max : option float) (v : float) : bool :=
  match max with Some m => v <? - m | None => false end.

(** [setVX(_val)]. *)
Definition setVX (this : ref) (val : float) (w : World) : World :=
  let w := upd this (set_pl_vx val) w in
  let w := upd this (set_pl_vx (round1 (getVX w this))) w in
  if above_max (getMaxVX w this) (getVX w this)
  then upd this (set_pl_vx (default 0 (getMaxVX w this))) w
  else if below_min (getMaxVX w this) (getVX w this)
  then upd this (set_pl_vx (- default 0 (getMaxVX w this))) w
  else w.

(** [setVY(_val)]. *)
Definition setVY (this : ref) (val : float) (w : World) : World :=
  let w := upd this (set_pl_vy val) w in
  let w := upd this (set_pl_vy (round1 (getVY w this))) w in
  if above_max (getMaxVY w this) (getVY w this)
  then upd this (set_pl_vy (default 0 (getMaxVY w this))) w
  else if below_min (getMaxVY w this) (getVY w this)
  then upd this (set_pl_vy (- default 0 (getMaxVY w this))) w
  else w.

(** The refresh of the candidate list that opens [doGravity], [moveX] and
    [moveY]. *)
Definition refreshCandidates (this : ref) (w : World) : World :=
  if pl_checkAllPlatformers (obj w this)
  then upd this (set_pl_platformersToCheckCollision
                   (getSpritesByType PlatformerClass w)) w
  else w.

(** The callback of the [forEach] of [doGravity]. *)
Definition doGravity_each (this : ref) (w : World) (platformer : ref) : World :=
  if touching w this platformer && differs this platformer then
    let w :=
      if pl_vy (obj w this) <? 0
      then setY this (getY w platformer + getHeight w platformer) w
      else
        let w := setY this (getY w platformer - getHeight w this) w in
        upd this (set_pl_hasPlatformerBelow true) w in
    let w :=
      if touching w this platformer
      then setY this (getY w this + 0.1) w
      else w in
    setVY this 0 w
  else w.

(** [doGravity()]. *)
Definition doGravity (this : ref) (w : World) : World :=
  let w := refreshCandidates this w in
  let w := upd this (set_pl_hasPlatformerBelow false) w in
  let w := setY this (getY w this + getVY w this) w in
  let w := foldl (doGravity_each this) w (getPlatformersToCheckCollision w this) in
  if negb (pl_hasPlatformerBelow (obj w this))
  then setVY this (getVY w this + getGravityAcc w this) w
  else w.

(** [moveX(x)]. *)
Definition moveX (this : ref) (x : float) (w : World) : World :=
  let w := refreshCandidates this w in
  let w := setX this (getX w this + x) w in
  let touchingPlatformers :=
    List.filter
      (fun platformer => touching w this platformer && differs this platformer)
      (getPlatformersToCheckCollision w this) in
  foldl (fun w platformer =>
           if gtb x 0
           then setX this (getX w platformer - getWidth w this) w
           else setX this (getX w platformer + getWidth w platformer) w)
    w touchingPlatformers.

(** [moveY(y)]. *)
Definition moveY (this : ref) (y : float) (w : World) : World :=
  let w := refreshCandidates this w in
  let w := setY this (getY w this + y) w in
  let touchingPlatformers :=
    List.filter
      (fun platformer => touching w this platformer && differs this platformer)
      (getPlatformersToCheckCollision w this) in
  foldl (fun w platformer =>
           if gtb y 0
           then setY this (getY w platformer - getHeight w this) w
           else setY this (getY w platformer + getHeight w platformer) w)
    w touchingPlatformers.

(** [doJump(jumpHeight)]. *)
Definition doJump (this : ref) (jumpHeight : float) (w : World) : World :=
  let '(below, w) := getSpriteBelowSelf this w in
  if (0 <? length below)%nat then setVY this (- jumpHeight) w else w.

(** [getPlatformerBelowSelf()]. *)
Definition getPlatformerBelowSelf (this : ref) (w : World) : list ref * World :=
  let '(below, w) := getSpriteBelowSelf this w in
  (List.filter (fun sprite => instanceof (cls (obj w sprite)) PlatformerClass)
     below, w).

(** [addFrictionX(friction)]. *)
Definition addFrictionX (this : ref) (friction : float) (w : World) : World :=
  let w := setVX this (getVX w this * friction) w in
  if abs (getVX w this) <? 0.3 then setVX this 0 w else w.

(** ** Statements *)

(** What the velocity setters store for a value [v] under a limit [max]:
    [v] rounded to one decimal, then clamped when a limit is set. *)
Definition storedVelocity (max : option float) (v : float) : float :=
  let r := round1 v in
  match max with
  | None => r
  | Some m => if gtb r m then m else if r <? - m then - m else r
  end.

(** The limit is [null] or not negative. *)
Definition limit_ok (max : option float) : Prop :=
  match max with None => True | Some m => (0 <=? m) = true end.

(** The velocity friction leaves: the product as the setter stores it, or 0
    when that is smaller than 0.3 in magnitude. *)
Definition frictionVelocity (max : option float) (v friction : float) : float :=
  let r := storedVelocity max (v * friction) in
  if abs r <? 0.3 then 0 else r.

(** The overlap test for [me] moved to [(x, y)]. *)
Definition overlapsAt (me : Obj) (x y : float) (p : Obj) : bool :=
  (x <? sp_x p + sp_width p) &&
  gtb (x + sp_width me) (sp_x p) &&
  (y <? sp_y p + sp_height p) &&
  gtb (y + sp_height me) (sp_y p).

(** What a gravity step tracks: the height, the vertical velocity and
    whether a platformer has been found below. *)
Record Falling : Type := mkFalling {
  f_y : float;
  f_vy : float;
  f_below : bool
}.

(** One candidate [p]: if it touches, snap below it when moving up and onto
    it otherwise (which grounds), add 0.1 to the height if they still touch,
    and store 0 as the velocity.  [store] is what a write to [vy] keeps. *)
Definition gravity_contact (store : float -> float) (me : Obj) (st : Falling)
    (p : Obj) : Falling :=
  if overlapsAt me (sp_x me) (f_y st) p then
    let y := if f_vy st <? 0 then sp_y p + sp_height p
             else sp_y p - sp_height me in
    let below := if f_vy st <? 0 then f_below st else true in
    let y := if overlapsAt me (sp_x me) y p then y + 0.1 else y in
    mkFalling y (store 0) below
  else st.

(** The candidates of a step: every registered platformer in check-all
    mode, the stored list otherwise. *)
Definition gravity_candidates (w : World) (this : ref) : list ref :=
  if pl_checkAllPlatformers (obj w this)
  then getSpritesByType PlatformerClass w
  else pl_platformersToCheckCollision (obj w this).

(** The steps in order: the candidates are refreshed, the flag is reset, [vy]
    is added to [y], the candidates other than the platformer itself are
    handled one after the other, and gravity is added unless grounded. *)
Definition gravity_fall (store : float -> float) (w : World) (this : ref)
  : Falling :=
  let me := obj w this in
  let others := List.filter (differs this) (gravity_candidates w this) in
  let st := foldl (gravity_contact store me)
              (mkFalling (sp_y me + pl_vy me) (pl_vy me) false)
              (map (obj w) others) in
  if f_below st then st
  else mkFalling (f_y st) (store (f_vy st + pl_gravityAcc me)) (f_below st).

(** The object with the height, the velocity and the flag of [st]. *)
Definition place (st : Falling) (o : Obj) : Obj :=
  set_pl_vy (f_vy st)
    (set_sp_y (f_y st) (set_pl_hasPlatformerBelow (f_below st) o)).

(** The platformer with its candidate list refreshed. *)
Definition refreshed (w : World) (this : ref) : Obj :=
  set_pl_platformersToCheckCollision (gravity_candidates w this) (obj w this).

(** The platformer [doGravity] leaves, for a given way of storing [vy]. *)
Definition gravity_steps (store : float -> float) (w : World) (this : ref)
  : Obj :=
  place (gravity_fall store w this) (refreshed w this).

(** The steps with plain arithmetic on [vy], as a reading of "set [vy] to 0"
    and "add [gravityAcc] to [vy]" that ignores the setter. *)
Definition gravity_steps_plain : World -> ref -> Obj :=
  gravity_steps (fun v => v).

(** The steps with every write to [vy] going through [setVY]. *)
Definition gravity_steps_stored (w : World) (this : ref) : Obj :=
  gravity_steps (storedVelocity (pl_maxVY (obj w this))) w this.

(** The candidates other than the platformer that overlap it when it stands
    at [(x, y)]. *)
Definition hitAt (w : World) (this : ref) (x y : float) : list ref :=
  List.filter
    (fun p => overlapsAt (obj w this) x y (obj w p) && differs this p)
    (gravity_candidates w this).

(** Where [moveX(dx)] leaves the platformer: displaced by [dx] if nothing is
    hit, and otherwise where the last candidate hit puts it, its left edge
    less the width when moving right and its right edge otherwise. *)
Definition moveX_x (w : World) (this : ref) (dx : float) : float :=
  match last (hitAt w this (getX w this + dx) (getY w this)) with
  | None => getX w this + dx
  | Some p => if gtb dx 0 then getX w p - getWidth w this
              else getX w p + getWidth w p
  end.

(** Where [moveY(dy)] leaves the platformer. *)
Definition moveY_y (w : World) (this : ref) (dy : float) : float :=
  match last (hitAt w this (getX w this) (getY w this + dy)) with
  | None => getY w this + dy
  | Some p => if gtb dy 0 then getY w p - getHeight w this
              else getY w p + getHeight w p
  end.

(** The sprites of the registry other than [me] that overlap it when it
    stands at [(x, y)]. *)
Definition foundAt (w : World) (me : ref) (x y : float) : list ref :=
  List.filter
    (fun sprite => overlapsAt (obj w me) x y (obj w sprite) && differs me sprite)
    (sprites w).

(** ** Worlds for the examples *)

(** A sprite object that is a rectangle at rest, with the fields of a
    platformer as its constructor sets them. *)
Definition rectangle (C : Class) (id : string) (x y width height : float) : Obj :=
  mkObj C id x y width height "#000000" 0 new_Effects
    0 0.5 None 0 0.5 None 0.2 false true [].

(** A platformer with velocity [vx], [vy] and limits [maxVX], [maxVY]. *)
Definition mover (C : Class) (id : string) (x y width height : float)
    (vx vy : float) (maxVX maxVY : option float) : Obj :=
  mkObj C id x y width height "#0000ff" 10 new_Effects
    vx 0.5 maxVX vy 0.5 maxVY 0.2 false true [].

(** The registry [l] over the objects [os], stored at 0, 1, ... *)
Definition world_of (os : list Obj) (l : list ref) : World :=
  mkWorld (list_to_map (imap (fun i o => (i, o)) os)) l.

(** A player 10 wide and high above a ground whose top is at [top], falling
    or rising at [vy] under the limit [maxVY]. *)
Definition world_fall (top y vy : float) (maxVY : option float) : World :=
  world_of [mover PlatformerClass "player" 0 y 10 10 0 vy None maxVY;
            rectangle PlatformerClass "ground" 0 top 100 20] [0; 1]%nat.

(** A registry with a background that is a plain sprite, a platformer as
    ground and a player standing on it. *)
Definition world_mixed : World :=
  world_of [rectangle SpriteClass "background" 0 0 800 600;
            rectangle PlatformerClass "ground" 0 500 800 100;
            rectangle PlayerClass "player" 100 420 80 80] [0; 1; 2]%nat.

(** A platformer standing on a crate that is a plain sprite, with nothing
    else in the registry. *)
Definition world_crate : World :=
  world_of [mover PlatformerClass "player" 0 0 10 10 0 0 None None;
            rectangle SpriteClass "crate" 0 10 10 10] [0; 1]%nat.

(** One platformer alone in the registry, at [(x, y)]. *)
Definition world_mover (x y vx vy : float) (maxVX maxVY : option float)
  : World :=
  world_of [mover PlatformerClass "player" x y 10 10 vx vy maxVX maxVY]
    [0%nat].

(** A player 10 wide to the left of a wall whose left edge is at [left]. *)
Definition world_wall (left x : float) : World :=
  world_of [mover PlatformerClass "player" x 0 10 10 0 0 None None;
            rectangle PlatformerClass "wall" left 0 10 100] [0; 1]%nat.

End Double.

(** ** Worlds for the examples, continued *)

(** Three sprites A, B and C with stage levels 2, 1 and 3, none registered,
    and the world after [addNewSprite(A)], [addNewSprite(B)],
    [B.setStageLevel(2)] and [addNewSprite(C)]. *)
Definition world_ties : World :=
  with_next 3
    (with_heap (<[0%nat := leveled "A" 2]>
                  (<[1%nat := leveled "B" 1]>
                     (<[2%nat := leveled "C" 3]> ∅)))
       empty_world).

Definition world_releveled : World :=
  addNewSprite (One 2)
    (setStageLevel 1 2
       (addNewSprite (One 1) (addNewSprite (One 0) world_ties))).

(** * Properties *)

(** ** Numbers *)

Lemma Qltb_lt (a b : Q) : Qltb a b = true <-> a < b.
Proof.
  unfold Qltb. rewrite negb_true_iff, <- not_true_iff_false, Qle_bool_iff.
  split; [apply Qnot_le_lt | apply Qlt_not_le].
Qed.

Lemma Qltb_ge (a b : Q) : Qltb a b = false <-> b <= a.
Proof.
  unfold Qltb. rewrite negb_false_iff. apply Qle_bool_iff.
Qed.

Lemma Qgtb_gt (a b : Q) : Qgtb a b = true <-> b < a.
Proof. apply Qltb_lt. Qed.

Lemma Qgtb_le (a b : Q) : Qgtb a b = false <-> a <= b.
Proof. apply Qltb_ge. Qed.

Lemma Qgeb_ge (a b : Q) : Qgeb a b = true <-> b <= a.
Proof. apply Qle_bool_iff. Qed.

(** [round1] on a few numbers: ties go away from zero. *)
Example round1_examples :
  round1 0.225 == 0.2 /\ round1 0.25 == 0.3 /\ round1 (-0.25) == -0.3 /\
  round1 18 == 18 /\ round1 10.2 == 10.2 /\ round1 0 == 0.
Proof. repeat split. Qed.

(** [round1 v] is a number of tenths at most a twentieth away from [v]. *)
Lemma round1_near (v : Q) :
  round1 v == toFixed1 v # 10 /\ Qabs (round1 v - v) <= 1 # 20.
Proof.
  assert (round1 v == toFixed1 v # 10) as Hr by apply Qred_correct.
  split; [exact Hr |]. rewrite Hr. unfold toFixed1.
  set (n := Qfloor (Qabs v * 10 + (1 # 2))).
  assert (inject_Z n <= Qabs v * 10 + (1 # 2)) as Hlo by apply Qfloor_le.
  assert (Qabs v * 10 + (1 # 2) < inject_Z (n + 1)) as Hhi by apply Qlt_floor.
  rewrite inject_Z_plus in Hhi. change (inject_Z 1) with 1 in Hhi.
  assert (forall z : Z, z # 10 == inject_Z z / 10) as Hten.
  { intros z. unfold inject_Z, Qdiv, Qmult, Qinv, Qeq. simpl. lia. }
  apply Qabs_Qle_condition.
  destruct (Qltb v 0) eqn:E.
  - apply Qltb_lt in E. rewrite Hten, inject_Z_opp.
    rewrite (Qabs_neg v) in Hlo, Hhi by lra.
    unfold Qdiv. change (/ 10) with (1 # 10). clearbody n. split; lra.
  - apply Qltb_ge in E. rewrite Hten.
    rewrite (Qabs_pos v) in Hlo, Hhi by lra.
    unfold Qdiv. change (/ 10) with (1 # 10). clearbody n. split; lra.
Qed.

(** ** The store *)

Lemma obj_upd_eq (w : World) (r : ref) (f : Obj -> Obj) :
  obj (upd r f w) r = f (obj w r).
Proof. unfold obj, upd. simpl. apply lookup_total_insert_eq. Qed.

Lemma obj_upd_ne (w : World) (r r' : ref) (f : Obj -> Obj) :
  r <> r' -> obj (upd r f w) r' = obj w r'.
Proof. intros Hne. unfold obj, upd. simpl. by apply lookup_total_insert_ne. Qed.

Lemma upd_upd (w : World) (r : ref) (f g : Obj -> Obj) :
  upd r g (upd r f w) = upd r (fun o => g (f o)) w.
Proof.
  unfold upd at 1. rewrite obj_upd_eq. unfold upd, with_heap. simpl.
  by rewrite insert_insert_eq.
Qed.

(** A write that stores what is there already changes nothing, for a
    reference that denotes an object. *)
Lemma upd_id (w : World) (r : ref) (f : Obj -> Obj) (o : Obj) :
  heap w !! r = Some o -> f o = o -> upd r f w = w.
Proof.
  intros Hr Hf. unfold upd, obj, with_heap.
  rewrite (lookup_total_correct _ _ _ Hr), Hf, (insert_id _ _ _ Hr).
  by destruct w.
Qed.

(** ** Collision *)

Lemma touching_overlap (w : World) (a b : ref) :
  touching w a b = true <-> overlap w a b.
Proof.
  unfold touching, overlap.
  rewrite !andb_true_iff, !Qgtb_gt, !Qltb_lt. tauto.
Qed.



(** ** The registry *)

Lemma getSpriteById_None (id : string) (w : World) :
  getSpriteById id w = None <-> id_free id w.
Proof.
  unfold getSpriteById, id_free. rewrite head_None. split.
  - intros Hnil r Hr Hid.
    assert (In r (List.filter (fun s => bool_decide (getId w s = id)) (sprites w)))
      as Hin.
    { apply filter_In. split; [by apply list_elem_of_In |].
      by apply bool_decide_eq_true. }
    rewrite Hnil in Hin. destruct Hin.
  - intros Hfree.
    destruct (List.filter _ _) as [| r l] eqn:E; [done |].
    assert (In r (r :: l)) as Hin by (left; done).
    rewrite <- E in Hin. apply filter_In in Hin as [Hr Hid].
    apply bool_decide_eq_true in Hid. apply list_elem_of_In in Hr.
    by destruct (Hfree r Hr).
Qed.

Lemma getSpriteById_registered (id : string) (w : World) (r : ref) :
  r ∈ sprites w -> getId w r = id -> is_Some (getSpriteById id w).
Proof.
  intros Hr Hid. destruct (getSpriteById id w) eqn:E; [by eexists |].
  apply getSpriteById_None in E. by destruct (E r Hr).
Qed.

Lemma deleteSpriteById_free (id : string) (w : World) :
  id_free id (deleteSpriteById id w).
Proof.
  intros r Hr. unfold deleteSpriteById in Hr. simpl in Hr.
  apply list_elem_of_In, filter_In in Hr as [_ Hr].
  apply negb_true_iff, bool_decide_eq_false in Hr. exact Hr.
Qed.

Lemma deleteSprites_free (id : string) (w : World) :
  id_free id (deleteSprites w).
Proof. intros r Hr. simpl in Hr. by apply elem_of_nil in Hr. Qed.

(** A construction succeeds when the id is free, and it only allocates. *)
Lemma Sprite_constructor_free (C : Class) (id : string)
    (x y width height : Q) (color : string) (stageLevel : Q) (w : World) :
  id_free id w ->
  Sprite_constructor C id x y width height color stageLevel w =
    Ok (next w,
        with_next (S (next w))
          (with_heap
             (<[next w := mkObj C id x y width height color stageLevel
                            new_Effects 0 0 None 0 0 None 0 false false []]>
                (heap w)) w)).
Proof.
  intros Hfree. unfold Sprite_constructor.
  by rewrite (proj2 (getSpriteById_None id w) Hfree).
Qed.

Lemma Sprite_constructor_taken (C : Class) (id : string)
    (x y width height : Q) (color : string) (stageLevel : Q) (w : World) :
  is_Some (getSpriteById id w) ->
  Sprite_constructor C id x y width height color stageLevel w =
    Throw (already_exists id).
Proof. intros [r Hr]. unfold Sprite_constructor. by rewrite Hr. Qed.

(** C7. [deleteSpritesByType(T)] keeps the sprites that are instances of [T]
    and removes every other sprite: the reverse of what its name and its
    documentation say.  With a plain sprite, a platformer and a player in
    the registry, deleting by [Platformer] removes the plain sprite and keeps
    the other two. *)
Theorem deleteSpritesByType_keeps_instances :
  (forall (T : Class) (w : World) (r : ref),
      r ∈ sprites (deleteSpritesByType T w) <->
      r ∈ sprites w /\ instanceof (cls (obj w r)) T = true) /\
  sprites (deleteSpritesByType PlatformerClass world_mixed) = [1; 2]%nat.
Proof.
  split; [| reflexivity].
  intros T w r. unfold deleteSpritesByType. simpl.
  rewrite list_elem_of_In, filter_In, <- list_elem_of_In. tauto.
Qed.

(** The setter of the later revision refuses a value outside [0,100] and
    stores a value inside it. *)
Lemma setTransparency_later_checked (v : Q) (e : Effects) :
  (~ (0 <= v <= 100) ->
   Effects_setTransparency_later v e =
     Throw "Transparency must be between 0 and 100") /\
  (forall e', Effects_setTransparency_later v e = Ok e' ->
              transparency e' = v /\ 0 <= v <= 100).
Proof.
  unfold Effects_setTransparency_later.
  destruct (Qltb v 0) eqn:E0; simpl.
  - split; [done |]. intros e' H. discriminate H.
  - destruct (Qgtb v 100) eqn:E1.
    + split; [done |]. intros e' H. discriminate H.
    + apply Qltb_ge in E0. apply Qgtb_le in E1. split.
      * intros Hnot. destruct Hnot. by split.
      * intros e' H. inversion H. by simpl.
Qed.

(** C8. [setTransparency] stores any number: a value outside [0,100] is
    accepted and becomes the transparency of the sprite. *)
Theorem setTransparency_unchecked :
  (forall (w : World) (this : ref) (v : Q),
      getTransparency (setTransparency this v w) this = v) /\
  getTransparency (setTransparency 0 150 world_mixed) 0 = 150 /\
  ~ 150 <= 100.
Proof.
  split; [| split].
  - intros w this v. unfold getTransparency, getEffect, setTransparency.
    by rewrite obj_upd_eq.
  - reflexivity.
  - intros H. apply Qle_bool_iff in H. discriminate H.
Qed.

(** C9. Constructing a sprite whose id is the id of a registered sprite
    throws, as does renaming a sprite to that id; once the registered sprite
    has been deleted (by its id, or with all the sprites), the construction
    succeeds. *)
Theorem duplicate_id_rejected (w : World) (r : ref) (C : Class) (id : string)
    (x y width height : Q) (color : string) (stageLevel : Q) :
  r ∈ sprites w -> getId w r = id ->
  Sprite_constructor C id x y width height color stageLevel w =
    Throw (already_exists id) /\
  Platformer_constructor C id x y width height color stageLevel w =
    Throw (already_exists id) /\
  (forall this, setId this id w = Throw (already_exists id)) /\
  (exists this w',
      Sprite_constructor C id x y width height color stageLevel
        (deleteSpriteById id w) = Ok (this, w')) /\
  (exists this w',
      Sprite_constructor C id x y width height color stageLevel
        (deleteSprites w) = Ok (this, w')).
Proof.
  intros Hr Hid.
  pose proof (getSpriteById_registered id w r Hr Hid) as Hsome.
  split; [by apply Sprite_constructor_taken |].
  split.
  { unfold Platformer_constructor. by rewrite Sprite_constructor_taken. }
  split.
  { intros this. unfold setId. by destruct Hsome as [r' ->]. }
  split.
  - do 2 eexists. apply Sprite_constructor_free, deleteSpriteById_free.
  - do 2 eexists. apply Sprite_constructor_free, deleteSprites_free.
Qed.

(** The player of [world_mixed]: a second ["player"] is refused while the
    first is registered and accepted once it is deleted. *)
Lemma duplicate_id_rejected_witness :
  Sprite_constructor PlayerClass "player" 0 0 80 80 "#0000ff" 10 world_mixed =
    Throw (already_exists "player") /\
  Platformer_constructor PlayerClass "player" 0 0 80 80 "#0000ff" 10 world_mixed =
    Throw (already_exists "player") /\
  (forall this, setId this "player" world_mixed = Throw (already_exists "player")) /\
  (exists this w',
      Sprite_constructor PlayerClass "player" 0 0 80 80 "#0000ff" 10
        (deleteSpriteById "player" world_mixed) = Ok (this, w')) /\
  (exists this w',
      Sprite_constructor PlayerClass "player" 0 0 80 80 "#0000ff" 10
        (deleteSprites world_mixed) = Ok (this, w')).
Proof.
  apply (duplicate_id_rejected world_mixed 2).
  - apply list_elem_of_In. simpl. tauto.
  - reflexivity.
Defined.

(** *** Construction does not register *)

(** What both constructors do when the id is free: they return the fresh
    reference, move the allocation pointer past it, leave the registry and
    every allocated object alone, and give the new object the id. *)
Definition allocates (id : string) (construct : World -> result (ref * World))
  : Prop :=
  forall w, id_free id w ->
    exists w', construct w = Ok (next w, w') /\
      next w' = S (next w) /\
      sprites w' = sprites w /\
      getId w' (next w) = id /\
      (forall r, r <> next w -> obj w' r = obj w r).

Lemma Sprite_constructor_allocates (C : Class) (id : string)
    (x y width height : Q) (color : string) (stageLevel : Q) :
  allocates id (Sprite_constructor C id x y width height color stageLevel).
Proof.
  intros w Hfree. eexists. split; [by apply Sprite_constructor_free |].
  repeat split.
  - unfold getId, obj. simpl. by rewrite lookup_total_insert_eq.
  - intros r Hne. unfold obj. simpl. by rewrite lookup_total_insert_ne.
Qed.

Lemma Platformer_constructor_allocates (C : Class) (id : string)
    (x y width height : Q) (color : string) (stageLevel : Q) :
  allocates id (Platformer_constructor C id x y width height color stageLevel).
Proof.
  intros w Hfree. unfold Platformer_constructor.
  rewrite Sprite_constructor_free by done.
  eexists. split; [done |]. repeat split.
  - unfold getId. rewrite obj_upd_eq. unfold Platformer_init, obj. simpl.
    by rewrite lookup_total_insert_eq.
  - intros r Hne. rewrite obj_upd_ne by done.
    unfold obj. simpl. by rewrite lookup_total_insert_ne.
Qed.

Lemma constructMany_allocates (id : string)
    (construct : World -> result (ref * World)) (n : nat) (w : World) :
  allocates id construct ->
  id_free id w -> registry_allocated w ->
  exists w',
    constructMany n construct w = Ok (seq (next w) n, w') /\
    next w' = (next w + n)%nat /\
    sprites w' = sprites w /\
    (forall r, (r < next w)%nat -> obj w' r = obj w r) /\
    (forall r, (next w <= r < next w + n)%nat -> getId w' r = id).
Proof.
  intros Halloc. revert w. induction n as [| n IH]; intros w Hfree Hreg.
  - exists w. simpl. repeat split; try done; try lia.
  - destruct (Halloc w Hfree) as (w1 & Hc & Hnext & Hsp & Hid & Hobj).
    assert (id_free id w1) as Hfree1.
    { intros r Hr. rewrite Hsp in Hr. unfold getId.
      rewrite Hobj; [by apply Hfree |].
      specialize (Hreg r Hr). lia. }
    assert (registry_allocated w1) as Hreg1.
    { intros r Hr. rewrite Hsp in Hr. specialize (Hreg r Hr). lia. }
    destruct (IH w1 Hfree1 Hreg1) as (w2 & Hc2 & Hnext2 & Hsp2 & Hobj2 & Hid2).
    exists w2. simpl. rewrite Hc, Hc2, Hnext. repeat split.
    + lia.
    + congruence.
    + intros r Hr. rewrite Hobj2 by lia. apply Hobj. lia.
    + intros r Hr. destruct (decide (r = next w)) as [-> | Hne].
      * unfold getId. rewrite Hobj2 by lia. exact Hid.
      * apply Hid2. lia.
Qed.

(** [registry_allocated] is an invariant of the registry: it holds of the
    empty world and every operation on the registry keeps it, provided the
    sprites handed to [addNewSprite] are objects. *)
Lemma registry_allocated_empty : registry_allocated empty_world.
Proof. intros r Hr. by apply elem_of_nil in Hr. Qed.

Lemma registry_allocated_construct (id : string)
    (construct : World -> result (ref * World)) (w w' : World) (this : ref) :
  allocates id construct -> id_free id w -> registry_allocated w ->
  construct w = Ok (this, w') ->
  registry_allocated w' /\ (this < next w')%nat.
Proof.
  intros Halloc Hfree Hreg Hc.
  destruct (Halloc w Hfree) as (w1 & Hc1 & Hnext & Hsp & _).
  rewrite Hc in Hc1. inversion Hc1; subst. split; [| lia].
  intros r Hr. rewrite Hsp in Hr. specialize (Hreg r Hr). lia.
Qed.

Lemma registry_allocated_deleteSpriteById (id : string) (w : World) :
  registry_allocated w -> registry_allocated (deleteSpriteById id w).
Proof.
  intros Hreg r Hr. simpl in *.
  apply list_elem_of_In, filter_In in Hr as [Hr _].
  by apply Hreg, list_elem_of_In.
Qed.

(** C10. A successful construction leaves the sequence of the registry as it
    was; the new object is not in it.  Any number of sprites (or platformers)
    with one id can be constructed in a row while no registered sprite has
    the id: the constructions all succeed, the objects are distinct, each has
    the id, none is registered, and the registered objects are untouched. *)
Theorem constructor_does_not_register (n : nat) (platformer : bool)
    (C : Class) (id : string) (x y width height : Q) (color : string)
    (stageLevel : Q) (w : World) :
  id_free id w -> registry_allocated w ->
  exists rs w',
    constructMany n
      ((if platformer then Platformer_constructor else Sprite_constructor)
         C id x y width height color stageLevel) w = Ok (rs, w') /\
    length rs = n /\ NoDup rs /\
    sprites w' = sprites w /\
    (forall r, r ∈ rs -> (r ∉ sprites w') /\ getId w' r = id) /\
    (forall r, r ∈ sprites w -> obj w' r = obj w r) /\
    id_free id w'.
Proof.
  intros Hfree Hreg.
  assert (allocates id
            ((if platformer then Platformer_constructor else Sprite_constructor)
               C id x y width height color stageLevel)) as Halloc.
  { destruct platformer;
      [apply Platformer_constructor_allocates | apply Sprite_constructor_allocates]. }
  destruct (constructMany_allocates id _ n w Halloc Hfree Hreg)
    as (w' & Hc & Hnext & Hsp & Hobj & Hid).
  exists (seq (next w) n), w'. split; [exact Hc |].
  split; [apply length_seq |].
  split; [apply NoDup_seq |].
  split; [exact Hsp |].
  split; [| split].
  - intros r Hr. apply elem_of_seq in Hr. split.
    + rewrite Hsp. intros Hin. specialize (Hreg r Hin). lia.
    + apply Hid. lia.
  - intros r Hr. apply Hobj, Hreg, Hr.
  - intros r Hr. rewrite Hsp in Hr. unfold getId.
    rewrite Hobj by apply Hreg, Hr. by apply Hfree.
Qed.

(** Three sprites named ["coin"] constructed next to the registry of
    [world_mixed], which has no ["coin"]. *)
Lemma constructor_does_not_register_witness :
  exists rs w',
    constructMany 3 (Sprite_constructor SpriteClass "coin" 0 0 8 8 "#ffff00" 1)
      world_mixed = Ok (rs, w') /\
    length rs = 3%nat /\ NoDup rs /\
    sprites w' = sprites world_mixed /\
    (forall r, r ∈ rs -> (r ∉ sprites w') /\ getId w' r = "coin") /\
    (forall r, r ∈ sprites world_mixed -> obj w' r = obj world_mixed r) /\
    id_free "coin" w'.
Proof.
  apply (constructor_does_not_register 3 false SpriteClass "coin" 0 0 8 8
           "#ffff00" 1 world_mixed).
  - intros r Hr.
    apply list_elem_of_In in Hr. simpl in Hr.
    destruct Hr as [<- | [<- | [<- | []]]]; vm_compute; discriminate.
  - intros r Hr.
    apply list_elem_of_In in Hr. simpl in Hr.
    destruct Hr as [<- | [<- | [<- | []]]]; simpl; lia.
Defined.

(** *** Sorting *)

Section Sorting.

Variable key : ref -> Q.

Local Abbreviation compare := (fun a b : ref => key a - key b).
Local Abbreviation le := (fun a b : ref => key a <= key b).

Lemma compare_gt (a b : ref) : Qgtb (key a - key b) 0 = true <-> key b < key a.
Proof. rewrite Qgtb_gt. split; intros H; lra. Qed.

Lemma compare_le (a b : ref) : Qgtb (key a - key b) 0 = false <-> key a <= key b.
Proof. rewrite Qgtb_le. split; intros H; lra. Qed.

Lemma sort_insert_perm (a : ref) (arr : list ref) :
  sort_insert compare a arr ≡ₚ a :: arr.
Proof.
  induction arr as [| b rest IH]; simpl; [done |].
  destruct (Qgtb (key a - key b) 0); [| done].
  rewrite IH. apply Permutation_swap.
Qed.

Lemma sort_insert_sorted (a : ref) (arr : list ref) :
  StronglySorted le arr -> StronglySorted le (sort_insert compare a arr).
Proof.
  induction 1 as [| b rest Hsorted IH Hall]; simpl.
  - repeat constructor.
  - destruct (Qgtb (key a - key b) 0) eqn:E.
    + apply compare_gt in E. constructor; [exact IH |].
      apply Forall_forall. intros c Hc.
      rewrite sort_insert_perm in Hc.
      apply elem_of_cons in Hc as [-> | Hc].
      * lra.
      * rewrite Forall_forall in Hall. by apply Hall.
    + apply compare_le in E. constructor; [by constructor |].
      constructor; [exact E |].
      eapply Forall_impl; [exact Hall |].
      intros c Hc. simpl in Hc. lra.
Qed.

(** The insertion does not move the element past an element of its own
    key: the sprites of each key keep their order. *)
Lemma sort_insert_stable (v : Q) (a : ref) (arr : list ref) :
  List.filter (fun r => Qeq_bool (key r) v) (sort_insert compare a arr) =
  List.filter (fun r => Qeq_bool (key r) v) (a :: arr).
Proof.
  induction arr as [| b rest IH]; [done |].
  simpl sort_insert. destruct (Qgtb (key a - key b) 0) eqn:E; [| done].
  apply compare_gt in E.
  change (List.filter (fun r => Qeq_bool (key r) v) (b :: sort_insert compare a rest))
    with (if Qeq_bool (key b) v
          then b :: List.filter (fun r => Qeq_bool (key r) v) (sort_insert compare a rest)
          else List.filter (fun r => Qeq_bool (key r) v) (sort_insert compare a rest)).
  rewrite IH. simpl.
  destruct (Qeq_bool (key a) v) eqn:Ea; [| done].
  destruct (Qeq_bool (key b) v) eqn:Eb; [| done].
  apply Qeq_bool_iff in Ea, Eb. lra.
Qed.

Lemma Array_sort_perm (arr : list ref) : Array_sort compare arr ≡ₚ arr.
Proof.
  induction arr as [| a rest IH]; simpl; [done |].
  rewrite sort_insert_perm. by rewrite IH.
Qed.

Lemma Array_sort_sorted (arr : list ref) :
  StronglySorted le (Array_sort compare arr).
Proof.
  induction arr as [| a rest IH]; simpl; [constructor |].
  by apply sort_insert_sorted.
Qed.

Lemma Array_sort_stable (v : Q) (arr : list ref) :
  List.filter (fun r => Qeq_bool (key r) v) (Array_sort compare arr) =
  List.filter (fun r => Qeq_bool (key r) v) arr.
Proof.
  induction arr as [| a rest IH]; [done |].
  simpl Array_sort. rewrite sort_insert_stable. simpl. by rewrite IH.
Qed.

End Sorting.

Lemma pushIfAbsent_prefix (arr : list ref) (r : ref) :
  arr `prefix_of` pushIfAbsent arr r.
Proof.
  unfold pushIfAbsent. destruct (includes arr r); [done |].
  by apply prefix_app_r.
Qed.

Lemma pushIfAbsent_present (arr : list ref) (r : ref) :
  r ∈ arr -> pushIfAbsent arr r = arr.
Proof.
  intros Hr. unfold pushIfAbsent, includes. by rewrite bool_decide_eq_true_2.
Qed.

Lemma pushIfAbsent_NoDup (arr : list ref) (r : ref) :
  NoDup arr -> NoDup (pushIfAbsent arr r).
Proof.
  intros Hnd. unfold pushIfAbsent, includes. case_bool_decide as Hr; [done |].
  apply NoDup_app. split; [done |]. split.
  - intros x Hx Hx'. apply list_elem_of_singleton in Hx'. by subst.
  - apply NoDup_singleton.
Qed.

Lemma pushAll_prefix (a : SpriteArg) (arr : list ref) :
  arr `prefix_of` pushAll a arr.
Proof.
  destruct a as [r | l]; simpl; [apply pushIfAbsent_prefix |].
  revert arr. induction l as [| r l IH]; intros arr; simpl; [done |].
  etrans; [apply pushIfAbsent_prefix | apply IH].
Qed.

Lemma pushAll_present (a : SpriteArg) (arr : list ref) :
  (forall r, r ∈ refs_of a -> r ∈ arr) -> pushAll a arr = arr.
Proof.
  destruct a as [r | l]; simpl; intros Hall.
  - apply pushIfAbsent_present, Hall, list_elem_of_singleton. done.
  - induction l as [| r l IH]; simpl; [done |].
    rewrite pushIfAbsent_present by (apply Hall; left).
    apply IH. intros x Hx. apply Hall. by right.
Qed.

Lemma pushAll_NoDup (a : SpriteArg) (arr : list ref) :
  NoDup arr -> NoDup (pushAll a arr).
Proof.
  destruct a as [r | l]; simpl; [apply pushIfAbsent_NoDup |].
  revert arr. induction l as [| r l IH]; intros arr Hnd; simpl; [done |].
  by apply IH, pushIfAbsent_NoDup.
Qed.

Section Stable.

Variable key : ref -> Q.

Local Abbreviation compare := (fun a b : ref => key a - key b).
Local Abbreviation le := (fun a b : ref => key a <= key b).
Local Abbreviation at_key := (fun (v : Q) (r : ref) => Qeq_bool (key r) v).

Lemma at_key_elem (v : Q) (r : ref) (l : list ref) :
  In r (List.filter (at_key v) l) <-> In r l /\ key r == v.
Proof. rewrite filter_In. by rewrite Qeq_bool_iff. Qed.

(** A sorted sequence is determined by the subsequences of its keys: two
    stable sorts of one sequence, by whatever algorithm, agree. *)
Lemma sorted_stable_unique (l1 l2 : list ref) :
  StronglySorted le l1 -> StronglySorted le l2 ->
  (forall v, List.filter (at_key v) l1 = List.filter (at_key v) l2) ->
  l1 = l2.
Proof.
  intros H1. revert l2. induction H1 as [| a t1 Hs1 IH Ha]; intros l2 H2 Hf.
  - destruct l2 as [| b t2]; [done |].
    specialize (Hf (key b)). simpl in Hf.
    rewrite (proj2 (Qeq_bool_iff _ _) (Qeq_refl (key b))) in Hf. discriminate Hf.
  - destruct H2 as [| b t2 Hs2 Hb].
    { specialize (Hf (key a)). simpl in Hf.
      rewrite (proj2 (Qeq_bool_iff _ _) (Qeq_refl (key a))) in Hf.
      discriminate Hf. }
    assert (key a <= key b) as Hab.
    { assert (In b (a :: t1)) as Hin.
      { apply (at_key_elem (key b) b (a :: t1)). rewrite Hf.
        apply at_key_elem. split; [by left | reflexivity]. }
      destruct Hin as [-> | Hin]; [lra |].
      rewrite List.Forall_forall in Ha. by apply Ha. }
    assert (key b <= key a) as Hba.
    { assert (In a (b :: t2)) as Hin.
      { apply (at_key_elem (key a) a (b :: t2)). rewrite <- Hf.
        apply at_key_elem. split; [by left | reflexivity]. }
      destruct Hin as [-> | Hin]; [lra |].
      rewrite List.Forall_forall in Hb. by apply Hb. }
    assert (a = b) as ->.
    { pose proof (Hf (key a)) as Hfa. simpl in Hfa.
      rewrite (proj2 (Qeq_bool_iff _ _) (Qeq_refl (key a))) in Hfa.
      rewrite (proj2 (Qeq_bool_iff (key b) (key a))) in Hfa by lra.
      by inversion Hfa. }
    f_equal. apply IH; [done |].
    intros v. specialize (Hf v). simpl in Hf.
    destruct (Qeq_bool (key b) v); [by inversion Hf | done].
Qed.

Lemma filter_app_key (v : Q) (l1 l2 : list ref) :
  List.filter (at_key v) (l1 ++ l2) =
  List.filter (at_key v) l1 ++ List.filter (at_key v) l2.
Proof. apply List.filter_app. Qed.

(** Sorting, appending and sorting again is sorting the appended sequence. *)
Lemma Array_sort_app (l news : list ref) :
  Array_sort compare (Array_sort compare l ++ news) =
  Array_sort compare (l ++ news).
Proof.
  apply sorted_stable_unique; try apply (Array_sort_sorted key).
  intros v. rewrite !(Array_sort_stable key), !filter_app_key.
  by rewrite (Array_sort_stable key).
Qed.

End Stable.

(** What [pushAll] appends depends on the sequence through its members
    only. *)
Lemma pushIfAbsent_app (l1 l2 : list ref) (r : ref) :
  l1 ≡ₚ l2 ->
  exists news, pushIfAbsent l1 r = l1 ++ news /\ pushIfAbsent l2 r = l2 ++ news.
Proof.
  intros Hp. unfold pushIfAbsent, includes.
  destruct (decide (r ∈ l1)) as [Hin | Hnin].
  - exists []. rewrite !bool_decide_eq_true_2, !app_nil_r; try done.
    by rewrite <- Hp.
  - exists [r]. rewrite !bool_decide_eq_false_2; try done. by rewrite <- Hp.
Qed.

Lemma pushAll_app (a : SpriteArg) (l1 l2 : list ref) :
  l1 ≡ₚ l2 ->
  exists news, pushAll a l1 = l1 ++ news /\ pushAll a l2 = l2 ++ news.
Proof.
  destruct a as [r | rs]; simpl; [apply pushIfAbsent_app |].
  revert l1 l2. induction rs as [| r rs IH]; intros l1 l2 Hp; simpl.
  - exists []. by rewrite !app_nil_r.
  - destruct (pushIfAbsent_app l1 l2 r Hp) as (n1 & -> & ->).
    destruct (IH (l1 ++ n1) (l2 ++ n1)) as (n2 & -> & ->).
    { by rewrite Hp. }
    exists (n1 ++ n2). by rewrite !app_assoc.
Qed.

Lemma sortSprites_heap (w w' : World) (arr : list ref) :
  heap w' = heap w -> sortSprites w' arr = sortSprites w arr.
Proof.
  intros Hh. unfold sortSprites, getStageLevel, obj. by rewrite Hh.
Qed.

Lemma sortSprites_pushAll (w : World) (a : SpriteArg) (arr : list ref) :
  sortSprites w (pushAll a (sortSprites w arr)) = sortSprites w (pushAll a arr).
Proof.
  destruct (pushAll_app a (sortSprites w arr) arr) as (news & -> & ->).
  { apply (Array_sort_perm (getStageLevel w)). }
  apply (Array_sort_app (getStageLevel w)).
Qed.

Lemma addAll_heap (args : list SpriteArg) (w : World) :
  heap (addAll args w) = heap w.
Proof.
  revert w. induction args as [| a args IH]; intros w; [done |].
  unfold addAll in *. simpl. by rewrite (IH (addNewSprite a w)).
Qed.

(** From an empty registry, a series of calls leaves the stable sort of the
    references in the order of their first insertion. *)
Lemma addAll_firstInsertions (args : list SpriteArg) (w : World) :
  sprites w = [] ->
  sprites (addAll args w) = sortSprites w (firstInsertions args).
Proof.
  intros Hempty. induction args as [| a args IH] using rev_ind.
  - simpl. by rewrite Hempty.
  - unfold addAll, firstInsertions in *. rewrite !foldl_snoc. simpl.
    rewrite IH.
    rewrite (sortSprites_heap w _ _ (addAll_heap args w)).
    apply sortSprites_pushAll.
Qed.

(** [addNewSprite] keeps the registry within the allocated objects. *)
Lemma pushAll_elem (a : SpriteArg) (arr : list ref) (r : ref) :
  r ∈ pushAll a arr -> r ∈ arr \/ r ∈ refs_of a.
Proof.
  assert (forall l s, r ∈ pushIfAbsent l s -> r ∈ l \/ r = s) as Hone.
  { intros l s. unfold pushIfAbsent. destruct (includes l s); [by left |].
    rewrite elem_of_app, list_elem_of_singleton. tauto. }
  destruct a as [s | l]; simpl.
  - intros Hr. apply Hone in Hr as [Hr | ->]; [by left | right].
    by apply list_elem_of_singleton.
  - revert arr. induction l as [| s l IH]; intros arr Hr; simpl in Hr.
    + by left.
    + apply IH in Hr as [Hr | Hr]; [| right; by right].
      apply Hone in Hr as [Hr | ->]; [by left | right; by left].
Qed.

Lemma registry_allocated_addNewSprite (a : SpriteArg) (w : World) :
  registry_allocated w ->
  (forall r, r ∈ refs_of a -> (r < next w)%nat) ->
  registry_allocated (addNewSprite a w).
Proof.
  intros Hreg Hargs r Hr. simpl in *. unfold sortSprites in Hr.
  rewrite (Array_sort_perm (getStageLevel w)) in Hr.
  apply pushAll_elem in Hr as [Hr | Hr]; [by apply Hreg | by apply Hargs].
Qed.

(** C6, amended.  After [addNewSprite] the registry is in ascending order
    of stage level; the sprites of each stage level are in the order they
    had in the registry, followed by the new ones in the order of their
    insertion; the sprites that were registered stay ahead of the new ones
    before the sort and no reference is entered twice; an argument whose
    references are all registered leaves the registry with the same
    sprites, each once as before; from an empty registry, any series of
    calls leaves the stable sort of the sprites in the order of their first
    insertion.  Stage levels 3, 1, 2 inserted in that order are iterated as
    1, 2, 3. *)
Theorem addNewSprite_sorted (a : SpriteArg) (w : World) :
  ascending (addNewSprite a w) (sprites (addNewSprite a w)) /\
  (forall v,
      List.filter (at_level w v) (sprites (addNewSprite a w)) =
      List.filter (at_level w v) (pushAll a (sprites w))) /\
  sprites w `prefix_of` pushAll a (sprites w) /\
  sprites (addNewSprite a w) ≡ₚ pushAll a (sprites w) /\
  (NoDup (sprites w) -> NoDup (sprites (addNewSprite a w))) /\
  ((forall r, r ∈ refs_of a -> r ∈ sprites w) ->
   sprites (addNewSprite a w) ≡ₚ sprites w) /\
  (forall args,
      sprites w = [] ->
      sprites (addAll args w) = sortSprites w (firstInsertions args)) /\
  map (getStageLevel world_levels)
    (sprites (addNewSprite (One 2) (addNewSprite (One 1)
       (addNewSprite (One 0) world_levels)))) = [1; 2; 3] /\
  map (getStageLevel world_levels)
    (sprites (addNewSprite (Many [0; 1; 2]%nat) world_levels)) = [1; 2; 3].
Proof.
  split; [apply (Array_sort_sorted (getStageLevel w)) |].
  split; [intros v; apply (Array_sort_stable (getStageLevel w)) |].
  split; [apply pushAll_prefix |].
  split; [apply (Array_sort_perm (getStageLevel w)) |].
  split.
  { intros Hnd. simpl. unfold sortSprites.
    rewrite (Array_sort_perm (getStageLevel w)). by apply pushAll_NoDup. }
  split.
  { intros Hall. simpl. unfold sortSprites.
    rewrite (Array_sort_perm (getStageLevel w)). by rewrite pushAll_present. }
  split; [intros args; apply addAll_firstInsertions |].
  split; reflexivity.
Qed.

(** Adding the registered player of [world_mixed] again. *)
Lemma addNewSprite_sorted_witness :
  sprites (addNewSprite (One 2) world_mixed) ≡ₚ sprites world_mixed.
Proof.
  apply (addNewSprite_sorted (One 2) world_mixed).
  intros r Hr. apply list_elem_of_singleton in Hr. subst r.
  apply list_elem_of_In. simpl. tauto.
Defined.

(** C6 as stated fails once a stage level changes after the insertion:
    after [addNewSprite(A)], [addNewSprite(B)], [B.setStageLevel(2)] and
    [addNewSprite(C)], with stage levels 2, 1 and 3 at their insertion, A
    and B have the same stage level and B comes before A, which was
    inserted first. *)
Lemma addNewSprite_ties_counterexample :
  firstInsertions [One 0%nat; One 1%nat; One 2%nat] = [0; 1; 2]%nat /\
  map (getStageLevel world_releveled) [0; 1; 2]%nat = [2; 2; 3] /\
  sprites world_releveled = [1; 0; 2]%nat /\
  sprites world_releveled <>
    sortSprites world_releveled
      (firstInsertions [One 0%nat; One 1%nat; One 2%nat]).
Proof. repeat split. intros H. vm_compute in H. discriminate H. Qed.

(** ** Writes through a reference *)

Lemma upd_put (r : ref) (f : Obj -> Obj) (w : World) :
  upd r f w = put r (f (obj w r)) w.
Proof. reflexivity. Qed.

Lemma obj_put_eq (r : ref) (o : Obj) (w : World) : obj (put r o w) r = o.
Proof. unfold obj, put. simpl. apply lookup_total_insert_eq. Qed.

Lemma obj_put_ne (r r' : ref) (o : Obj) (w : World) :
  r <> r' -> obj (put r o w) r' = obj w r'.
Proof. intros Hne. unfold obj, put. simpl. by apply lookup_total_insert_ne. Qed.

Lemma put_put (r : ref) (o o' : Obj) (w : World) :
  put r o' (put r o w) = put r o' w.
Proof. unfold put, with_heap. simpl. by rewrite insert_insert_eq. Qed.

Lemma put_same (r : ref) (o : Obj) (w : World) :
  heap w !! r = Some o -> put r o w = w.
Proof.
  intros Hr. unfold put, with_heap. rewrite (insert_id _ _ _ Hr). by destruct w.
Qed.

Lemma obj_allocated (r : ref) (o : Obj) (w : World) :
  heap w !! r = Some o -> obj w r = o.
Proof. intros Hr. unfold obj. by apply lookup_total_correct. Qed.

(** ** Velocity *)

Lemma setVX_stored (this : ref) (v : Q) (w : World) :
  setVX this v w =
  put this (set_pl_vx (storedVelocity (getMaxVX w this) v) (obj w this)) w.
Proof.
  unfold setVX, getVX, getMaxVX, storedVelocity, above_max, below_min.
  rewrite !upd_put, !obj_put_eq, !put_put. simpl.
  destruct (pl_maxVX (obj w this)) as [m |]; simpl; [| reflexivity].
  destruct (Qgtb (round1 v) m); [reflexivity |].
  destruct (Qltb (round1 v) (- m)); reflexivity.
Qed.

Lemma setVY_stored (this : ref) (v : Q) (w : World) :
  setVY this v w =
  put this (set_pl_vy (storedVelocity (getMaxVY w this) v) (obj w this)) w.
Proof.
  unfold setVY, getVY, getMaxVY, storedVelocity, above_max, below_min.
  rewrite !upd_put, !obj_put_eq, !put_put. simpl.
  destruct (pl_maxVY (obj w this)) as [m |]; simpl; [| reflexivity].
  destruct (Qgtb (round1 v) m); [reflexivity |].
  destruct (Qltb (round1 v) (- m)); reflexivity.
Qed.

Lemma storedVelocity_zero (max : option Q) :
  limit_ok max -> storedVelocity max 0 = 0.
Proof.
  unfold storedVelocity, limit_ok. destruct max as [m |]; [| done].
  intros Hm. change (round1 0) with 0.
  rewrite (proj2 (Qgtb_le 0 m)) by lra.
  rewrite (proj2 (Qltb_ge 0 (- m))) by lra. done.
Qed.

Lemma getVX_put (r : ref) (o : Obj) (w : World) : getVX (put r o w) r = pl_vx o.
Proof. unfold getVX. by rewrite obj_put_eq. Qed.

Lemma getVY_put (r : ref) (o : Obj) (w : World) : getVY (put r o w) r = pl_vy o.
Proof. unfold getVY. by rewrite obj_put_eq. Qed.

Lemma getMaxVY_put (r : ref) (o : Obj) (w : World) :
  getMaxVY (put r o w) r = pl_maxVY o.
Proof. unfold getMaxVY. by rewrite obj_put_eq. Qed.

(** The step back of a probe undoes the step forth. *)
Lemma Qplus_minus_one (q : Q) : q + 1 - 1 = q.
Proof.
  destruct q as [n d]. unfold Qminus, Qplus, Qopp. simpl.
  f_equal; [| by rewrite !Pos.mul_1_r].
  rewrite !Pos.mul_1_r. lia.
Qed.

(** ** Probes and jumps *)

Lemma differs_true (a b : ref) : differs a b = true <-> a <> b.
Proof. unfold differs. rewrite negb_true_iff. apply Nat.eqb_neq. Qed.

Lemma set_sp_y_same (o : Obj) : set_sp_y (sp_y o) o = o.
Proof. by destruct o. Qed.

(** ** Gravity *)

Lemma touching_put (this p : ref) (o : Obj) (w : World) :
  this <> p ->
  touching (put this o w) this p = overlaps o (sp_y o) (obj w p).
Proof.
  intros Hne. unfold touching, overlaps, getX, getY, getWidth, getHeight.
  by rewrite !obj_put_eq, !obj_put_ne.
Qed.

Lemma overlaps_place (st : Falling) (me : Obj) (y : Q) (p : Obj) :
  overlaps (place st me) y p = overlaps me y p.
Proof. reflexivity. Qed.

(** One turn of the [forEach] on a candidate other than the platformer. *)
Lemma doGravity_each_other (this p : ref) (st : Falling) (me : Obj) (w : World) :
  this <> p ->
  doGravity_each this (put this (place st me) w) p =
  put this
    (place (gravity_contact (storedVelocity (pl_maxVY me)) me st (obj w p)) me) w.
Proof.
  intros Hne. unfold doGravity_each, gravity_contact.
  rewrite touching_put by done. rewrite (proj2 (differs_true this p) Hne).
  rewrite overlaps_place, andb_true_r. simpl sp_y.
  destruct (overlaps me (f_y st) (obj w p)); [| by destruct st].
  rewrite obj_put_eq. simpl pl_vy.
  unfold setY, getY, getHeight.
  destruct (Qltb (f_vy st) 0).
  - rewrite upd_put, !(obj_put_ne this p), obj_put_eq, put_put by done.
    rewrite touching_put by done. simpl sp_y.
    change (overlaps (set_sp_y ?y (place st me))) with (overlaps me).
    destruct (overlaps me _ (obj w p)).
    + rewrite upd_put, obj_put_eq, put_put, setVY_stored, getMaxVY_put,
        obj_put_eq, put_put. reflexivity.
    + rewrite setVY_stored, getMaxVY_put, obj_put_eq, put_put. reflexivity.
  - rewrite !upd_put, !(obj_put_ne this p), !obj_put_eq, !put_put by done.
    rewrite touching_put by done. simpl sp_y. simpl sp_height.
    change (overlaps (set_pl_hasPlatformerBelow true (set_sp_y ?y (place st me))))
      with (overlaps me).
    destruct (overlaps me _ (obj w p)).
    + rewrite ?upd_put, ?obj_put_eq, ?put_put, setVY_stored, getMaxVY_put,
        obj_put_eq, put_put. reflexivity.
    + rewrite setVY_stored, getMaxVY_put, obj_put_eq, put_put. reflexivity.
Qed.

(** The turn on the platformer itself does nothing. *)
Lemma doGravity_each_self (this : ref) (w : World) :
  doGravity_each this w this = w.
Proof.
  unfold doGravity_each, differs. rewrite Nat.eqb_refl. simpl.
  by rewrite andb_false_r.
Qed.

Lemma doGravity_forEach (this : ref) (me : Obj) (w : World)
    (candidates : list ref) (st : Falling) :
  foldl (doGravity_each this) (put this (place st me) w) candidates =
  put this
    (place
       (foldl (gravity_contact (storedVelocity (pl_maxVY me)) me) st
          (map (obj w) (List.filter (differs this) candidates)))
       me) w.
Proof.
  revert st. induction candidates as [| p rest IH]; intros st; [done |].
  simpl. destruct (differs this p) eqn:E.
  - apply differs_true in E. rewrite doGravity_each_other by done. apply IH.
  - apply not_true_iff_false in E. rewrite differs_true in E.
    apply dec_stable in E. subst p.
    rewrite doGravity_each_self. apply IH.
Qed.

(** ** The engine loop *)

Lemma no_step_time (acc m : Q) : acc == acc - inject_Z (Z.of_nat 0) * m.
Proof. unfold inject_Z. simpl. ring. Qed.

Lemma one_step_time (acc m : Q) (n : nat) :
  acc - m - inject_Z (Z.of_nat n) * m == acc - inject_Z (Z.of_nat (S n)) * m.
Proof.
  rewrite Nat2Z.inj_succ, <- Z.add_1_r, inject_Z_plus.
  change (inject_Z 1) with 1. ring.
Qed.

Section Loop.

Variable sprite_update : ref -> World -> World.
Variable settings_update settings_init : World -> World.
Variable whileMouseDown : Q * Q -> World -> World.
Variable drawFunction : World -> World.

(** The calls of [updateSprites] are the sprite updates, in the order of
    the registry. *)
Lemma updateSprites_calls (w : World) :
  fst (updateSprites sprite_update w) = map CallSpriteUpdate (getSprites w).
Proof.
  unfold updateSprites.
  assert (forall l calls w',
             fst (foldl (fun '(calls, w) sprite =>
                           (calls ++ [CallSpriteUpdate sprite],
                            sprite_update sprite w))
                    (calls, w') l) = calls ++ map CallSpriteUpdate l) as H.
  { induction l as [| s l IH]; intros calls w'; simpl.
    - by rewrite app_nil_r.
    - rewrite IH. by rewrite <- app_assoc. }
  apply (H _ [] w).
Qed.

(** A simulation step calls the update of every sprite, then repositions
    the camera if it follows a sprite, then runs the held-mouse handler if
    the mouse is down, then the update of the game; it never updates a
    particle. *)
Lemma Engine_update_order (w : World) :
  exists follow mouse,
    fst (Engine_update sprite_update settings_update whileMouseDown w) =
      map CallSpriteUpdate (getSprites w) ++ follow ++ mouse ++ [CallHostUpdate] /\
    (follow = [] \/ follow = [CameraFollow]) /\
    (mouse = [] \/ mouse = [CallWhileMouseDown]).
Proof.
  unfold Engine_update.
  pose proof (updateSprites_calls w) as Hs.
  destruct (updateSprites sprite_update w) as [c1 w1]. simpl in Hs. subst c1.
  destruct (followSprite w1) as [c2 w2] eqn:E2.
  destruct (mouseHeld whileMouseDown w2) as [c3 w3] eqn:E3.
  exists c2, c3. split; [done |]. split.
  - unfold followSprite in E2. destruct (toFollow (camera w1));
      inversion E2; auto.
  - unfold mouseHeld in E3.
    destruct (isMouseDown (events w2)), (mouseEvent (events w2));
      inversion E3; auto.
Qed.

Lemma Engine_update_no_particle (w : World) (c : Call) :
  c ∈ fst (Engine_update sprite_update settings_update whileMouseDown w) ->
  isParticleUpdate c = false.
Proof.
  destruct (Engine_update_order w) as (follow & mouse & -> & Hf & Hm).
  rewrite !elem_of_app, list_elem_of_fmap.
  intros [(s & -> & _) | [Hc | [Hc | Hc]]]; [done | | |].
  - destruct Hf as [-> | ->]; [by apply elem_of_nil in Hc |].
    apply list_elem_of_singleton in Hc. by subst.
  - destruct Hm as [-> | ->]; [by apply elem_of_nil in Hc |].
    apply list_elem_of_singleton in Hc. by subst.
  - apply list_elem_of_singleton in Hc. by subst.
Qed.

(** *** The catch-up loop, for any step function *)

Variable step : World -> list Call * World.

(** What the loop leaves: it ran at most [maxUpdatesPerFrame - updates]
    steps, each step is a call of [step] and took [minFrameTime] off the
    accumulated time and added one tick, and the loop stopped on its own
    condition when the fuel covered the remaining updates. *)
Lemma catchUp_spec (fuel updates : nat) (e : Engine) (w : World) :
  let '(ss, e', w') := catchUp step fuel updates e w in
  (length ss <= fuel)%nat /\
  (length ss <= maxUpdatesPerFrame e - updates)%nat /\
  accumulatedTime e' ==
    accumulatedTime e - inject_Z (Z.of_nat (length ss)) * minFrameTime e /\
  tpsCounter e' = (tpsCounter e + length ss)%nat /\
  minFrameTime e' = minFrameTime e /\
  maxUpdatesPerFrame e' = maxUpdatesPerFrame e /\
  enableFrameSkipping e' = enableFrameSkipping e /\
  framesToSkip e' = framesToSkip e /\
  ((maxUpdatesPerFrame e - updates <= fuel)%nat ->
   accumulatedTime e' < minFrameTime e \/
   (maxUpdatesPerFrame e <= updates + length ss)%nat).
Proof.
  revert updates e w. induction fuel as [| fuel IH]; intros updates e w.
  - simpl. split; [lia |]. split; [lia |]. split; [apply no_step_time |].
    split; [lia |]. do 4 (split; [done |]). intros Hf. right. lia.
  - simpl.
    destruct (Qgeb (accumulatedTime e) (minFrameTime e)) eqn:Eacc; simpl.
    2:{ split; [lia |]. split; [lia |]. split; [apply no_step_time |].
        split; [lia |]. do 4 (split; [done |]). intros _. left.
        unfold Qgeb in Eacc.
        apply not_true_iff_false in Eacc. rewrite Qle_bool_iff in Eacc.
        by apply Qnot_le_lt. }
    destruct (updates <? maxUpdatesPerFrame e)%nat eqn:Eupd; simpl.
    2:{ apply Nat.ltb_ge in Eupd.
        split; [lia |]. split; [lia |]. split; [apply no_step_time |].
        split; [lia |]. do 4 (split; [done |]). intros _. right. lia. }
    apply Nat.ltb_lt in Eupd.
    destruct (step w) as [calls w1].
    set (e1 := with_accumulatedTime _ _).
    specialize (IH (S updates) e1 w1).
    destruct (catchUp step fuel (S updates) e1 w1) as [[ss e2] w2].
    destruct IH as (H1 & H2 & H3 & H4 & H5 & H6 & H7 & H8 & H9).
    simpl in *.
    split; [lia |]. split; [lia |]. split.
    { rewrite H3. apply one_step_time. }
    split; [lia |]. do 4 (split; [done |]).
    intros Hf. destruct H9 as [H9 | H9]; [lia | by left | right; lia].
Qed.

(** Every step of the loop is a call of [step]. *)
Lemma catchUp_steps (fuel updates : nat) (e : Engine) (w : World)
    (calls : list Call) :
  calls ∈ fst (fst (catchUp step fuel updates e w)) ->
  exists w', calls = fst (step w').
Proof.
  revert updates e w. induction fuel as [| fuel IH]; intros updates e w; simpl.
  - intros H. by apply elem_of_nil in H.
  - destruct (Qgeb _ _ && _); simpl; [| intros H; by apply elem_of_nil in H].
    destruct (step w) as [c w1] eqn:Es.
    set (e1 := with_accumulatedTime _ _).
    specialize (IH (S updates) e1 w1).
    destruct (catchUp step fuel (S updates) e1 w1) as [[ss e2] w2].
    simpl in *. intros H. apply elem_of_cons in H as [-> | H].
    + exists w. by rewrite Es.
    + by apply IH.
Qed.

(** The two [if]s after the loop: above [minFrameTime * framesToSkip]
    with frame skipping on, the accumulated time is dropped to 0;
    otherwise it ends at or below [5 * minFrameTime]. *)
Lemma frameSkip_spec (e : Engine) :
  (enableFrameSkipping e = true /\
   accumulatedTime e > minFrameTime e * framesToSkip e ->
   accumulatedTime (frameSkip e) = 0) /\
  (~ (enableFrameSkipping e = true /\
      accumulatedTime e > minFrameTime e * framesToSkip e) ->
   accumulatedTime (frameSkip e) <= minFrameTime e * 5 /\
   accumulatedTime (frameSkip e) <= accumulatedTime e).
Proof.
  unfold frameSkip. split.
  - intros [-> Hgt]. by rewrite (proj2 (Qgtb_gt _ _) Hgt).
  - intros Hnot.
    destruct (enableFrameSkipping e &&
              Qgtb (accumulatedTime e) (minFrameTime e * framesToSkip e)) eqn:E.
    { apply andb_true_iff in E as [E1 E2]. apply Qgtb_gt in E2. tauto. }
    destruct (Qgtb (accumulatedTime e) (minFrameTime e * 5)) eqn:E5.
    + apply Qgtb_gt in E5. simpl. split; lra.
    + apply Qgtb_le in E5. split; [done | lra].
Qed.

(** A frame that reaches the loop: at most [maxUpdatesPerFrame] steps,
    [minFrameTime] taken per step from the time to spend, the loop left on
    its own condition, the frame-skip policy applied to what is left, and
    one draw. *)
Lemma startLoop_with_frame (currentTime : Q) (numberOfAssetsToLoad : nat)
    (e : Engine) (w : World) :
  running numberOfAssetsToLoad e ->
  let f := startLoop_with settings_init drawFunction step currentTime
             numberOfAssetsToLoad e w in
  let n := length (steps f) in
  let left := timeToSpend currentTime e - inject_Z (Z.of_nat n) * minFrameTime e in
  (n <= maxUpdatesPerFrame e)%nat /\
  (left < minFrameTime e \/ n = maxUpdatesPerFrame e) /\
  (enableFrameSkipping e = true /\ left > minFrameTime e * framesToSkip e ->
   accumulatedTime (engine f) = 0) /\
  (~ (enableFrameSkipping e = true /\ left > minFrameTime e * framesToSkip e) ->
   accumulatedTime (engine f) <= 5 * minFrameTime e) /\
  tpsCounter (engine f) = (tpsCounter e + n)%nat /\
  after f = [CallDraw; RequestAnimationFrame].
Proof.
  intros [Hstop Hload]. unfold startLoop_with. rewrite Hstop.
  set (e0 := if (numberOfAssetsToLoad =? 0)%nat then _ else e).
  assert (hasLoadedAssets e0 = false) as ->.
  { unfold e0. destruct Hload as [-> | Hl]; [done |].
    by destruct (numberOfAssetsToLoad =? 0)%nat. }
  set (init := if negb (hasInited e0) then _ else _).
  destruct init as [[c0 e1] w1] eqn:Einit.
  assert (accumulatedTime e1 = accumulatedTime e /\
          lastUpdateTime e1 = lastUpdateTime e /\
          minFrameTime e1 = minFrameTime e /\
          maxUpdatesPerFrame e1 = maxUpdatesPerFrame e /\
          enableFrameSkipping e1 = enableFrameSkipping e /\
          framesToSkip e1 = framesToSkip e /\
          tpsCounter e1 = tpsCounter e) as (Ha & Hl & Hm & Hx & Hs & Hk & Ht).
  { unfold init, e0 in Einit.
    destruct (numberOfAssetsToLoad =? 0)%nat; simpl in Einit;
      destruct (hasInited e); simpl in Einit; inversion Einit; subst;
      simpl; tauto. }
  set (e2 := with_accumulatedTime _ _).
  pose proof (catchUp_spec (maxUpdatesPerFrame e2) 0 e2 w1) as Hloop.
  destruct (catchUp step (maxUpdatesPerFrame e2) 0 e2 w1) as [[ss e3] w3].
  destruct Hloop as (H1 & H2 & H3 & H4 & H5 & H6 & H7 & H8 & H9).
  simpl in *. rewrite Ha, Hl, Hm in *. rewrite Hx in *.
  fold (timeToSpend currentTime e) in H3.
  pose proof (frameSkip_spec e3) as [Hdrop Hcap].
  rewrite H5, H7, H8, Hs, Hk in *.
  split; [lia |]. split.
  { destruct H9 as [H9 | H9]; [lia | left; lra | right; lia]. }
  split.
  { intros [He Hgt]. apply Hdrop. split; [done | lra]. }
  split.
  { intros Hnot. destruct Hcap as [Hcap _]; [| lra].
    intros [He Hgt]. apply Hnot. split; [done | lra]. }
  split; [| done].
  unfold frameSkip.
  destruct (_ && _); [simpl; lia |]. destruct (Qgtb _ _); simpl; lia.
Qed.

(** A frame that does not reach the loop runs no step and leaves the
    accumulated time alone. *)
Lemma startLoop_with_idle (currentTime : Q) (numberOfAssetsToLoad : nat)
    (e : Engine) (w : World) :
  ~ running numberOfAssetsToLoad e ->
  let f := startLoop_with settings_init drawFunction step currentTime
             numberOfAssetsToLoad e w in
  steps f = [] /\ accumulatedTime (engine f) = accumulatedTime e /\
  world f = w.
Proof.
  intros Hnot. unfold startLoop_with, running in *.
  destruct (stopVal e); [done |].
  destruct numberOfAssetsToLoad as [| k]; simpl; [tauto |].
  destruct (hasLoadedAssets e); [done | tauto].
Qed.

Lemma startLoop_with_steps (currentTime : Q) (numberOfAssetsToLoad : nat)
    (e : Engine) (w : World) (calls : list Call) :
  calls ∈ steps (startLoop_with settings_init drawFunction step currentTime
                   numberOfAssetsToLoad e w) ->
  exists w', calls = fst (step w').
Proof.
  unfold startLoop_with.
  destruct (stopVal e); [intros H; by apply elem_of_nil in H |].
  set (e0 := if (numberOfAssetsToLoad =? 0)%nat then _ else e).
  destruct (hasLoadedAssets e0); [intros H; by apply elem_of_nil in H |].
  set (init := if negb (hasInited e0) then _ else _).
  destruct init as [[c0 e1] w1].
  set (e2 := with_accumulatedTime _ _).
  pose proof (catchUp_steps (maxUpdatesPerFrame e2) 0 e2 w1 calls) as Hsteps.
  destruct (catchUp step (maxUpdatesPerFrame e2) 0 e2 w1) as [[ss e3] w3].
  exact Hsteps.
Qed.

(** The step of the later revision starts with the update of every
    particle, in the order of the registry. *)
Lemma updateParticles_calls (w : World) :
  fst (updateParticles w) = map CallParticleUpdate (particles w).
Proof.
  unfold updateParticles.
  assert (forall l calls w',
             fst (foldl (fun '(calls, w) particle =>
                           (calls ++ [CallParticleUpdate particle],
                            updateParticle particle w))
                    (calls, w') l) = calls ++ map CallParticleUpdate l) as H.
  { induction l as [| s l IH]; intros calls w'; simpl.
    - by rewrite app_nil_r.
    - rewrite IH. by rewrite <- app_assoc. }
  apply (H _ [] w).
Qed.

Lemma Engine_update_later_order (w : World) :
  exists rest,
    fst (Engine_update_later sprite_update settings_update whileMouseDown w) =
      map CallParticleUpdate (particles w) ++ rest /\
    forall c, c ∈ rest -> isParticleUpdate c = false.
Proof.
  unfold Engine_update_later.
  pose proof (updateParticles_calls w) as Hp.
  destruct (updateParticles w) as [c0 w0]. simpl in Hp. subst c0.
  pose proof (Engine_update_no_particle w0) as Hrest.
  destruct (Engine_update sprite_update settings_update whileMouseDown w0)
    as [c1 w1].
  exists c1. split; [done | exact Hrest].
Qed.

End Loop.

(** C3.  In [src/Neutron/Neutron.ts] no simulation step updates a particle:
    the closure [init] installs goes from the sprites to the camera, the
    held mouse and the update of the game.  A frame with one step over a
    world with one sprite and one moving particle calls the update of the
    sprite and of the game and leaves the particle where it was; the same
    frame with the closure of [src/neutron.ts] starts the step with the
    update of the particle. *)
Theorem startLoop_skips_particles :
  (forall sprite_update settings_update settings_init whileMouseDown
          drawFunction currentTime numberOfAssetsToLoad e w calls c,
      calls ∈ steps (startLoop sprite_update settings_update settings_init
                       whileMouseDown drawFunction currentTime
                       numberOfAssetsToLoad e w) ->
      c ∈ calls -> isParticleUpdate c = false) /\
  steps (startLoop idle_sprite idle idle idle_mouse idle 25 0
           (new_Engine 0 50) world_particle) =
    [[CallSpriteUpdate 0; CallHostUpdate]] /\
  pheap (world (startLoop idle_sprite idle idle idle_mouse idle 25 0
                  (new_Engine 0 50) world_particle)) !!! 0%nat =
    pheap world_particle !!! 0%nat /\
  steps (startLoop_later idle_sprite idle idle idle_mouse idle 25 0
           (new_Engine 0 50) world_particle) =
    [[CallParticleUpdate 0; CallSpriteUpdate 0; CallHostUpdate]].
Proof.
  split; [| repeat split].
  intros su hu hi wm df now n e w calls c Hcalls Hc.
  apply startLoop_with_steps in Hcalls as [w' ->].
  by apply Engine_update_no_particle in Hc.
Qed.

(** One step is due at time 25 with 20 a step, and it updates no particle. *)
Lemma startLoop_skips_particles_witness :
  Forall (Forall (fun c => isParticleUpdate c = false))
    (steps (startLoop idle_sprite idle idle idle_mouse idle 25 0
              (new_Engine 0 50) world_particle)).
Proof.
  apply Forall_forall. intros calls Hcalls.
  apply Forall_forall. intros c Hc.
  exact (proj1 startLoop_skips_particles idle_sprite idle idle idle_mouse idle
           25 0%nat (new_Engine 0 50) world_particle calls c Hcalls Hc).
Defined.

(** * More properties *)

(** ** Moves *)

Lemma upd_refreshCandidates (this : ref) (f : Obj -> Obj) (w : World) :
  upd this f (refreshCandidates this w) = put this (f (refreshed w this)) w.
Proof.
  unfold refreshCandidates, refreshed, gravity_candidates.
  destruct (pl_checkAllPlatformers (obj w this)) eqn:E.
  - by rewrite !upd_put, obj_put_eq, put_put.
  - rewrite upd_put. do 2 f_equal. by destruct (obj w this).
Qed.

Lemma touching_put_at (this p : ref) (o : Obj) (w : World) :
  this <> p ->
  touching (put this o w) this p = overlapsAt o (sp_x o) (sp_y o) (obj w p).
Proof.
  intros Hne. unfold touching, overlapsAt, getX, getY, getWidth, getHeight.
  by rewrite !obj_put_eq, !(obj_put_ne this p).
Qed.

Lemma setX_refresh (this : ref) (v : Q) (w : World) :
  setX this v (refreshCandidates this w) =
  put this (set_sp_x v (refreshed w this)) w.
Proof. apply upd_refreshCandidates. Qed.

Lemma setY_refresh (this : ref) (v : Q) (w : World) :
  setY this v (refreshCandidates this w) =
  put this (set_sp_y v (refreshed w this)) w.
Proof. apply upd_refreshCandidates. Qed.

(** The candidates [moveX] and [moveY] correct against, for a platformer
    [o] stored in place of the original one. *)
Lemma hit_filter (this : ref) (o : Obj) (w : World) (l : list ref) :
  sp_width o = sp_width (obj w this) ->
  sp_height o = sp_height (obj w this) ->
  List.filter (fun p => touching (put this o w) this p && differs this p) l =
  List.filter
    (fun p => overlapsAt (obj w this) (sp_x o) (sp_y o) (obj w p) &&
              differs this p) l.
Proof.
  intros Hw Hh. apply List.filter_ext. intros p.
  destruct (differs this p) eqn:E; [| by rewrite !andb_false_r].
  apply differs_true in E. rewrite touching_put_at by done.
  unfold overlapsAt. by rewrite Hw, Hh.
Qed.

Lemma hitAt_other (w : World) (this : ref) (x y : Q) (p : ref) :
  p ∈ hitAt w this x y ->
  this <> p /\ p ∈ gravity_candidates w this /\
  overlapsAt (obj w this) x y (obj w p) = true.
Proof.
  unfold hitAt. rewrite list_elem_of_In, filter_In, <- list_elem_of_In,
    andb_true_iff, differs_true. tauto.
Qed.

(** The corrections one after the other: the last one stands. *)
Lemma correct_last (this : ref) (w : World) (set : Q -> Obj -> Obj)
    (target : ref -> Q) (step : World -> ref -> World) (keeps : Obj -> Prop)
    (hit : list ref) (o : Obj) :
  (forall a b o', set a (set b o') = set a o') ->
  (forall a o', keeps o' -> keeps (set a o')) ->
  (forall o' p, p ∈ hit -> keeps o' ->
     step (put this o' w) p = put this (set (target p) o') w) ->
  keeps o ->
  foldl step (put this o w) hit =
  put this (match last hit with Some p => set (target p) o | None => o end) w.
Proof.
  intros Hset Hkeeps Hstep. revert o.
  induction hit as [| p rest IH]; intros o Ho; [done |].
  simpl foldl. rewrite Hstep by (done || left).
  rewrite IH; [| intros o' q Hq; apply Hstep; by right | by apply Hkeeps].
  rewrite last_cons. destruct (last rest); [by rewrite Hset | done].
Qed.

(** What [moveX] leaves. *)
Lemma moveX_put (this : ref) (dx : Q) (w : World) :
  moveX this dx w =
  put this (set_sp_x (moveX_x w this dx) (refreshed w this)) w.
Proof.
  unfold moveX, moveX_x.
  assert (getX (refreshCandidates this w) this = getX w this) as ->.
  { unfold getX, refreshCandidates.
    destruct (pl_checkAllPlatformers (obj w this)); [| done].
    by rewrite obj_upd_eq. }
  rewrite !setX_refresh.
  unfold getPlatformersToCheckCollision. rewrite obj_put_eq.
  change (pl_platformersToCheckCollision (set_sp_x _ (refreshed w this)))
    with (gravity_candidates w this).
  rewrite hit_filter by done.
  change (sp_x (set_sp_x (getX w this + dx) (refreshed w this)))
    with (getX w this + dx).
  change (sp_y (set_sp_x (getX w this + dx) (refreshed w this)))
    with (getY w this).
  fold (hitAt w this (getX w this + dx) (getY w this)).
  rewrite (correct_last this w set_sp_x
             (fun p => if Qgtb dx 0 then getX w p - getWidth w this
                       else getX w p + getWidth w p)
             _ (fun o => sp_width o = sp_width (obj w this))).
  - destruct (last _); reflexivity.
  - reflexivity.
  - intros a o' Ho'. exact Ho'.
  - intros o' p Hp Ho'. apply hitAt_other in Hp as (Hne & _ & _).
    unfold setX, getX, getWidth.
    destruct (Qgtb dx 0);
      rewrite upd_put, (obj_put_ne this p), ?obj_put_eq, put_put by done.
    + by rewrite Ho'.
    + reflexivity.
  - reflexivity.
Qed.

(** What [moveY] leaves. *)
Lemma moveY_put (this : ref) (dy : Q) (w : World) :
  moveY this dy w =
  put this (set_sp_y (moveY_y w this dy) (refreshed w this)) w.
Proof.
  unfold moveY, moveY_y.
  assert (getY (refreshCandidates this w) this = getY w this) as ->.
  { unfold getY, refreshCandidates.
    destruct (pl_checkAllPlatformers (obj w this)); [| done].
    by rewrite obj_upd_eq. }
  rewrite !setY_refresh.
  unfold getPlatformersToCheckCollision. rewrite obj_put_eq.
  change (pl_platformersToCheckCollision (set_sp_y _ (refreshed w this)))
    with (gravity_candidates w this).
  rewrite hit_filter by done.
  change (sp_x (set_sp_y (getY w this + dy) (refreshed w this)))
    with (getX w this).
  change (sp_y (set_sp_y (getY w this + dy) (refreshed w this)))
    with (getY w this + dy).
  fold (hitAt w this (getX w this) (getY w this + dy)).
  rewrite (correct_last this w set_sp_y
             (fun p => if Qgtb dy 0 then getY w p - getHeight w this
                       else getY w p + getHeight w p)
             _ (fun o => sp_height o = sp_height (obj w this))).
  - destruct (last _); reflexivity.
  - reflexivity.
  - intros a o' Ho'. exact Ho'.
  - intros o' p Hp Ho'. apply hitAt_other in Hp as (Hne & _ & _).
    unfold setY, getY, getHeight.
    destruct (Qgtb dy 0);
      rewrite upd_put, (obj_put_ne this p), ?obj_put_eq, put_put by done.
    + by rewrite Ho'.
    + reflexivity.
  - reflexivity.
Qed.

(** ** Probes *)

Lemma Qminus_plus_one (q : Q) : q - 1 + 1 = q.
Proof.
  destruct q as [n d]. unfold Qminus, Qplus, Qopp. simpl.
  f_equal; [| by rewrite !Pos.mul_1_r].
  rewrite !Pos.mul_1_r. lia.
Qed.

Lemma set_sp_x_same (o : Obj) : set_sp_x (sp_x o) o = o.
Proof. by destruct o. Qed.

(** What a probe finds once the sprite stands at the probing position. *)
Lemma found_filter (me : ref) (o : Obj) (w : World) :
  sp_width o = sp_width (obj w me) ->
  sp_height o = sp_height (obj w me) ->
  List.filter (fun sprite => touching (put me o w) me sprite && differs me sprite)
    (getSprites (put me o w)) =
  foundAt w me (sp_x o) (sp_y o).
Proof. intros Hw Hh. by apply hit_filter. Qed.

(** A probe along [x]: the step forth by [d], the search, the step back. *)
Lemma probe_x (me : ref) (o : Obj) (w : World) (d back : Q) :
  heap w !! me = Some o ->
  sp_x o + d + back = sp_x o ->
  (let w1 := setX me (getX w me + d) w in
   let touchingSprites :=
     List.filter (fun sprite => touching w1 me sprite && differs me sprite)
       (getSprites w1) in
   (touchingSprites, setX me (getX w1 me + back) w1)) =
  (foundAt w me (sp_x o + d) (sp_y o), w).
Proof.
  intros Hme Hback. pose proof (obj_allocated _ _ _ Hme) as Ho.
  cbv zeta. unfold setX, getX. rewrite !upd_put, obj_put_eq, put_put, Ho.
  rewrite found_filter by (by rewrite Ho). f_equal.
  change (sp_x (set_sp_x (sp_x o + d) o) + back) with (sp_x o + d + back).
  rewrite Hback.
  change (set_sp_x (sp_x o) (set_sp_x (sp_x o + d) o))
    with (set_sp_x (sp_x o) o).
  rewrite set_sp_x_same. by apply put_same.
Qed.

Lemma probe_y (me : ref) (o : Obj) (w : World) (d back : Q) :
  heap w !! me = Some o ->
  sp_y o + d + back = sp_y o ->
  (let w1 := setY me (getY w me + d) w in
   let touchingSprites :=
     List.filter (fun sprite => touching w1 me sprite && differs me sprite)
       (getSprites w1) in
   (touchingSprites, setY me (getY w1 me + back) w1)) =
  (foundAt w me (sp_x o) (sp_y o + d), w).
Proof.
  intros Hme Hback. pose proof (obj_allocated _ _ _ Hme) as Ho.
  cbv zeta. unfold setY, getY. rewrite !upd_put, obj_put_eq, put_put, Ho.
  rewrite found_filter by (by rewrite Ho). f_equal.
  change (sp_y (set_sp_y (sp_y o + d) o) + back) with (sp_y o + d + back).
  rewrite Hback.
  change (set_sp_y (sp_y o) (set_sp_y (sp_y o + d) o))
    with (set_sp_y (sp_y o) o).
  rewrite set_sp_y_same. by apply put_same.
Qed.

Lemma getSpriteLeftSelf_found (me : ref) (o : Obj) (w : World) :
  heap w !! me = Some o ->
  getSpriteLeftSelf me w = (foundAt w me (sp_x o - 1) (sp_y o), w).
Proof.
  intros Hme. apply (probe_x me o w (- (1)) 1 Hme). apply Qminus_plus_one.
Qed.

Lemma getSpriteRightSelf_found (me : ref) (o : Obj) (w : World) :
  heap w !! me = Some o ->
  getSpriteRightSelf me w = (foundAt w me (sp_x o + 1) (sp_y o), w).
Proof.
  intros Hme. apply (probe_x me o w 1 (- (1)) Hme). apply Qplus_minus_one.
Qed.

Lemma getSpriteAboveSelf_found (me : ref) (o : Obj) (w : World) :
  heap w !! me = Some o ->
  getSpriteAboveSelf me w = (foundAt w me (sp_x o) (sp_y o - 1), w).
Proof.
  intros Hme. apply (probe_y me o w (- (1)) 1 Hme). apply Qminus_plus_one.
Qed.

Lemma getSpriteBelowSelf_found (me : ref) (o : Obj) (w : World) :
  heap w !! me = Some o ->
  getSpriteBelowSelf me w = (foundAt w me (sp_x o) (sp_y o + 1), w).
Proof.
  intros Hme. apply (probe_y me o w 1 (- (1)) Hme). apply Qplus_minus_one.
Qed.

(** ** A move, then a probe *)

Lemma heap_put (r : ref) (o : Obj) (w : World) : heap (put r o w) !! r = Some o.
Proof. unfold put. simpl. apply lookup_insert_eq. Qed.

Lemma elem_of_foundAt (w : World) (me : ref) (x y : Q) (s : ref) :
  s ∈ foundAt w me x y <->
  s ∈ sprites w /\ me <> s /\ overlapsAt (obj w me) x y (obj w s) = true.
Proof.
  unfold foundAt. rewrite list_elem_of_In, filter_In, <- list_elem_of_In,
    andb_true_iff, differs_true. tauto.
Qed.

Lemma elem_of_platformersOf (w : World) (l : list ref) (s : ref) :
  s ∈ platformersOf w l <->
  s ∈ l /\ instanceof (cls (obj w s)) PlatformerClass = true.
Proof.
  unfold platformersOf.
  by rewrite list_elem_of_In, filter_In, <- list_elem_of_In.
Qed.


Lemma getPlatformerBelowSelf_found (this : ref) (o : Obj) (w : World) :
  heap w !! this = Some o ->
  getPlatformerBelowSelf this w =
    (platformersOf w (foundAt w this (sp_x o) (sp_y o + 1)), w).
Proof.
  intros Hthis. unfold getPlatformerBelowSelf.
  by rewrite (getSpriteBelowSelf_found this o w Hthis).
Qed.




(** ** Touching *)

Lemma elem_of_touchingSprite (w : World) (me s : ref) :
  s ∈ touchingSprite w me <->
  s ∈ sprites w /\ s <> me /\ touching w me s = true.
Proof.
  unfold touchingSprite, getSprites.
  rewrite list_elem_of_In, filter_In, <- list_elem_of_In, andb_true_iff,
    differs_true. tauto.
Qed.

(** X6. [touching] is symmetric: two sprites touch each other or neither
    touches the other.  Hence, of two registered sprites, each is in what
    [touchingSprite] returns for the other or neither is; and no sprite is
    in what [touchingSprite] returns for itself. *)
Theorem touching_symmetric (w : World) (a b : ref) :
  touching w a b = touching w b a /\
  (a ∈ sprites w -> b ∈ sprites w ->
   (a ∈ touchingSprite w b <-> b ∈ touchingSprite w a)) /\
  a ∉ touchingSprite w a.
Proof.
  assert (touching w a b = touching w b a) as Hsym.
  { unfold touching, Qgtb.
    destruct (Qltb (getX w a) _), (Qltb (getX w b) _),
      (Qltb (getY w a) _), (Qltb (getY w b) _); reflexivity. }
  split; [exact Hsym |]. split.
  - intros Ha Hb. rewrite !elem_of_touchingSprite, Hsym.
    split; intros (_ & Hne & Ht); (split; [done |]); split; congruence.
  - rewrite elem_of_touchingSprite. tauto.
Qed.

(** ** Velocities under a limit *)

Lemma storedVelocity_limit (m v : Q) :
  let s := storedVelocity (Some m) v in
  (0 <= m -> - m <= s /\ s <= m /\ (Qabs (round1 v) <= m -> s = round1 v)) /\
  (m < 0 -> s = m \/ s = - m).
Proof.
  unfold storedVelocity. split.
  - intros Hm. destruct (Qgtb (round1 v) m) eqn:E1.
    { apply Qgtb_gt in E1. split; [lra |]. split; [lra |].
      intros Habs. apply Qabs_Qle_condition in Habs. lra. }
    apply Qgtb_le in E1.
    destruct (Qltb (round1 v) (- m)) eqn:E2.
    { apply Qltb_lt in E2. split; [lra |]. split; [lra |].
      intros Habs. apply Qabs_Qle_condition in Habs. lra. }
    apply Qltb_ge in E2. by repeat split.
  - intros Hm. destruct (Qgtb (round1 v) m) eqn:E1; [by left |].
    apply Qgtb_le in E1.
    destruct (Qltb (round1 v) (- m)) eqn:E2; [by right |].
    apply Qltb_ge in E2. lra.
Qed.

(** X7. With a limit that is not negative, [setVX] and [setVY] store a
    velocity within the limit, and the rounded argument itself when that is
    within the limit.  With a negative limit, what they store is the limit
    or its opposite. *)
Theorem setV_limit (this : ref) (val m : Q) (w : World) :
  (getMaxVX w this = Some m ->
   let v := getVX (setVX this val w) this in
   (0 <= m -> - m <= v /\ v <= m /\ (Qabs (round1 val) <= m -> v = round1 val)) /\
   (m < 0 -> v = m \/ v = - m)) /\
  (getMaxVY w this = Some m ->
   let v := getVY (setVY this val w) this in
   (0 <= m -> - m <= v /\ v <= m /\ (Qabs (round1 val) <= m -> v = round1 val)) /\
   (m < 0 -> v = m \/ v = - m)).
Proof.
  split; intros Hmax.
  - rewrite setVX_stored, getVX_put, Hmax. apply storedVelocity_limit.
  - rewrite setVY_stored, getVY_put, Hmax. apply storedVelocity_limit.
Qed.

(** ** Friction that does not slow down *)

Lemma Qfloor_unique (y : Q) (k : Z) :
  inject_Z k <= y -> y < inject_Z (k + 1) -> Qfloor y = k.
Proof.
  intros Hlo Hhi.
  pose proof (Qfloor_le y) as Hlo'. pose proof (Qlt_floor y) as Hhi'.
  assert (inject_Z k < inject_Z (Qfloor y + 1)) as H1 by lra.
  assert (inject_Z (Qfloor y) < inject_Z (k + 1)) as H2 by lra.
  rewrite <- Zlt_Qlt in H1, H2. lia.
Qed.

(** A number of tenths is what [round1] gives for every number less than
    a twentieth away from it. *)
Lemma round1_unique (x v : Q) :
  round1 v = v -> Qabs (x - v) < 1 # 20 -> round1 x = v.
Proof.
  intros Hv Hx. rewrite <- Hv. unfold round1. f_equal. f_equal.
  destruct (round1_near v) as [Hk _]. rewrite Hv in Hk.
  set (k := toFixed1 v) in *.
  assert (forall z : Z, z # 10 == inject_Z z / 10) as Hten.
  { intros z. unfold inject_Z, Qdiv, Qmult, Qinv, Qeq. simpl. lia. }
  rewrite Hten in Hk. unfold Qdiv in Hk. change (/ 10) with (1 # 10) in Hk.
  apply Qabs_Qlt_condition in Hx.
  unfold toFixed1. destruct (Qltb x 0) eqn:E.
  - apply Qltb_lt in E. rewrite (Qabs_neg x) by lra.
    assert (Qfloor (- x * 10 + (1 # 2)) = (- k)%Z) as ->; [| lia].
    apply Qfloor_unique.
    + rewrite inject_Z_opp. clearbody k. lra.
    + rewrite inject_Z_plus, inject_Z_opp. change (inject_Z 1) with 1.
      clearbody k. lra.
  - apply Qltb_ge in E. rewrite (Qabs_pos x) by lra.
    apply Qfloor_unique.
    + clearbody k. lra.
    + rewrite inject_Z_plus. change (inject_Z 1) with 1. clearbody k. lra.
Qed.

Lemma storedVelocity_within (max : option Q) (x v : Q) :
  round1 v = v -> within max v -> Qabs (x - v) < 1 # 20 ->
  storedVelocity max x = v.
Proof.
  intros Hv Hmax Hx. unfold storedVelocity.
  rewrite (round1_unique x v Hv Hx).
  destruct max as [m |]; [| done]. simpl in Hmax.
  apply Qabs_Qle_condition in Hmax.
  rewrite (proj2 (Qgtb_le v m)) by lra.
  by rewrite (proj2 (Qltb_ge v (- m))) by lra.
Qed.

Lemma set_pl_vx_same (o : Obj) : set_pl_vx (pl_vx o) o = o.
Proof. by destruct o. Qed.

Lemma set_pl_vy_same (o : Obj) : set_pl_vy (pl_vy o) o = o.
Proof. by destruct o. Qed.


(** ** Particles in motion *)

Lemma clamped_idem (max : option Q) (v : Q) :
  limit_ok max -> clamped max (clamped max v) = clamped max v.
Proof.
  unfold clamped, limit_ok. destruct max as [m |]; [| done]. intros Hm.
  destruct (Qgtb v m) eqn:E1.
  { rewrite (proj2 (Qgtb_le m m)) by lra.
    destruct (Qltb m (- m)) eqn:E2; [| done]. apply Qltb_lt in E2. lra. }
  destruct (Qltb v (- m)) eqn:E2.
  { destruct (Qgtb (- m) m) eqn:E3; [apply Qgtb_gt in E3; lra |].
    by rewrite (proj2 (Qltb_ge (- m) (- m))) by lra. }
  by rewrite E1, E2.
Qed.

Lemma Particle_update_fields (p : Particle) :
  pt_x (Particle_update p) = pt_x p + pt_vx p /\
  pt_y (Particle_update p) = pt_y p + pt_vy p /\
  pt_vx (Particle_update p) = clamped (pt_maxVX p) (pt_vx p) /\
  pt_vy (Particle_update p) = clamped (pt_maxVY p) (pt_vy p) /\
  pt_maxVX (Particle_update p) = pt_maxVX p /\
  pt_maxVY (Particle_update p) = pt_maxVY p.
Proof. by repeat split. Qed.

Lemma Particle_update_limits (p : Particle) (n : nat) :
  pt_maxVX (Nat.iter n Particle_update p) = pt_maxVX p /\
  pt_maxVY (Nat.iter n Particle_update p) = pt_maxVY p.
Proof. induction n as [| n [IHx IHy]]; [done | by split]. Qed.

(** X9. [Particle.update()] moves the particle by its velocity and clamps
    the velocity afterwards.  For limits that are [null] or not negative,
    a particle updated [n + 1] times has moved once by the velocity it
    started with and [n] times by that velocity clamped into the limits,
    and keeps the clamped velocity: the first move is not limited. *)
Theorem Particle_update_drift (p : Particle) (n : nat) :
  limit_ok (pt_maxVX p) -> limit_ok (pt_maxVY p) ->
  let q := Nat.iter (S n) Particle_update p in
  pt_x q ==
    pt_x p + pt_vx p + inject_Z (Z.of_nat n) * clamped (pt_maxVX p) (pt_vx p) /\
  pt_y q ==
    pt_y p + pt_vy p + inject_Z (Z.of_nat n) * clamped (pt_maxVY p) (pt_vy p) /\
  pt_vx q = clamped (pt_maxVX p) (pt_vx p) /\
  pt_vy q = clamped (pt_maxVY p) (pt_vy p).
Proof.
  intros Hx Hy. cbv zeta. induction n as [| n (IHx & IHy & IHvx & IHvy)].
  - simpl Nat.iter. change (inject_Z (Z.of_nat 0)) with 0.
    destruct (Particle_update_fields p) as (-> & -> & -> & -> & _).
    repeat split; ring.
  - destruct (Particle_update_limits p (S n)) as [Hmx Hmy].
    change (Nat.iter (S (S n)) Particle_update p)
      with (Particle_update (Nat.iter (S n) Particle_update p)).
    set (q := Nat.iter (S n) Particle_update p) in *.
    destruct (Particle_update_fields q) as (-> & -> & -> & -> & _).
    rewrite IHx, IHy, IHvx, IHvy, Hmx, Hmy, !clamped_idem by done.
    rewrite Nat2Z.inj_succ, <- Z.add_1_r, inject_Z_plus.
    change (inject_Z 1) with 1.
    repeat split; ring.
Qed.


(** A particle sent off at 9 under a limit of 2 is 9 further after one
    update and 2 further after each of the next ones. *)
Lemma Particle_update_drift_witness :
  pt_x (Nat.iter 4 Particle_update
          (mkParticle "spark" 0 0 2 2 "#ffffff" 9 0 (Some 2) None 0 false))
    == 15.
Proof.
  destruct (Particle_update_drift
              (mkParticle "spark" 0 0 2 2 "#ffffff" 9 0 (Some 2) None 0 false)
              3 ltac:(by vm_compute) I) as [H _].
  rewrite H. reflexivity.
Defined.

(** The player of [world_wall], whose limit is 5, is set to 7.26 and to 2.26. *)
Lemma setV_limit_witness :
  getVX (setVX 2 7.26 world_wall) 2 <= 5 /\
  getVX (setVX 2 2.26 world_wall) 2 = round1 2.26.
Proof.
  destruct (setV_limit 2 7.26 5 world_wall) as [H _].
  destruct (H eq_refl) as [Hpos _].
  destruct (Hpos ltac:(by vm_compute)) as (_ & Hle & _).
  split; [exact Hle |].
  destruct (setV_limit 2 2.26 5 world_wall) as [H' _].
  destruct (H' eq_refl) as [Hpos' _].
  destruct (Hpos' ltac:(by vm_compute)) as (_ & _ & Heq).
  apply Heq. by vm_compute.
Defined.

(** ** The registry: deletion and look-up *)

Lemma StronglySorted_filter {A : Type} (R : A -> A -> Prop) (P : A -> bool)
    (l : list A) :
  StronglySorted R l -> StronglySorted R (List.filter P l).
Proof.
  induction 1 as [| a l Hs IH Ha]; simpl; [constructor |].
  destruct (P a); [| done]. constructor; [done |].
  rewrite List.Forall_forall in *. intros x Hx.
  apply filter_In in Hx as [Hx _]. by apply Ha.
Qed.

Lemma StronglySorted_ext {A : Type} (R R' : A -> A -> Prop) (l : list A) :
  (forall a b, In a l -> In b l -> R a b -> R' a b) ->
  StronglySorted R l -> StronglySorted R' l.
Proof.
  intros Hext Hs. induction Hs as [| a l Hs IH Ha]; [constructor |].
  constructor.
  - apply IH. intros x y Hx Hy. apply Hext; by right.
  - rewrite List.Forall_forall in *. intros x Hx.
    apply Hext; [by left | by right | by apply Ha].
Qed.

Lemma filter_filter_comm {A : Type} (P Q : A -> bool) (l : list A) :
  List.filter P (List.filter Q l) = List.filter Q (List.filter P l).
Proof.
  induction l as [| a l IH]; [done |]. simpl.
  destruct (P a) eqn:EP, (Q a) eqn:EQ; simpl; rewrite ?EP, ?EQ, IH; done.
Qed.

Lemma filter_all {A : Type} (P : A -> bool) (l : list A) :
  (forall a, In a l -> P a = true) -> List.filter P l = l.
Proof.
  induction l as [| a l IH]; [done |]. simpl. intros Hall.
  rewrite (Hall a) by (by left). f_equal. apply IH. intros x Hx.
  apply Hall. by right.
Qed.

(** A look-up by another id is not affected by a deletion. *)
Lemma getSpriteById_deleteSpriteById (id id' : string) (w : World) :
  id' <> id ->
  getSpriteById id' (deleteSpriteById id w) = getSpriteById id' w.
Proof.
  intros Hne. unfold getSpriteById, deleteSpriteById. simpl. f_equal.
  unfold getId, obj. simpl.
  induction (sprites w) as [| a l IH]; [done |]. simpl.
  destruct (bool_decide (sp_id (heap w !!! a) = id)) eqn:E1; simpl.
  - apply bool_decide_eq_true in E1.
    rewrite bool_decide_eq_false_2 by congruence. exact IH.
  - by rewrite IH.
Qed.

(** X10. [deleteSpriteById(id)] removes from the registry every sprite
    with that id (all of them, if several share it) and no other: the
    remaining sprites keep their order, so a registry in ascending order of
    stage level stays so; a look-up of the id then finds nothing, a look-up
    of any other id finds what it found before, and no object is changed. *)
Theorem deleteSpriteById_exact (id : string) (w : World) :
  let w' := deleteSpriteById id w in
  (forall r, r ∈ sprites w' <-> r ∈ sprites w /\ getId w r <> id) /\
  sprites w' `sublist_of` sprites w /\
  (ascending w (sprites w) -> ascending w' (sprites w')) /\
  getSpriteById id w' = None /\
  (forall id', id' <> id -> getSpriteById id' w' = getSpriteById id' w) /\
  heap w' = heap w.
Proof.
  cbv zeta. split.
  { intros r. unfold deleteSpriteById. simpl.
    rewrite list_elem_of_In, filter_In, <- list_elem_of_In, negb_true_iff,
      bool_decide_eq_false. tauto. }
  split.
  { unfold deleteSpriteById. simpl.
    induction (sprites w) as [| a l IH]; [done |]. simpl.
    destruct (negb _); [by apply sublist_skip | by apply sublist_cons]. }
  split.
  { intros Hasc. unfold ascending, deleteSpriteById. simpl.
    by apply (StronglySorted_filter _ _ _ Hasc). }
  split; [apply getSpriteById_None, deleteSpriteById_free |].
  split; [intros id'; apply getSpriteById_deleteSpriteById | done].
Qed.

(** ** A sprite from construction to deletion *)

(** What a successful construction tells. *)
Lemma Sprite_constructor_Ok (C : Class) (id : string)
    (x y width height : Q) (color : string) (stageLevel : Q)
    (w w1 : World) (this : ref) :
  Sprite_constructor C id x y width height color stageLevel w = Ok (this, w1) ->
  id_free id w /\ this = next w /\ sprites w1 = sprites w /\
  getId w1 this = id /\ (forall r, r <> this -> obj w1 r = obj w r).
Proof.
  unfold Sprite_constructor. destruct (getSpriteById id w) eqn:E; [done |].
  intros [= <- <-]. apply getSpriteById_None in E.
  split; [done |]. split; [done |]. split; [done |]. split.
  - unfold getId, obj. simpl. by rewrite lookup_total_insert_eq.
  - intros r Hr. unfold obj. simpl. by rewrite lookup_total_insert_ne.
Qed.

(** The first element that passes a filter, when one element only passes. *)
Lemma head_filter_only (P : ref -> bool) (l : list ref) (this : ref) :
  this ∈ l -> P this = true -> (forall r, r ∈ l -> P r = true -> r = this) ->
  head (List.filter P l) = Some this.
Proof.
  intros Hin HP Honly.
  assert (this ∈ List.filter P l) as Hthis.
  { apply list_elem_of_In, filter_In. by rewrite <- list_elem_of_In. }
  destruct (List.filter P l) as [| a rest] eqn:E.
  { by apply elem_of_nil in Hthis. }
  simpl. f_equal. apply Honly.
  - assert (In a (List.filter P l)) as Ha by (rewrite E; by left).
    apply filter_In in Ha as [Ha _]. by apply list_elem_of_In.
  - assert (In a (List.filter P l)) as Ha by (rewrite E; by left).
    by apply filter_In in Ha as [_ Ha].
Qed.

(** X11. A sprite from construction to deletion.  When the constructor
    succeeds for an id, registering the new sprite makes [getSpriteById]
    return it for that id; [deleteSpriteById] for the id then makes the
    look-up return nothing, and puts a registry that was in ascending order
    of stage level back exactly as it was before the sprite was added. *)
Theorem sprite_life_cycle (C : Class) (id : string)
    (x y width height : Q) (color : string) (stageLevel : Q)
    (w w1 : World) (this : ref) :
  registry_allocated w ->
  Sprite_constructor C id x y width height color stageLevel w = Ok (this, w1) ->
  let w2 := addNewSprite (One this) w1 in
  getSpriteById id w2 = Some this /\
  getSpriteById id (deleteSpriteById id w2) = None /\
  (ascending w (sprites w) -> sprites (deleteSpriteById id w2) = sprites w).
Proof.
  intros Hreg Hnew. cbv zeta.
  apply Sprite_constructor_Ok in Hnew as (Hfree & -> & Hsprites & Hid & Hobj).
  assert (next w ∉ sprites w) as Hfresh.
  { intros Hin. apply Hreg in Hin. lia. }
  assert (forall r, r ∈ sprites w -> getId w1 r <> id) as Hothers.
  { intros r Hr. unfold getId. rewrite Hobj; [by apply Hfree |].
    intros ->. by apply Hfresh. }
  assert (sprites (addNewSprite (One (next w)) w1) =
          sortSprites w1 (sprites w ++ [next w])) as Hadd.
  { unfold addNewSprite. simpl. rewrite Hsprites. unfold pushIfAbsent, includes.
    by rewrite bool_decide_eq_false_2. }
  split.
  { unfold getSpriteById. rewrite Hadd.
    apply head_filter_only.
    - unfold sortSprites. rewrite (Array_sort_perm (getStageLevel w1)).
      apply elem_of_app. right. by apply list_elem_of_singleton.
    - by apply bool_decide_eq_true.
    - intros r Hr Hrid. apply bool_decide_eq_true in Hrid.
      unfold sortSprites in Hr. rewrite (Array_sort_perm (getStageLevel w1)) in Hr.
      apply elem_of_app in Hr as [Hr | Hr]; [| by apply list_elem_of_singleton].
      by destruct (Hothers r Hr). }
  split; [apply getSpriteById_None, deleteSpriteById_free |].
  intros Hasc.
  set (P := fun sprite => negb (bool_decide (getId w1 sprite = id))).
  change (sprites (deleteSpriteById id (addNewSprite (One (next w)) w1)))
    with (List.filter P (sprites (addNewSprite (One (next w)) w1))).
  rewrite Hadd. unfold sortSprites.
  apply (sorted_stable_unique (getStageLevel w1)).
  - apply StronglySorted_filter, Array_sort_sorted.
  - refine (StronglySorted_ext _ _ _ _ Hasc).
    intros a b Ha Hb. unfold getStageLevel.
    rewrite !Hobj; [done | |]; intros ->; by apply Hfresh, list_elem_of_In.
  - intros v. rewrite filter_filter_comm, Array_sort_stable, filter_filter_comm.
    f_equal. rewrite List.filter_app. simpl. unfold P at 2.
    rewrite Hid, bool_decide_eq_true_2 by done. simpl. rewrite app_nil_r.
    apply filter_all. intros r Hr. unfold P. apply negb_true_iff.
    apply bool_decide_eq_false, Hothers. by apply list_elem_of_In.
Qed.

(** A coin is made in [world_mixed], registered, found and deleted. *)
Lemma sprite_life_cycle_witness :
  getSpriteById "coin" (addNewSprite (One 3) world_coin) = Some 3%nat /\
  sprites (deleteSpriteById "coin" (addNewSprite (One 3) world_coin)) =
    [0; 1; 2]%nat.
Proof.
  assert (registry_allocated world_mixed) as Hreg.
  { intros r Hr. apply list_elem_of_In in Hr. simpl in *.
    destruct Hr as [<- | [<- | [<- | []]]]; lia. }
  destruct (sprite_life_cycle SpriteClass "coin" 300 400 20 20 "#ffff00" 5
              world_mixed world_coin 3 Hreg eq_refl) as (Hfind & _ & Hback).
  split; [exact Hfind |]. apply Hback.
  repeat first [apply SSorted_nil | apply SSorted_cons
               | apply List.Forall_nil | apply List.Forall_cons];
    by vm_compute.
Defined.

(** ** The engine loop, frame by frame *)

Section Frames.

Variable settings_init : World -> World.
Variable drawFunction : World -> World.
Variable step : World -> list Call * World.

(** A frame that reaches the loop, laid out. *)
Lemma startLoop_with_running (currentTime : Q) (numberOfAssetsToLoad : nat)
    (e : Engine) (w : World) :
  running numberOfAssetsToLoad e ->
  startLoop_with settings_init drawFunction step currentTime
    numberOfAssetsToLoad e w =
  let w1 := if hasInited e then w else settings_init w in
  let '(ss, e3, w3) :=
    catchUp step (maxUpdatesPerFrame e) 0 (atLoop currentTime e) w1 in
  mkFrame (if hasInited e then [] else [CallInit]) ss
    [CallDraw; RequestAnimationFrame] (frameSkip e3) (drawFunction w3).
Proof.
  intros [Hstop Hload]. unfold startLoop_with. rewrite Hstop.
  assert ((if (numberOfAssetsToLoad =? 0)%nat
           then with_hasLoadedAssets false e else e) =
          with_hasLoadedAssets false e) as ->.
  { destruct (numberOfAssetsToLoad =? 0)%nat eqn:E; [done |].
    destruct Hload as [-> | Hl]; [done |]. destruct e. simpl in *. by subst. }
  change (hasLoadedAssets (with_hasLoadedAssets false e)) with false.
  cbv iota.
  change (hasInited (with_hasLoadedAssets false e)) with (hasInited e).
  destruct e as [f t fc tc it lu mf acc mx sk fts lg st hi hl].
  simpl in Hstop. subst st. destruct hi; reflexivity.
Qed.


(** The loop never leaves a negative time when it found none. *)
Lemma catchUp_nonneg (fuel updates : nat) (e : Engine) (w : World) :
  0 <= accumulatedTime e ->
  0 <= accumulatedTime (snd (fst (catchUp step fuel updates e w))).
Proof.
  revert updates e w. induction fuel as [| fuel IH]; intros updates e w Hacc;
    simpl; [done |].
  destruct (Qgeb (accumulatedTime e) (minFrameTime e)) eqn:E; simpl; [| done].
  destruct (updates <? maxUpdatesPerFrame e)%nat; simpl; [| done].
  destruct (step w) as [calls w1].
  set (e1 := with_accumulatedTime _ _).
  specialize (IH (S updates) e1 w1).
  destruct (catchUp step fuel (S updates) e1 w1) as [[ss e2] w2].
  simpl in *. apply IH. apply Qgeb_ge in E. lra.
Qed.

(** The number of steps of the loop, from the time it finds. *)
Lemma catchUp_count (e : Engine) (w : World) :
  0 < minFrameTime e -> 0 <= accumulatedTime e ->
  let '(ss, e', w') := catchUp step (maxUpdatesPerFrame e) 0 e w in
  Z.of_nat (length ss) = stepsDue e (accumulatedTime e) /\
  accumulatedTime e' ==
    accumulatedTime e - inject_Z (Z.of_nat (length ss)) * minFrameTime e /\
  0 <= accumulatedTime e' /\
  tpsCounter e' = (tpsCounter e + length ss)%nat /\
  fpsCounter e' = fpsCounter e /\
  minFrameTime e' = minFrameTime e /\
  enableFrameSkipping e' = enableFrameSkipping e /\
  framesToSkip e' = framesToSkip e.
Proof.
  intros Hm Hacc.
  pose proof (catchUp_spec step (maxUpdatesPerFrame e) 0 e w) as Hspec.
  pose proof (catchUp_nonneg (maxUpdatesPerFrame e) 0 e w Hacc) as Hpos.
  assert (fpsCounter (snd (fst (catchUp step (maxUpdatesPerFrame e) 0 e w))) =
          fpsCounter e) as Hfps.
  { generalize (maxUpdatesPerFrame e) at 1. generalize 0%nat. revert e w Hm Hacc Hspec Hpos.
    intros e w _ _ _ _ updates fuel. revert updates e w.
    induction fuel as [| fuel IH]; intros updates e w; simpl; [done |].
    destruct (Qgeb _ _ && _); simpl; [| done].
    destruct (step w) as [calls w1].
    set (e1 := with_accumulatedTime _ _).
    specialize (IH (S updates) e1 w1).
    destruct (catchUp step fuel (S updates) e1 w1) as [[ss e2] w2].
    simpl in *. by rewrite IH. }
  destruct (catchUp step (maxUpdatesPerFrame e) 0 e w) as [[ss e'] w'].
  simpl in Hpos, Hfps.
  destruct Hspec as (_ & Hle & Hleft & Htps & Hmin & _ & Hskip & Hfts & Hexit).
  repeat split; try done.
  set (n := Z.of_nat (length ss)) in *.
  set (budget := accumulatedTime e) in *.
  set (m := minFrameTime e) in *.
  assert (inject_Z n * m <= budget) as Hlo by (rewrite Hleft in Hpos; lra).
  assert (n <= Qfloor (budget / m))%Z as Hfloor.
  { rewrite <- (Qfloor_Z n). apply Qfloor_resp_le.
    by apply Qle_shift_div_l. }
  unfold stepsDue. fold m.
  destruct Hexit as [Hexit | Hexit]; [lia | |].
  - assert (Qfloor (budget / m) < n + 1)%Z as Hup.
    { rewrite Zlt_Qlt. eapply Qle_lt_trans; [apply Qfloor_le |].
      apply Qlt_shift_div_r; [done |].
      rewrite inject_Z_plus. change (inject_Z 1) with 1.
      rewrite Hleft in Hexit. lra. }
    unfold n in *. lia.
  - unfold n in *. lia.
Qed.

(** The loop and the frame-skip policy write the tick counter and the
    accumulated time, and no other field. *)
Lemma catchUp_engine (fuel updates : nat) (e : Engine) (w : World) :
  let '(ss, e', w') := catchUp step fuel updates e w in
  e' = with_accumulatedTime (accumulatedTime e')
         (with_tpsCounter (tpsCounter e + length ss) e).
Proof.
  revert updates e w. induction fuel as [| fuel IH]; intros updates e w; simpl.
  { rewrite Nat.add_0_r. by destruct e. }
  destruct (Qgeb _ _ && _); simpl; [| rewrite Nat.add_0_r; by destruct e].
  destruct (step w) as [calls w1].
  set (e1 := with_accumulatedTime _ _).
  specialize (IH (S updates) e1 w1).
  destruct (catchUp step fuel (S updates) e1 w1) as [[ss e2] w2].
  rewrite IH at 1. unfold e1, with_accumulatedTime, with_tpsCounter. simpl.
  do 2 f_equal. lia.
Qed.

Lemma frameSkip_engine (e : Engine) :
  frameSkip e = with_accumulatedTime (accumulatedTime (frameSkip e)) e.
Proof.
  unfold frameSkip. destruct (_ && _); [done |].
  destruct (Qgtb _ _); [done |]. by destruct e.
Qed.

(** With frame skipping on and one frame to skip, what is left of the time
    is kept if it is no more than a step, and dropped otherwise: the cap at
    five steps is never what applies. *)
Lemma frameSkip_skipsFrames (e : Engine) :
  skipsFrames e -> 0 <= minFrameTime e ->
  (accumulatedTime e <= minFrameTime e -> frameSkip e = e) /\
  (minFrameTime e < accumulatedTime e -> accumulatedTime (frameSkip e) = 0).
Proof.
  intros [Hskip Hfts] Hm. unfold frameSkip. rewrite Hskip. simpl. split.
  - intros Hle.
    rewrite (proj2 (Qgtb_le _ _)) by (rewrite Hfts; lra).
    by rewrite (proj2 (Qgtb_le _ _)) by lra.
  - intros Hgt. by rewrite (proj2 (Qgtb_gt _ _)) by (rewrite Hfts; lra).
Qed.

(** A frame that reaches the loop: its steps, and the engine it leaves. *)
Lemma startLoop_with_budget (currentTime : Q) (numberOfAssetsToLoad : nat)
    (e : Engine) (w : World) :
  running numberOfAssetsToLoad e ->
  0 < minFrameTime e -> 0 <= timeToSpend currentTime e ->
  let f := startLoop_with settings_init drawFunction step currentTime
             numberOfAssetsToLoad e w in
  let budget := timeToSpend currentTime e in
  let left := budget - inject_Z (stepsDue e budget) * minFrameTime e in
  Z.of_nat (length (steps f)) = stepsDue e budget /\
  0 <= left /\
  (left < minFrameTime e \/
   stepsDue e budget = Z.of_nat (maxUpdatesPerFrame e)) /\
  before f = (if hasInited e then [] else [CallInit]) /\
  after f = [CallDraw; RequestAnimationFrame] /\
  engine f =
    with_accumulatedTime (accumulatedTime (engine f))
      (with_tpsCounter (tpsCounter e + length (steps f))
         (atLoop currentTime e)) /\
  (skipsFrames e ->
   (left <= minFrameTime e -> accumulatedTime (engine f) == left) /\
   (minFrameTime e < left -> accumulatedTime (engine f) = 0)).
Proof.
  intros Hrun Hm Hbudget. cbv zeta.
  rewrite (startLoop_with_running _ _ _ _ Hrun). cbv zeta.
  set (w1 := if hasInited e then w else settings_init w).
  pose proof (catchUp_count (atLoop currentTime e) w1 Hm Hbudget) as Hcount.
  pose proof (catchUp_engine (maxUpdatesPerFrame e) 0 (atLoop currentTime e) w1)
    as Heng.
  pose proof (catchUp_spec step (maxUpdatesPerFrame e) 0
                (atLoop currentTime e) w1) as Hspec.
  change (maxUpdatesPerFrame (atLoop currentTime e))
    with (maxUpdatesPerFrame e) in *.
  destruct (catchUp step (maxUpdatesPerFrame e) 0 (atLoop currentTime e) w1)
    as [[ss e3] w3].
  destruct Hcount as (Hn & Hleft & Hpos & _ & _ & Hmin & Hskip & Hfts).
  destruct Hspec as (_ & _ & _ & _ & _ & _ & _ & _ & Hexit).
  simpl in *.
  change (stepsDue (atLoop currentTime e) (timeToSpend currentTime e))
    with (stepsDue e (timeToSpend currentTime e)) in Hn.
  rewrite <- Hn.
  split; [done |]. split; [lra |]. split.
  { destruct Hexit as [Hexit | Hexit]; [lia | left; lra | right].
    pose proof (Z.le_min_l (Z.of_nat (maxUpdatesPerFrame e))
                  (Qfloor (timeToSpend currentTime e / minFrameTime e))) as Hmax.
    unfold stepsDue in Hn. lia. }
  split; [done |]. split; [done |]. split.
  { rewrite frameSkip_engine. simpl. rewrite Heng at 2. by destruct e3. }
  intros Hsk.
  assert (skipsFrames e3) as Hsk3.
  { unfold skipsFrames in *. by rewrite Hskip, Hfts. }
  destruct (frameSkip_skipsFrames e3 Hsk3) as [Hkeep Hdrop];
    [rewrite Hmin; lra |].
  rewrite Hmin in *. split.
  - intros Hle. rewrite Hkeep by lra. exact Hleft.
  - intros Hgt. apply Hdrop. lra.
Qed.

End Frames.

(** ** Frames in a row *)

Section Run.

Variable sprite_update : ref -> World -> World.
Variable settings_update settings_init : World -> World.
Variable whileMouseDown : Q * Q -> World -> World.
Variable drawFunction : World -> World.

Local Abbreviation frame :=
  (startLoop sprite_update settings_update settings_init whileMouseDown
     drawFunction).

(** What a frame counts and calls, whether it reaches the loop or not. *)
Lemma startLoop_counters (currentTime : Q) (numberOfAssetsToLoad : nat)
    (e : Engine) (w : World) :
  let f := frame currentTime numberOfAssetsToLoad e w in
  fpsCounter (engine f) = (fpsCounter e + (if drew f then 1 else 0))%nat /\
  tpsCounter (engine f) = (tpsCounter e + length (steps f))%nat /\
  hasInited (engine f) = hasInited e || drew f /\
  before f = (if negb (hasInited e) && drew f then [CallInit] else []) /\
  (drew f = false -> steps f = [] /\ world f = w).
Proof.
  cbv zeta. unfold startLoop.
  destruct (stopVal e) eqn:Hstop.
  { unfold startLoop_with. rewrite Hstop. simpl.
    rewrite !Nat.add_0_r, orb_false_r, andb_false_r. done. }
  destruct (decide (numberOfAssetsToLoad = 0%nat \/ hasLoadedAssets e = false))
    as [Hload | Hload].
  - rewrite (startLoop_with_running _ _ _ _ _ _ _ (conj Hstop Hload)).
    cbv zeta.
    set (w1 := if hasInited e then w else settings_init w).
    pose proof (catchUp_engine
                  (Engine_update sprite_update settings_update whileMouseDown)
                  (maxUpdatesPerFrame e) 0 (atLoop currentTime e) w1) as Heng.
    destruct (catchUp _ (maxUpdatesPerFrame e) 0 (atLoop currentTime e) w1)
      as [[ss e3] w3].
    cbv beta iota. unfold drew. cbn [before steps after engine world].
    rewrite (bool_decide_eq_true_2 (CallDraw ∈ [CallDraw; RequestAnimationFrame]))
      by left.
    rewrite frameSkip_engine, Heng. simpl.
    rewrite orb_true_r, andb_true_r.
    split; [lia |]. split; [done |]. split; [done |].
    split; [by destruct (hasInited e) | done].
  - unfold startLoop_with. rewrite Hstop.
    destruct numberOfAssetsToLoad as [| k]; [tauto |]. simpl.
    destruct (hasLoadedAssets e); [| tauto]. simpl.
    unfold drew. cbn [before steps after engine world].
    rewrite (bool_decide_eq_false_2 (CallDraw ∈ [RequestAnimationFrame]))
      by (by rewrite list_elem_of_singleton).
    rewrite !Nat.add_0_r, orb_false_r, andb_false_r. done.
Qed.

Lemma engineAfter_cons (e : Engine) (f : Frame) (fs : list Frame) :
  engineAfter e (f :: fs) = engineAfter (engine f) fs.
Proof. unfold engineAfter. rewrite last_cons. by destruct (last fs). Qed.

(** The counters over frames in a row. *)
Lemma runFrames_counters (ticks : list (Q * nat)) (e : Engine) (w : World) :
  let fs := runFrames sprite_update settings_update settings_init
              whileMouseDown drawFunction ticks e w in
  fpsCounter (engineAfter e fs) =
    (fpsCounter e + length (List.filter drew fs))%nat /\
  tpsCounter (engineAfter e fs) =
    (tpsCounter e + length (concat (map steps fs)))%nat /\
  concat (map before fs) =
    (if negb (hasInited e) && existsb drew fs then [CallInit] else []) /\
  hasInited (engineAfter e fs) = hasInited e || existsb drew fs.
Proof.
  cbv zeta. revert e w. induction ticks as [| [t n] ticks IH]; intros e w.
  { simpl. unfold engineAfter. simpl.
    rewrite !Nat.add_0_r, orb_false_r, andb_false_r. done. }
  simpl runFrames. rewrite engineAfter_cons.
  destruct (startLoop_counters t n e w) as (Hfps & Htps & Hinit & Hbefore & _).
  set (f := startLoop _ _ _ _ _ t n e w) in *.
  destruct (IH (engine f) (world f)) as (IHfps & IHtps & IHbefore & IHinit).
  rewrite IHfps, IHtps, IHinit, Hfps, Htps, Hinit.
  simpl. rewrite IHbefore, Hbefore, Hinit, length_app.
  destruct (drew f), (hasInited e); simpl; repeat split; try lia;
    by rewrite ?app_nil_r.
Qed.

(** A frame that does not get to the drawing calls nothing of the game. *)
Lemma runFrames_idle (ticks : list (Q * nat)) (e : Engine) (w : World) :
  Forall (fun f => drew f = false -> steps f = [] /\ before f = [])
    (runFrames sprite_update settings_update settings_init whileMouseDown
       drawFunction ticks e w).
Proof.
  revert e w. induction ticks as [| [t n] ticks IH]; intros e w; simpl;
    [constructor |].
  constructor; [| apply IH].
  destruct (startLoop_counters t n e w) as (_ & _ & _ & Hbefore & Hidle).
  intros Hdrew. split; [by apply Hidle |].
  rewrite Hbefore, Hdrew. by rewrite andb_false_r.
Qed.

End Run.

(** X13. What the performance sampler reports.  Over any frames in a row
    between two samples, [getFps()] after the second sample is the number of
    frames that got to the drawing (a frame of a stopped engine or of an
    engine that waits for assets is not counted) and [getTps()] the number
    of simulation steps of these frames; the counters start again from 0.
    Over these frames the [init] of the game is called once if a frame
    gets to the drawing and it had not been called before, and not at all
    otherwise; a frame that does not get to the drawing runs no step and
    does not call it. *)
Theorem performanceSample_counts (sprite_update : ref -> World -> World)
    (settings_update settings_init : World -> World)
    (whileMouseDown : Q * Q -> World -> World) (drawFunction : World -> World)
    (ticks : list (Q * nat)) (e : Engine) (w : World) :
  let e0 := performanceSample e in
  let fs := runFrames sprite_update settings_update settings_init
              whileMouseDown drawFunction ticks e0 w in
  let e1 := performanceSample (engineAfter e0 fs) in
  getFps e1 = length (List.filter drew fs) /\
  getTps e1 = length (concat (map steps fs)) /\
  fpsCounter e1 = 0%nat /\ tpsCounter e1 = 0%nat /\
  concat (map before fs) =
    (if negb (hasInited e) && existsb drew fs then [CallInit] else []) /\
  Forall (fun f => drew f = false -> steps f = [] /\ before f = []) fs.
Proof.
  cbv zeta.
  destruct (runFrames_counters sprite_update settings_update settings_init
              whileMouseDown drawFunction ticks (performanceSample e) w)
    as (Hfps & Htps & Hbefore & _).
  split; [exact Hfps |]. split; [exact Htps |].
  split; [done |]. split; [done |].
  split; [exact Hbefore | apply runFrames_idle].
Qed.

(** X14. Stopping and resuming.  The frame driver of a stopped engine does
    nothing and requests no further frame.  [start()] does nothing on an
    engine that is not stopped.  On a stopped engine, with no asset pending,
    it runs a frame at once that draws and requests the next frame but runs
    no simulation step: the time spent stopped is forgotten, and the
    accumulated time starts from what passed between the two readings of
    the clock (taken as less than one [minFrameTime]). *)
Theorem stop_start (sprite_update : ref -> World -> World)
    (settings_update settings_init : World -> World)
    (whileMouseDown : Q * Q -> World -> World) (drawFunction : World -> World)
    (now currentTime : Q) (numberOfAssetsToLoad : nat) (e : Engine)
    (w : World) :
  skipsFrames e -> 0 < minFrameTime e ->
  now <= currentTime -> currentTime - now < minFrameTime e ->
  startLoop sprite_update settings_update settings_init whileMouseDown
    drawFunction currentTime numberOfAssetsToLoad (Engine_stop e) w =
    mkFrame [] [] [] (Engine_stop e) w /\
  (stopVal e = false ->
   Engine_start sprite_update settings_update settings_init whileMouseDown
     drawFunction now currentTime numberOfAssetsToLoad e w =
     mkFrame [] [] [] e w) /\
  let f := Engine_start sprite_update settings_update settings_init
             whileMouseDown drawFunction now currentTime 0 (Engine_stop e) w in
  steps f = [] /\
  after f = [CallDraw; RequestAnimationFrame] /\
  stopVal (engine f) = false /\
  accumulatedTime (engine f) == currentTime - now.
Proof.
  intros Hskip Hm Hnow Hsoon. split; [reflexivity |]. split.
  { intros Hrun. unfold Engine_start. by rewrite Hrun. }
  cbv zeta. unfold Engine_start. simpl stopVal. cbv iota.
  set (e' := with_accumulatedTime 0 _).
  assert (running 0 e') as Hrun by (split; [done | by left]).
  assert (timeToSpend currentTime e' == currentTime - now) as Hbudget.
  { unfold timeToSpend, e'. simpl. ring. }
  assert (0 <= timeToSpend currentTime e') as Hpos by (rewrite Hbudget; lra).
  assert (stepsDue e' (timeToSpend currentTime e') = 0%Z) as Hdue.
  { unfold stepsDue.
    assert (Qfloor (timeToSpend currentTime e' / minFrameTime e') = 0%Z) as ->.
    { apply Qfloor_unique.
      - apply Qle_shift_div_l; [done |]. change (inject_Z 0) with 0. lra.
      - apply Qlt_shift_div_r; [done |]. change (inject_Z (0 + 1)) with 1.
        change (minFrameTime e') with (minFrameTime e). lra. }
    lia. }
  unfold startLoop.
  destruct (startLoop_with_budget settings_init drawFunction
              (Engine_update sprite_update settings_update whileMouseDown)
              currentTime 0 e' w Hrun Hm Hpos)
    as (Hn & _ & _ & _ & Hafter & Heng & Hleft).
  rewrite Hdue in Hn, Hleft.
  split; [destruct (steps _); [done | simpl in Hn; lia] |].
  split; [exact Hafter |].
  split; [by rewrite Heng |].
  destruct (Hleft Hskip) as [Hkeep _].
  rewrite Hkeep; [rewrite Hbudget; change (inject_Z 0) with 0; ring |].
  change (minFrameTime e') with (minFrameTime e).
  change (inject_Z 0) with 0. lra.
Qed.

(** An engine stopped and resumed at time 5000, the frame of the resumption
    reading the clock at 5001. *)
Lemma stop_start_witness :
  steps (Engine_start idle_sprite idle idle idle_mouse idle 5000 5001 0
           (Engine_stop (new_Engine 0 50)) world_particle) = [] /\
  accumulatedTime
    (engine (Engine_start idle_sprite idle idle idle_mouse idle 5000 5001 0
               (Engine_stop (new_Engine 0 50)) world_particle)) == 1.
Proof.
  destruct (stop_start idle_sprite idle idle idle_mouse idle 5000 5001 0
              (new_Engine 0 50) world_particle)
    as (_ & _ & Hsteps & _ & _ & Hacc).
  - split; reflexivity.
  - reflexivity.
  - by vm_compute.
  - reflexivity.
  - split; [exact Hsteps |]. rewrite Hacc. reflexivity.
Defined.

(** ** What is on screen, and what is drawn *)

Lemma Qle_bool_ext (a b c d : Q) :
  (a <= b <-> c <= d) -> Qle_bool a b = Qle_bool c d.
Proof.
  intros H. apply eq_true_iff_eq. by rewrite !Qle_bool_iff.
Qed.

Lemma Qleb_le (a b : Q) : Qleb a b = true <-> a <= b.
Proof. apply Qle_bool_iff. Qed.

(** The test of the renderer is the test of the sprite. *)
Lemma isVisibleSprite_isOnScreen (w : World) (sprite : ref) :
  isVisibleSprite w sprite = isOnScreen w sprite.
Proof.
  unfold isVisibleSprite, isVisible, isOnScreen, Qgeb, Qleb.
  f_equal; [f_equal; [f_equal |] |]; apply Qle_bool_ext; split; intros H; lra.
Qed.

Section DrawPass.

Variable sprite_draw : ref -> World -> World.
Variable settings_draw : World -> World.

(** The calls for the sprites: each visible sprite is painted, then its
    [draw] is called, whatever the [draw] of the sprites before it did. *)
Lemma Render_draw_sprites (l : list ref) (calls : list DrawCall) (w : World) :
  fst (foldl (fun '(calls, w) sprite =>
                (calls ++ [CallDrawSprite sprite; CallSpriteDraw sprite],
                 sprite_draw sprite w))
         (calls, w) l) =
  calls ++ flat_map (fun sprite => [CallDrawSprite sprite; CallSpriteDraw sprite]) l.
Proof.
  revert calls w. induction l as [| s l IH]; intros calls w; simpl.
  - by rewrite app_nil_r.
  - rewrite IH. by rewrite <- app_assoc.
Qed.

Lemma Render_draw_calls (w : World) :
  fst (Render_draw sprite_draw settings_draw w) =
  [CallClear] ++
  map CallDrawParticle (List.filter (isVisibleParticle w) (particles w)) ++
  flat_map (fun sprite => [CallDrawSprite sprite; CallSpriteDraw sprite])
    (List.filter (isOnScreen w) (sprites w)) ++
  [CallHostDraw].
Proof.
  unfold Render_draw, getParticles, getSprites.
  pose proof (Render_draw_sprites (List.filter (isVisibleSprite w) (sprites w))
                [] w) as Hfold.
  destruct (foldl _ _ _) as [c2 w2]. simpl in Hfold. subst c2. simpl.
  do 3 f_equal. f_equal. apply List.filter_ext. intros s.
  apply isVisibleSprite_isOnScreen.
Qed.

End DrawPass.

(** X15. The order of a draw.  After the clearing, the draw function calls
    [drawParticle] for the visible particles, then, for each visible sprite
    in the order of the registry, [drawSprite] and the [draw] of the sprite,
    then the [draw] of the game: particles are painted under sprites, and
    with the registry in ascending order of stage level, sprites of a lower
    stage level under those of a higher one.  The visible sprites are those
    for which [isOnScreen()] holds when the draw starts, touching the edge
    of the view included (numbers being exact), whatever the [draw] of a
    sprite does to the sprites after it. *)
Theorem Render_draw_order (sprite_draw : ref -> World -> World)
    (settings_draw : World -> World) (w : World) :
  let shown := List.filter (isOnScreen w) (sprites w) in
  fst (Render_draw sprite_draw settings_draw w) =
    [CallClear] ++
    map CallDrawParticle (List.filter (isVisibleParticle w) (particles w)) ++
    flat_map (fun sprite => [CallDrawSprite sprite; CallSpriteDraw sprite])
      shown ++
    [CallHostDraw] /\
  (ascending w (sprites w) -> ascending w shown) /\
  (forall sprite, sprite ∈ shown <->
     sprite ∈ sprites w /\
     cam_x (camera w) <= getX w sprite + getWidth w sprite /\
     getX w sprite <= cam_x (camera w) + renderWidth w /\
     cam_y (camera w) <= getY w sprite + getHeight w sprite /\
     getY w sprite <= cam_y (camera w) + renderHeight w).
Proof.
  cbv zeta. split; [apply Render_draw_calls |]. split.
  - intros Hasc. by apply StronglySorted_filter.
  - intros s. rewrite list_elem_of_In, filter_In, <- list_elem_of_In.
    unfold isOnScreen.
    rewrite !andb_true_iff, !Qgeb_ge, !Qleb_le. tauto.
Qed.

(** ** The camera that follows a sprite *)

(** X16. The camera that follows a sprite.  The block of the simulation
    step that repositions the camera puts it, rounded to one decimal, where
    the top left corner of the sprite is at the centre of the canvas: the
    camera ends within 0.05 of [(x - width of the canvas / 2,
    y - height of the canvas / 2)], and nothing else changes.  For a canvas
    of at least 0.1 by 0.1 and a sprite of a size that is not negative, the
    sprite is then on screen. *)
Theorem followSprite_centres (sprite : ref) (w : World) :
  toFollow (camera w) = Some sprite ->
  let w' := snd (followSprite w) in
  Qabs (cam_x (camera w') - (getX w sprite - renderWidth w / 2)) <= 1 # 20 /\
  Qabs (cam_y (camera w') - (getY w sprite - renderHeight w / 2)) <= 1 # 20 /\
  heap w' = heap w /\ sprites w' = sprites w /\
  toFollow (camera w') = Some sprite /\
  (0 <= getWidth w sprite -> 0 <= getHeight w sprite ->
   1 # 10 <= renderWidth w -> 1 # 10 <= renderHeight w ->
   isOnScreen w' sprite = true).
Proof.
  intros Hfollow. unfold followSprite. rewrite Hfollow. cbv zeta. simpl snd.
  set (cx := round1 (getX w sprite - renderWidth w / 2)).
  set (cy := round1 (getY w sprite - renderHeight w / 2)).
  assert (Qabs (cx - (getX w sprite - renderWidth w / 2)) <= 1 # 20) as Hx
    by apply round1_near.
  assert (Qabs (cy - (getY w sprite - renderHeight w / 2)) <= 1 # 20) as Hy
    by apply round1_near.
  split; [exact Hx |]. split; [exact Hy |].
  split; [done |]. split; [done |]. split; [done |].
  intros Hwidth Hheight Hrw Hrh.
  apply Qabs_Qle_condition in Hx, Hy.
  unfold isOnScreen. rewrite !andb_true_iff, !Qgeb_ge, !Qleb_le.
  change (cam_x (camera (Camera_setY _ (Camera_setX _ w)))) with cx.
  change (cam_y (camera (Camera_setY _ (Camera_setX _ w)))) with cy.
  change (getX (Camera_setY _ (Camera_setX _ w)) sprite) with (getX w sprite).
  change (getY (Camera_setY _ (Camera_setX _ w)) sprite) with (getY w sprite).
  change (getWidth (Camera_setY _ (Camera_setX _ w)) sprite)
    with (getWidth w sprite).
  change (getHeight (Camera_setY _ (Camera_setX _ w)) sprite)
    with (getHeight w sprite).
  change (renderWidth (Camera_setY _ (Camera_setX _ w))) with (renderWidth w).
  change (renderHeight (Camera_setY _ (Camera_setX _ w))) with (renderHeight w).
  unfold Qdiv in *. change (/ 2) with (1 # 2) in *.
  clearbody cx cy. repeat split; lra.
Qed.

(** ** Colours *)

Lemma hexDigit_range (c : Ascii.ascii) (d : Z) :
  hexDigit c = Some d -> (0 <= d <= 15)%Z.
Proof.
  unfold hexDigit. set (n := Z.of_N (Ascii.N_of_ascii c)).
  destruct ((48 <=? n)%Z && (n <=? 57)%Z) eqn:E1.
  { apply andb_true_iff in E1 as [H1 H2]. intros [= <-]. lia. }
  destruct ((97 <=? n)%Z && (n <=? 102)%Z) eqn:E2.
  { apply andb_true_iff in E2 as [H1 H2]. intros [= <-]. lia. }
  destruct ((65 <=? n)%Z && (n <=? 70)%Z) eqn:E3; [| done].
  apply andb_true_iff in E3 as [H1 H2]. intros [= <-]. lia.
Qed.

Lemma hexDigit_hexChar (d : Z) :
  (0 <= d < 16)%Z ->
  hexDigit (hexChar d) = Some d /\
  Ascii.eqb (hexChar d) (Ascii.ascii_of_N 35) = false.
Proof.
  intros Hd.
  assert (d = 0 \/ d = 1 \/ d = 2 \/ d = 3 \/ d = 4 \/ d = 5 \/ d = 6 \/
          d = 7 \/ d = 8 \/ d = 9 \/ d = 10 \/ d = 11 \/ d = 12 \/ d = 13 \/
          d = 14 \/ d = 15)%Z as Hcases by lia.
  repeat (destruct Hcases as [-> | Hcases]; [by vm_compute |]).
  subst d. by vm_compute.
Qed.

Lemma channel_range (a b : Z) :
  (0 <= a <= 15)%Z -> (0 <= b <= 15)%Z ->
  0 <= inject_Z (16 * a + b) / 255 <= 1.
Proof.
  intros Ha Hb.
  assert (0 <= inject_Z (16 * a + b) <= 255) as [Hlo Hhi].
  { change 0 with (inject_Z 0). change 255 with (inject_Z 255).
    rewrite <- !Zle_Qle. lia. }
  unfold Qdiv. change (/ 255) with (1 # 255).
  generalize dependent (inject_Z (16 * a + b)). intros q Hlo Hhi. split; lra.
Qed.

Lemma append_String (c : Ascii.ascii) (s t : string) :
  (String c s ++ t)%string = String c (s ++ t)%string.
Proof. reflexivity. Qed.

Lemma append_EmptyString (t : string) : (EmptyString ++ t)%string = t.
Proof. reflexivity. Qed.

(** What [hexToRgb] can return. *)
Lemma hexToRgb_cases (hex : string) :
  hexToRgb hex = [0; 0; 0] \/
  exists a b c d e f,
    ((0 <= a <= 15) /\ (0 <= b <= 15) /\ (0 <= c <= 15) /\
     (0 <= d <= 15) /\ (0 <= e <= 15) /\ (0 <= f <= 15))%Z /\
    (String.length hex = 6%nat \/ String.length hex = 7%nat) /\
    hexToRgb hex =
      [inject_Z (16 * a + b) / 255; inject_Z (16 * c + d) / 255;
       inject_Z (16 * e + f) / 255].
Proof.
  unfold hexToRgb.
  set (digits := match hex with
                 | String c rest =>
                     if Ascii.eqb c (Ascii.ascii_of_N 35) then rest else hex
                 | EmptyString => hex
                 end).
  assert (String.length digits = 6%nat ->
          String.length hex = 6%nat \/ String.length hex = 7%nat) as Hlen.
  { unfold digits. destruct hex as [| c rest]; [by left |].
    destruct (Ascii.eqb c _); simpl; [intros ->; by right | by left]. }
  assert (length (map hexDigit (String.list_ascii_of_string digits)) =
          String.length digits) as Hl.
  { rewrite length_map. generalize digits. clear.
    induction digits as [| c s IH]; simpl; [done | by rewrite IH]. }
  assert (Forall (fun o => forall d, o = Some d -> (0 <= d <= 15)%Z)
            (map hexDigit (String.list_ascii_of_string digits))) as Hall.
  { apply Forall_forall. intros o Ho d ->.
    apply list_elem_of_fmap in Ho as (c & Hc & _).
    by apply (hexDigit_range c). }
  destruct (map hexDigit (String.list_ascii_of_string digits))
    as [| [a |] [| [b |] [| [c |] [| [d |] [| [e |] [| [f |] [| ? ?]]]]]]];
    try (by left).
  right. exists a, b, c, d, e, f.
  apply Forall_cons in Hall as [Ha Hall]. apply Forall_cons in Hall as [Hb Hall].
  apply Forall_cons in Hall as [Hc Hall]. apply Forall_cons in Hall as [Hd Hall].
  apply Forall_cons in Hall as [He Hall]. apply Forall_cons in Hall as [Hf _].
  split.
  { split; [by apply Ha |]. split; [by apply Hb |]. split; [by apply Hc |].
    split; [by apply Hd |]. split; [by apply He | by apply Hf]. }
  split; [| done].
  apply Hlen. by rewrite <- Hl.
Qed.

(** X17. [hexToRgb] returns three channels between 0 and 1.  It returns
    black for every string that is not of six characters, or of seven with
    the [#]: the short form [#fff] and colour names are read as black.  For
    channels [r], [g], [b] below 256 written as two hexadecimal digits each,
    with or without the [#], it returns [r / 255], [g / 255], [b / 255]. *)
Theorem hexToRgb_channels (hex : string) :
  length (hexToRgb hex) = 3%nat /\
  Forall (fun channel => 0 <= channel <= 1) (hexToRgb hex) /\
  (String.length hex <> 6%nat -> String.length hex <> 7%nat ->
   hexToRgb hex = [0; 0; 0]) /\
  (forall r g b : Z,
      (0 <= r < 256)%Z -> (0 <= g < 256)%Z -> (0 <= b < 256)%Z ->
      hexToRgb (toHex2 r ++ toHex2 g ++ toHex2 b) =
        [inject_Z r / 255; inject_Z g / 255; inject_Z b / 255] /\
      hexToRgb ("#" ++ toHex2 r ++ toHex2 g ++ toHex2 b) =
        [inject_Z r / 255; inject_Z g / 255; inject_Z b / 255]).
Proof.
  split.
  { destruct (hexToRgb_cases hex) as [-> | (a & b & c & d & e & f & _ & _ & ->)];
      reflexivity. }
  split.
  { destruct (hexToRgb_cases hex)
      as [-> | (a & b & c & d & e & f & Hr & _ & ->)].
    - repeat constructor; by vm_compute.
    - destruct Hr as (Ha & Hb & Hc & Hd & He & Hf).
      repeat constructor; by apply channel_range. }
  split.
  { intros H6 H7.
    destruct (hexToRgb_cases hex) as [-> | (a & b & c & d & e & f & _ & Hlen & _)];
      [done | tauto]. }
  intros r g b Hr Hg Hb.
  assert (forall n, (0 <= n < 256)%Z ->
                    (0 <= n / 16 < 16)%Z /\ (0 <= n mod 16 < 16)%Z /\
                    (16 * (n / 16) + n mod 16)%Z = n) as Hnibbles.
  { intros n Hn. split; [| split]; Z.to_euclidean_division_equations; lia. }
  destruct (Hnibbles r Hr) as (Hr1 & Hr2 & Hr3).
  destruct (Hnibbles g Hg) as (Hg1 & Hg2 & Hg3).
  destruct (Hnibbles b Hb) as (Hb1 & Hb2 & Hb3).
  destruct (hexDigit_hexChar _ Hr1) as [Dr1 Nr1].
  destruct (hexDigit_hexChar _ Hr2) as [Dr2 _].
  destruct (hexDigit_hexChar _ Hg1) as [Dg1 _].
  destruct (hexDigit_hexChar _ Hg2) as [Dg2 _].
  destruct (hexDigit_hexChar _ Hb1) as [Db1 _].
  destruct (hexDigit_hexChar _ Hb2) as [Db2 _].
  split.
  - unfold hexToRgb, toHex2. rewrite !append_String, !append_EmptyString, Nr1.
    simpl String.list_ascii_of_string. simpl map.
    rewrite Dr1, Dr2, Dg1, Dg2, Db1, Db2. by rewrite Hr3, Hg3, Hb3.
  - unfold hexToRgb, toHex2. rewrite !append_String, !append_EmptyString.
    change (Ascii.eqb _ (Ascii.ascii_of_N 35)) with true. cbv iota.
    simpl String.list_ascii_of_string. simpl map.
    rewrite Dr1, Dr2, Dg1, Dg2, Db1, Db2. by rewrite Hr3, Hg3, Hb3.
Qed.

(** ** Going to a place *)

Lemma Sprite_goTo_put (this : ref) (valx valy : Q) (w : World) :
  Sprite_goTo this valx valy w =
  put this (set_sp_y valy (set_sp_x valx (obj w this))) w.
Proof. unfold Sprite_goTo. by rewrite !upd_put, obj_put_eq, put_put. Qed.

(** X18. [to(place)] moves the sprite and changes nothing else.  [center]
    puts the centre of the sprite at the centre of the canvas,
    [verticalCenter] and [horizontalCenter] do so along one axis and keep
    the other coordinate, and [randomPosition] puts the top left corner at
    whole coordinates within the canvas.  The camera is not taken into
    account: with the camera at the origin, a sprite of a size that is not
    negative sent to [center] or to [randomPosition] is on screen. *)
Theorem Sprite_to_places (this : ref) (place : ScreenPlaces)
    (random1 random2 : Q) (w : World) :
  0 <= random1 < 1 -> 0 <= random2 < 1 ->
  0 < renderWidth w -> 0 < renderHeight w ->
  let w' := Sprite_to this place random1 random2 w in
  (exists x y, w' = put this (set_sp_y y (set_sp_x x (obj w this))) w) /\
  match place with
  | center =>
      getX w' this + getWidth w this / 2 == renderWidth w / 2 /\
      getY w' this + getHeight w this / 2 == renderHeight w / 2
  | verticalCenter =>
      getX w' this = getX w this /\
      getY w' this + getHeight w this / 2 == renderHeight w / 2
  | horizontalCenter =>
      getX w' this + getWidth w this / 2 == renderWidth w / 2 /\
      getY w' this = getY w this
  | randomPosition =>
      (exists i j : Z, getX w' this = inject_Z i /\ getY w' this = inject_Z j) /\
      0 <= getX w' this < renderWidth w /\
      0 <= getY w' this < renderHeight w
  end /\
  (place = center \/ place = randomPosition ->
   cam_x (camera w) == 0 -> cam_y (camera w) == 0 ->
   0 <= getWidth w this -> 0 <= getHeight w this ->
   isOnScreen w' this = true).
Proof.
  intros Hr1 Hr2 Hw Hh. cbv zeta.
  assert (forall r s, 0 <= r < 1 -> 0 < s ->
                      0 <= inject_Z (Qfloor (r * s)) < s) as Hfloor.
  { intros r s [Hr0 Hr1'] Hs. split.
    - change 0 with (inject_Z 0). rewrite <- Zle_Qle.
      change 0%Z with (Qfloor 0). apply Qfloor_resp_le.
      apply Qmult_le_0_compat; lra.
    - eapply Qle_lt_trans; [apply Qfloor_le |].
      assert (r * s < 1 * s) as Hlt by (apply Qmult_lt_compat_r; lra). lra. }
  pose proof (Hfloor random1 (renderWidth w) Hr1 Hw) as Hx.
  pose proof (Hfloor random2 (renderHeight w) Hr2 Hh) as Hy.
  split.
  { destruct place; unfold Sprite_to; rewrite Sprite_goTo_put; by eexists _, _. }
  split.
  { destruct place; unfold Sprite_to; rewrite Sprite_goTo_put;
      unfold getX, getY; rewrite !obj_put_eq; simpl;
      unfold getX, getY, getWidth, getHeight.
    - split; field.
    - split; [done | field].
    - split; [field | done].
    - split; [by eexists _, _ | done]. }
  intros Hplace Hcx Hcy Hwidth Hheight.
  unfold isOnScreen. rewrite !andb_true_iff, !Qgeb_ge, !Qleb_le.
  assert (renderWidth (Sprite_to this place random1 random2 w) = renderWidth w /\
          renderHeight (Sprite_to this place random1 random2 w) = renderHeight w /\
          camera (Sprite_to this place random1 random2 w) = camera w)
    as (-> & -> & ->) by (by destruct place).
  rewrite Hcx, Hcy.
  destruct Hplace as [-> | ->]; unfold Sprite_to; rewrite Sprite_goTo_put;
    unfold getX, getY, getWidth, getHeight in *; rewrite !obj_put_eq;
    cbn [sp_x sp_y sp_width sp_height set_sp_x set_sp_y].
  - unfold Qdiv. change (/ 2) with (1 # 2). repeat split; lra.
  - repeat split; lra.
Qed.

(** The camera of [world_follow] follows the player at (100, 420) on a
    canvas of 800 by 600. *)
Lemma followSprite_centres_witness :
  cam_x (camera (snd (followSprite world_follow))) == -300 /\
  isOnScreen (snd (followSprite world_follow)) 2 = true.
Proof.
  destruct (followSprite_centres 2 world_follow eq_refl)
    as (_ & _ & _ & _ & _ & Hon).
  split; [reflexivity |]. apply Hon; by vm_compute.
Defined.

(** The player of [world_mixed], 80 wide, is sent to the centre of the
    canvas of 800 by 600. *)
Lemma Sprite_to_places_witness :
  getX (Sprite_to 2 center 0 0 world_mixed) 2 + 80 / 2 == 800 / 2 /\
  isOnScreen (Sprite_to 2 center 0 0 world_mixed) 2 = true.
Proof.
  destruct (Sprite_to_places 2 center 0 0 world_mixed) as (_ & [Hx _] & Hon).
  - split; [by vm_compute | reflexivity].
  - split; [by vm_compute | reflexivity].
  - reflexivity.
  - reflexivity.
  - split; [exact Hx |].
    apply Hon; [by left | reflexivity | reflexivity | |]; by vm_compute.
Defined.

(** ** Particles from construction to deletion *)

Lemma getParticleById_None (id : string) (w : World) :
  getParticleById id w = None <->
  forall r, r ∈ particles w -> pt_id (pheap w !!! r) <> id.
Proof.
  unfold getParticleById. rewrite head_None. split.
  - intros Hnil r Hr Hid.
    assert (In r (List.filter
                    (fun particle => bool_decide (pt_id (pheap w !!! particle) = id))
                    (particles w))) as Hin.
    { apply filter_In. split; [by apply list_elem_of_In |].
      by apply bool_decide_eq_true. }
    by rewrite Hnil in Hin.
  - intros Hfree.
    destruct (List.filter _ (particles w)) as [| r rest] eqn:E; [done |].
    assert (In r (r :: rest)) as Hin by (by left).
    rewrite <- E in Hin. apply filter_In in Hin as [Hr Hid].
    apply bool_decide_eq_true in Hid. apply list_elem_of_In in Hr.
    by destruct (Hfree r Hr).
Qed.

(** X19. A particle from construction to deletion.  When the constructor
    succeeds for an id, the new particle has no velocity and no limit and
    is not registered; [addParticle] puts it at the end of the particles,
    which keep their order (the particles are not sorted);
    [getParticleById] then returns it for the id, a second construction
    with the id throws, and [deleteParticleById] for the id leaves the
    particles as they were before.  The sprites are not touched. *)
Theorem particle_life_cycle (id : string) (x y width height : Q)
    (color : string) (w w1 : World) (this : ref) :
  (forall r, r ∈ particles w -> r ∈ dom (pheap w)) ->
  new_Particle id x y width height color w = Ok (this, w1) ->
  let w2 := addParticle (One this) w1 in
  pheap w1 !! this =
    Some (mkParticle id x y width height color 0 0 None None 0 false) /\
  particles w1 = particles w /\
  particles w2 = particles w ++ [this] /\
  getParticleById id w2 = Some this /\
  new_Particle id x y width height color w2 = Throw (particle_exists id) /\
  particles (deleteParticleById id w2) = particles w /\
  sprites w2 = sprites w /\ heap w2 = heap w.
Proof.
  intros Hreg Hnew. cbv zeta. unfold new_Particle in Hnew.
  destruct (getParticleById id w) eqn:Hfree; [done |].
  injection Hnew as <- <-.
  set (this := fresh (dom (pheap w))).
  set (p := mkParticle id x y width height color 0 0 None None 0 false).
  pose proof (proj1 (getParticleById_None id w) Hfree) as Hfree'; clear Hfree; rename Hfree' into Hfree.
  assert (this ∉ dom (pheap w)) as Hfresh by apply is_fresh.
  assert (this ∉ particles w) as Hnot.
  { intros Hin. by apply Hfresh, Hreg. }
  assert (forall r, r ∈ particles w ->
                    pt_id (<[this := p]> (pheap w) !!! r) <> id) as Hothers.
  { intros r Hr. rewrite lookup_total_insert_ne; [by apply Hfree |].
    intros <-. by apply Hnot. }
  assert (pt_id (<[this := p]> (pheap w) !!! this) = id) as Hid.
  { by rewrite lookup_total_insert_eq. }
  assert (pushIfAbsent (particles w) this = particles w ++ [this]) as Hpush.
  { unfold pushIfAbsent, includes. by rewrite bool_decide_eq_false_2. }
  split; [simpl; apply lookup_insert_eq |]. split; [done |].
  split; [exact Hpush |].
  assert (getParticleById id
            (addParticle (One this)
               (with_pheap (<[this := p]> (pheap w)) w)) = Some this) as Hfind.
  { unfold getParticleById, addParticle. simpl. rewrite Hpush.
    apply head_filter_only.
    - apply elem_of_app. right. by apply list_elem_of_singleton.
    - by apply bool_decide_eq_true.
    - intros r Hr Hrid. apply bool_decide_eq_true in Hrid.
      apply elem_of_app in Hr as [Hr | Hr]; [| by apply list_elem_of_singleton].
      by destruct (Hothers r Hr). }
  split; [exact Hfind |].
  split; [unfold new_Particle; by rewrite Hfind |].
  split; [| done].
  unfold deleteParticleById, addParticle. simpl. rewrite Hpush.
  rewrite List.filter_app. simpl. rewrite Hid, bool_decide_eq_true_2 by done.
  simpl. rewrite app_nil_r. apply filter_all. intros r Hr.
  apply negb_true_iff, bool_decide_eq_false, Hothers. by apply list_elem_of_In.
Qed.

(** A second particle is made in [world_particle], registered and deleted. *)
Lemma particle_life_cycle_witness :
  particles (addParticle (One 1) world_dust) = [0; 1]%nat /\
  getParticleById "dust" (addParticle (One 1) world_dust) = Some 1%nat /\
  particles (deleteParticleById "dust" (addParticle (One 1) world_dust)) =
    [0%nat].
Proof.
  assert (forall r, r ∈ particles world_particle ->
                    r ∈ dom (pheap world_particle)) as Hreg.
  { intros r Hr. apply list_elem_of_singleton in Hr as ->.
    apply elem_of_dom. by eexists. }
  destruct (particle_life_cycle "dust" 5 5 1 1 "#888888" world_particle
              world_dust 1 Hreg eq_refl)
    as (_ & _ & Hadd & Hfind & _ & Hdel & _).
  split; [exact Hadd |]. split; [exact Hfind | exact Hdel].
Defined.

(** ** The mouse *)

(** X20. Where the mouse is.  A mouse listener stores the position of the
    pointer in the game as the camera stands at the time of the event.
    [getMouseX()] and [getMouseY()] compute it again from the stored client
    coordinate with the camera as it stands at the time of the call, so
    that the position follows the camera; they return [null] not only
    before the first event but also when the stored client coordinate is 0,
    a pointer on the left or top edge of the window. *)
Theorem getMouse_position (canvas : Canvas)
    (mouseDown mouseUp mouseMove : Q * Q -> World -> World)
    (input : Input) (e : Q * Q) (c : Controller) (w : World) :
  input = MouseDown e \/ input = MouseUp e \/ input = MouseMove e ->
  let c1 := fst (handle canvas mouseDown mouseUp mouseMove input c w) in
  mouseX c1 = Some (gameX canvas w (fst e)) /\
  mouseY c1 = Some (gameY canvas w (snd e)) /\
  (forall w',
      fst (getMouseX canvas c1 w') =
        if Qeq_bool (fst e) 0 then None
        else Some ((fst e - offsetLeft canvas) *
                   (renderWidth w' / rectWidth canvas) + cam_x (camera w'))) /\
  (forall w',
      fst (getMouseY canvas c1 w') =
        if Qeq_bool (snd e) 0 then None
        else Some ((snd e - offsetTop canvas) *
                   (renderHeight w' / rectHeight canvas) + cam_y (camera w'))) /\
  (forall w', fst (getMouseX canvas new_Controller w') = None).
Proof.
  intros Hinput. cbv zeta.
  assert (fst (handle canvas mouseDown mouseUp mouseMove input c w) =
          locate canvas e w) as ->.
  { by destruct Hinput as [-> | [-> | ->]]. }
  split; [done |]. split; [done |]. split; [| split; [| done]].
  - intros w'. unfold getMouseX. simpl. by destruct (Qeq_bool (fst e) 0).
  - intros w'. unfold getMouseY. simpl. by destruct (Qeq_bool (snd e) 0).
Qed.

Section Held.

Variable canvas : Canvas.
Variable mouseDown mouseUp mouseMove : Q * Q -> World -> World.
Variable whileMouseDown : Q * Q -> World -> World.

Hypothesis mouseDown_keeps : keeps_events mouseDown.
Hypothesis mouseUp_keeps : keeps_events mouseUp.
Hypothesis mouseMove_keeps : keeps_events mouseMove.

Lemma handle_events (input : Input) (c : Controller) (w : World) :
  events (snd (handle canvas mouseDown mouseUp mouseMove input c w)) =
  match input with
  | MouseDown e => mkEvents true (Some e)
  | MouseUp e => mkEvents false (Some e)
  | MouseMove e => mkEvents (isMouseDown (events w)) (Some e)
  | VisibilityChange visible =>
      if visible then events w else mkEvents false (mouseEvent (events w))
  end.
Proof.
  destruct input as [e | e | e | visible]; simpl.
  - by rewrite mouseDown_keeps.
  - by rewrite mouseUp_keeps.
  - by rewrite mouseMove_keeps.
  - by destruct visible.
Qed.

Lemma handleAll_cons (input : Input) (inputs : list Input) (c : Controller)
    (w : World) :
  handleAll canvas mouseDown mouseUp mouseMove (input :: inputs) c w =
  handleAll canvas mouseDown mouseUp mouseMove inputs
    (fst (handle canvas mouseDown mouseUp mouseMove input c w))
    (snd (handle canvas mouseDown mouseUp mouseMove input c w)).
Proof.
  unfold handleAll. simpl.
  by destruct (handle canvas mouseDown mouseUp mouseMove input c w).
Qed.

(** While the mouse moves, the state of the button stays and the event is
    the last one. *)
Lemma handleAll_moves (moves : list (Q * Q)) (e : Q * Q) (down : bool)
    (c : Controller) (w : World) :
  events w = mkEvents down (Some e) ->
  events (snd (handleAll canvas mouseDown mouseUp mouseMove
                 (map MouseMove moves) c w)) =
  mkEvents down (Some (List.last moves e)).
Proof.
  revert e c w. induction moves as [| m moves IH]; intros e c w Hev; [done |].
  simpl map. rewrite handleAll_cons.
  set (c1 := fst _). set (w1 := snd (handle _ _ _ _ _ c w)).
  assert (events w1 = mkEvents down (Some m)) as Hev1.
  { unfold w1. rewrite handle_events. by rewrite Hev. }
  rewrite (IH m c1 w1 Hev1). f_equal. f_equal.
  destruct moves as [| m' moves]; [done |]. simpl.
  clear. revert m m' e. induction moves as [| x moves IH]; intros m m' e; [done |].
  simpl. apply (IH m x e).
Qed.

Lemma mouseHeld_events (w : World) :
  mouseHeld whileMouseDown w =
  match isMouseDown (events w), mouseEvent (events w) with
  | true, Some e => ([CallWhileMouseDown], whileMouseDown e w)
  | _, _ => ([], w)
  end.
Proof. reflexivity. Qed.

Lemma mouse_held_steps (e : Q * Q) (moves : list (Q * Q)) (c : Controller)
    (w : World) :
  let held := handleAll canvas mouseDown mouseUp mouseMove
                (MouseDown e :: map MouseMove moves) c w in
  mouseHeld whileMouseDown (snd held) =
    ([CallWhileMouseDown], whileMouseDown (List.last moves e) (snd held)) /\
  (forall e',
      let released := handle canvas mouseDown mouseUp mouseMove (MouseUp e')
                        (fst held) (snd held) in
      mouseHeld whileMouseDown (snd released) = ([], snd released)) /\
  (let hidden := handle canvas mouseDown mouseUp mouseMove
                   (VisibilityChange false) (fst held) (snd held) in
   mouseHeld whileMouseDown (snd hidden) = ([], snd hidden)).
Proof.
  cbv zeta. rewrite handleAll_cons.
  set (c1 := fst _). set (w1 := snd (handle _ _ _ _ _ c w)).
  assert (events w1 = mkEvents true (Some e)) as Hev1.
  { unfold w1. by rewrite handle_events. }
  pose proof (handleAll_moves moves e true c1 w1 Hev1) as Hev2.
  destruct (handleAll canvas mouseDown mouseUp mouseMove (map MouseMove moves)
              c1 w1) as [c2 w2].
  simpl in *. split; [| split].
  - by rewrite mouseHeld_events, Hev2.
  - intros e'. rewrite mouseHeld_events.
    pose proof (handle_events (MouseUp e') c2 w2) as H. simpl in H.
    by rewrite H.
  - rewrite mouseHeld_events. by rewrite Hev2.
Qed.

End Held.

(** X21. The held mouse.  With callbacks that leave the input state alone,
    after a mouse-down followed by any number of mouse moves the block of
    the simulation step for the held mouse calls [whileMouseDown] once, with
    the last of these events; after a mouse-up, or after the document has
    become hidden, it calls nothing. *)
Theorem mouse_held (canvas : Canvas)
    (mouseDown mouseUp mouseMove whileMouseDown : Q * Q -> World -> World)
    (e : Q * Q) (moves : list (Q * Q)) (c : Controller) (w : World) :
  keeps_events mouseDown -> keeps_events mouseUp -> keeps_events mouseMove ->
  let held := handleAll canvas mouseDown mouseUp mouseMove
                (MouseDown e :: map MouseMove moves) c w in
  mouseHeld whileMouseDown (snd held) =
    ([CallWhileMouseDown], whileMouseDown (List.last moves e) (snd held)) /\
  (forall e',
      let released := handle canvas mouseDown mouseUp mouseMove (MouseUp e')
                        (fst held) (snd held) in
      mouseHeld whileMouseDown (snd released) = ([], snd released)) /\
  (let hidden := handle canvas mouseDown mouseUp mouseMove
                   (VisibilityChange false) (fst held) (snd held) in
   mouseHeld whileMouseDown (snd hidden) = ([], snd hidden)).
Proof.
  intros Hdown Hup Hmove. by apply mouse_held_steps.
Qed.

(** The pointer moves to the left edge of the window, 30 below the top, over
    a canvas shown at half its size. *)
Lemma getMouse_position_witness :
  fst (getMouseX (mkCanvas 0 0 400 300)
         (fst (handle (mkCanvas 0 0 400 300) idle_mouse idle_mouse idle_mouse
                 (MouseMove (0, 30)) new_Controller world_mixed))
         world_mixed) = None /\
  fst (getMouseY (mkCanvas 0 0 400 300)
         (fst (handle (mkCanvas 0 0 400 300) idle_mouse idle_mouse idle_mouse
                 (MouseMove (0, 30)) new_Controller world_mixed))
         world_mixed) = Some ((30 - 0) * (600 / 300) + 0).
Proof.
  destruct (getMouse_position (mkCanvas 0 0 400 300) idle_mouse idle_mouse
              idle_mouse (MouseMove (0, 30)) (0, 30) new_Controller world_mixed)
    as (_ & _ & HX & HY & _); [by right; right |].
  split; [exact (HX world_mixed) | exact (HY world_mixed)].
Defined.

(** The button goes down at (10, 10) and the pointer moves to (20, 20). *)
Lemma mouse_held_witness :
  fst (mouseHeld idle_mouse
         (snd (handleAll (mkCanvas 0 0 400 300) idle_mouse idle_mouse idle_mouse
                 [MouseDown (10, 10); MouseMove (20, 20)]
                 new_Controller world_mixed))) = [CallWhileMouseDown].
Proof.
  destruct (mouse_held (mkCanvas 0 0 400 300) idle_mouse idle_mouse idle_mouse
              idle_mouse (10, 10) [(20, 20)] new_Controller world_mixed)
    as (Hheld & _); [done | done | done |].
  simpl map in Hheld. by rewrite Hheld.
Defined.

(** ** The candidates are always all the platformers *)

Lemma mode_put (this r : ref) (o : Obj) (w : World) :
  pl_checkAllPlatformers o = pl_checkAllPlatformers (obj w this) ->
  pl_checkAllPlatformers (obj (put this o w) r) =
  pl_checkAllPlatformers (obj w r).
Proof.
  intros Ho. destruct (decide (this = r)) as [-> | Hne].
  - by rewrite obj_put_eq.
  - by rewrite obj_put_ne.
Qed.

Lemma mode_upd (this r : ref) (f : Obj -> Obj) (w : World) :
  (forall o, pl_checkAllPlatformers (f o) = pl_checkAllPlatformers o) ->
  pl_checkAllPlatformers (obj (upd this f w) r) =
  pl_checkAllPlatformers (obj w r).
Proof. intros Hf. rewrite upd_put. by apply mode_put. Qed.

Lemma mode_setX (this r : ref) (v : Q) (w : World) :
  pl_checkAllPlatformers (obj (setX this v w) r) =
  pl_checkAllPlatformers (obj w r).
Proof. by apply mode_upd. Qed.

Lemma mode_setY (this r : ref) (v : Q) (w : World) :
  pl_checkAllPlatformers (obj (setY this v w) r) =
  pl_checkAllPlatformers (obj w r).
Proof. by apply mode_upd. Qed.

Lemma mode_setVX (this r : ref) (v : Q) (w : World) :
  pl_checkAllPlatformers (obj (setVX this v w) r) =
  pl_checkAllPlatformers (obj w r).
Proof. rewrite setVX_stored. by apply mode_put. Qed.

Lemma mode_setVY (this r : ref) (v : Q) (w : World) :
  pl_checkAllPlatformers (obj (setVY this v w) r) =
  pl_checkAllPlatformers (obj w r).
Proof. rewrite setVY_stored. by apply mode_put. Qed.

Lemma mode_refreshCandidates (this r : ref) (w : World) :
  pl_checkAllPlatformers (obj (refreshCandidates this w) r) =
  pl_checkAllPlatformers (obj w r).
Proof.
  unfold refreshCandidates.
  destruct (pl_checkAllPlatformers (obj w this)); [| done]. by apply mode_upd.
Qed.

Lemma keeps_mode_doGravity_each (this p : ref) :
  keeps_mode (fun w => doGravity_each this w p).
Proof.
  intros w r. unfold doGravity_each.
  destruct (touching w this p && differs this p); [| done].
  rewrite mode_setVY.
  destruct (Qltb (pl_vy (obj w this)) 0).
  - destruct (touching _ this p); by rewrite ?mode_setY.
  - destruct (touching _ this p); rewrite ?mode_setY;
      by rewrite mode_upd, mode_setY.
Qed.

Lemma keeps_mode_forEach (this : ref) (l : list ref) :
  keeps_mode (fun w => foldl (doGravity_each this) w l).
Proof.
  induction l as [| p l IH]; intros w r; simpl; [done |].
  rewrite IH. apply keeps_mode_doGravity_each.
Qed.

Lemma keeps_mode_doGravity (this : ref) : keeps_mode (doGravity this).
Proof.
  intros w r. unfold doGravity.
  set (w1 := setY this _ _).
  assert (pl_checkAllPlatformers
            (obj (foldl (doGravity_each this) w1
                    (getPlatformersToCheckCollision w1 this)) r) =
          pl_checkAllPlatformers (obj w r)) as Hloop.
  { rewrite (keeps_mode_forEach this _ w1 r). unfold w1.
    by rewrite mode_setY, mode_upd, mode_refreshCandidates. }
  destruct (negb _); [by rewrite mode_setVY | done].
Qed.

Lemma keeps_mode_moveX (this : ref) (dx : Q) : keeps_mode (moveX this dx).
Proof. intros w r. rewrite moveX_put. by apply mode_put. Qed.

Lemma keeps_mode_moveY (this : ref) (dy : Q) : keeps_mode (moveY this dy).
Proof. intros w r. rewrite moveY_put. by apply mode_put. Qed.

Lemma keeps_mode_doJump (this : ref) (jumpHeight : Q) :
  keeps_mode (doJump this jumpHeight).
Proof.
  intros w r. unfold doJump, getSpriteBelowSelf.
  destruct (0 <? length _)%nat; rewrite ?mode_setVY; by rewrite !mode_setY.
Qed.

Lemma keeps_mode_addFriction (this : ref) (friction : Q) :
  keeps_mode (addFrictionX this friction) /\
  keeps_mode (addFrictionY this friction).
Proof.
  split; intros w r.
  - unfold addFrictionX. destruct (Qltb _ _); by rewrite !mode_setVX.
  - unfold addFrictionY. destruct (Qltb _ _); by rewrite !mode_setVY.
Qed.

(** In check-all mode the candidates that were set are replaced before they
    are read. *)
Lemma refreshCandidates_set (this : ref) (l : list ref) (w : World) :
  pl_checkAllPlatformers (obj w this) = true ->
  refreshCandidates this (setPlatformerSpritesToCheckCollisionWith this l w) =
  refreshCandidates this w.
Proof.
  intros Hmode. unfold refreshCandidates, setPlatformerSpritesToCheckCollisionWith.
  rewrite obj_upd_eq. simpl pl_checkAllPlatformers. rewrite Hmode.
  rewrite !upd_put, obj_put_eq, put_put. f_equal.
  assert (getSpritesByType PlatformerClass
            (put this (set_pl_platformersToCheckCollision l (obj w this)) w) =
          getSpritesByType PlatformerClass w) as ->.
  { unfold getSpritesByType. simpl sprites. apply List.filter_ext. intros s.
    destruct (decide (this = s)) as [-> | Hne].
    - by rewrite obj_put_eq.
    - by rewrite obj_put_ne. }
  reflexivity.
Qed.

(** X22. The list of candidates a game sets is never what is checked.  The
    constructor of [Platformer] puts the platformer in check-all mode, and
    no method takes it out of it: [doGravity], [moveX], [moveY], [doJump],
    the two frictions, the velocity setters and
    [setPlatformerSpritesToCheckCollisionWith] all leave the mode of every
    platformer as it is.  In that mode [doGravity], [moveX] and [moveY]
    replace the candidates by all the registered platformers before they
    read them, so that a call of
    [setPlatformerSpritesToCheckCollisionWith] before them changes nothing
    of what they do. *)
Theorem candidates_always_all (this : ref) (w : World) :
  pl_checkAllPlatformers (obj w this) = true ->
  (forall l,
      doGravity this (setPlatformerSpritesToCheckCollisionWith this l w) =
        doGravity this w /\
      (forall dx,
          moveX this dx (setPlatformerSpritesToCheckCollisionWith this l w) =
            moveX this dx w) /\
      (forall dy,
          moveY this dy (setPlatformerSpritesToCheckCollisionWith this l w) =
            moveY this dy w)) /\
  (forall l, keeps_mode (setPlatformerSpritesToCheckCollisionWith this l)) /\
  keeps_mode (doGravity this) /\
  (forall dx, keeps_mode (moveX this dx)) /\
  (forall dy, keeps_mode (moveY this dy)) /\
  (forall jumpHeight, keeps_mode (doJump this jumpHeight)) /\
  (forall friction, keeps_mode (addFrictionX this friction) /\
                    keeps_mode (addFrictionY this friction)) /\
  (forall v, keeps_mode (setVX this v) /\ keeps_mode (setVY this v)) /\
  (forall C id x y width height color stageLevel w0 w1 r,
      Platformer_constructor C id x y width height color stageLevel w0 =
        Ok (r, w1) ->
      pl_checkAllPlatformers (obj w1 r) = true).
Proof.
  intros Hmode. split.
  { intros l. split; [| split; intros d].
    - unfold doGravity. by rewrite refreshCandidates_set.
    - unfold moveX. by rewrite refreshCandidates_set.
    - unfold moveY. by rewrite refreshCandidates_set. }
  split; [intros l w' r; by apply mode_upd |].
  split; [apply keeps_mode_doGravity |].
  split; [apply keeps_mode_moveX |].
  split; [apply keeps_mode_moveY |].
  split; [apply keeps_mode_doJump |].
  split; [apply keeps_mode_addFriction |].
  split.
  { intros v. split; intros w' r; [apply mode_setVX | apply mode_setVY]. }
  intros C id x y width height color stageLevel w0 w1 r.
  unfold Platformer_constructor.
  destruct (Sprite_constructor _ _ _ _ _ _ _ _ _) as [[r' w'] |]; [| done].
  intros [= <- <-]. by rewrite obj_upd_eq.
Qed.

(** The player of [world_wall] is in check-all mode: a wall it has been told
    not to check still stops it. *)
Lemma candidates_always_all_witness :
  getX (moveX 2 3 (setPlatformerSpritesToCheckCollisionWith 2 [] world_wall)) 2
    == 40.
Proof.
  destruct (candidates_always_all 2 world_wall eq_refl) as [Hsame _].
  destruct (Hsame []) as (_ & HmoveX & _).
  rewrite HmoveX. reflexivity.
Defined.

(** ** A platformer at rest *)

(** What [doGravity] leaves. *)
Lemma doGravity_put (this : ref) (w : World) :
  doGravity this w =
  put this
    (place (gravity_fall (storedVelocity (pl_maxVY (obj w this))) w this)
       (refreshed w this)) w.
Proof.
  unfold doGravity, gravity_fall.
  rewrite upd_refreshCandidates.
  unfold setY, getY, getVY. rewrite upd_put, !obj_put_eq, put_put.
  change (set_sp_y _ (set_pl_hasPlatformerBelow false (refreshed w this)))
    with (place (mkFalling (sp_y (obj w this) + pl_vy (obj w this))
                   (pl_vy (obj w this)) false) (refreshed w this)).
  unfold getPlatformersToCheckCollision. rewrite obj_put_eq.
  change (pl_platformersToCheckCollision (place _ (refreshed w this)))
    with (gravity_candidates w this).
  rewrite doGravity_forEach, obj_put_eq.
  change (pl_maxVY (refreshed w this)) with (pl_maxVY (obj w this)).
  set (store := storedVelocity (pl_maxVY (obj w this))).
  assert (forall st l,
             foldl (gravity_contact store (refreshed w this)) st l =
             foldl (gravity_contact store (obj w this)) st l) as ->.
  { intros st l. revert st. induction l as [| p l IH]; intros st; [done |].
    simpl. rewrite IH. reflexivity. }
  set (st := foldl _ _ _).
  change (pl_hasPlatformerBelow (place st (refreshed w this))) with (f_below st).
  destruct (f_below st) eqn:Eb; simpl.
  - reflexivity.
  - rewrite setVY_stored, getMaxVY_put, !obj_put_eq, put_put.
    unfold getGravityAcc. rewrite obj_put_eq.
    unfold place. cbn [f_y f_vy f_below]. rewrite Eb. reflexivity.
Qed.

Lemma overlaps_apart (me q : Obj) (y : Q) : apart me q -> overlaps me y q = false.
Proof. unfold apart, overlaps. by intros ->. Qed.

(** Candidates that are not touched leave the fall as it is. *)
Lemma contact_none (store : Q -> Q) (me P : Obj) (objs : list Obj)
    (st : Falling) :
  (forall q, q ∈ objs -> q = P \/ apart me q) ->
  overlaps me (f_y st) P = false ->
  foldl (gravity_contact store me) st objs = st.
Proof.
  intros Hobjs Hst. induction objs as [| q objs IH]; [done |]. simpl.
  assert (gravity_contact store me st q = st) as ->.
  { unfold gravity_contact.
    destruct (Hobjs q ltac:(left)) as [-> | Hq]; [by rewrite Hst |].
    by rewrite (overlaps_apart me q _ Hq). }
  apply IH. intros q' Hq'. apply Hobjs. by right.
Qed.

(** The first contact with the ground is a landing, and the last contact. *)
Lemma contact_landing (store : Q -> Q) (me P : Obj) (objs : list Obj)
    (st : Falling) :
  (forall q, q ∈ objs -> q = P \/ apart me q) ->
  P ∈ objs ->
  overlaps me (f_y st) P = true -> Qltb (f_vy st) 0 = false ->
  foldl (gravity_contact store me) st objs =
  mkFalling (sp_y P - sp_height me) (store 0) true.
Proof.
  intros Hobjs HP Hst Hvy. induction objs as [| q objs IH].
  { by apply elem_of_nil in HP. }
  simpl.
  destruct (Hobjs q ltac:(left)) as [-> | Hq].
  - assert (overlaps me (sp_y P - sp_height me) P = false) as Hgone.
    { unfold overlaps. apply andb_false_iff. right. apply Qgtb_le. lra. }
    assert (gravity_contact store me st P =
            mkFalling (sp_y P - sp_height me) (store 0) true) as ->.
    { unfold gravity_contact. by rewrite Hst, Hvy, Hgone. }
    apply (contact_none store me P); [| exact Hgone].
    intros q' Hq'. apply Hobjs. by right.
  - assert (gravity_contact store me st q = st) as ->.
    { unfold gravity_contact. by rewrite (overlaps_apart me q _ Hq). }
    apply IH; [intros q' Hq'; apply Hobjs; by right |].
    apply elem_of_cons in HP as [-> | HP]; [| done].
    rewrite (overlaps_apart me q _ Hq) in Hst. discriminate Hst.
Qed.

Lemma gravity_candidates_put (this : ref) (o : Obj) (w : World) :
  cls o = cls (obj w this) ->
  pl_checkAllPlatformers o = pl_checkAllPlatformers (obj w this) ->
  pl_platformersToCheckCollision o = gravity_candidates w this ->
  gravity_candidates (put this o w) this = gravity_candidates w this.
Proof.
  intros Hcls Hmode Hlist. unfold gravity_candidates at 1.
  rewrite obj_put_eq, Hmode.
  destruct (pl_checkAllPlatformers (obj w this)) eqn:E; [| done].
  unfold gravity_candidates. rewrite E.
  unfold getSpritesByType. simpl sprites. apply List.filter_ext. intros s.
  destruct (decide (this = s)) as [-> | Hne].
  - by rewrite obj_put_eq, Hcls.
  - by rewrite obj_put_ne.
Qed.

Section Rest.

Variable this p : ref.
Variable w : World.

Hypothesis Hrest : restsOn w this p.
Hypothesis Hlimit : limit_ok (pl_maxVY (obj w this)).
Hypothesis Hpull : 0 < pull w this.
Hypothesis Hreach :
  pull w this < sp_height (obj w this) + sp_height (obj w p).

Local Abbreviation me := (obj w this).
Local Abbreviation store := (storedVelocity (pl_maxVY (obj w this))).
Local Abbreviation others :=
  (map (obj w) (List.filter (differs this) (gravity_candidates w this))).

Lemma rest_others (q : Obj) : q ∈ others -> q = obj w p \/ apart me q.
Proof.
  destruct Hrest as (_ & _ & _ & _ & _ & _ & Hothers).
  intros Hq. apply list_elem_of_fmap in Hq as (r & -> & Hr).
  apply list_elem_of_In, filter_In in Hr as [Hr Hne].
  apply differs_true in Hne. apply Hothers; [by apply list_elem_of_In | done].
Qed.

Lemma rest_ground : obj w p ∈ others.
Proof.
  destruct Hrest as (Hne & Hp & _).
  apply list_elem_of_fmap. exists p. split; [done |].
  apply list_elem_of_In, filter_In. split; [by apply list_elem_of_In |].
  by apply differs_true.
Qed.

(** Standing, the platformer does not touch the ground. *)
Lemma rest_fall_standing (y : Q) :
  y == sp_y me ->
  foldl (gravity_contact store me) (mkFalling y 0 false) others =
  mkFalling y 0 false.
Proof.
  intros Hy. apply (contact_none store me (obj w p)); [apply rest_others |].
  destruct Hrest as (_ & _ & _ & _ & Hon & _).
  unfold overlaps. apply andb_false_iff. right. apply Qgtb_le. simpl.
  rewrite Hy, Hon. lra.
Qed.

(** Pulled down, it lands. *)
Lemma rest_fall_pulled (y : Q) :
  y == sp_y me ->
  foldl (gravity_contact store me) (mkFalling (y + pull w this) (pull w this) false)
    others =
  mkFalling (sp_y me) (store 0) true.
Proof.
  intros Hy. destruct Hrest as (_ & _ & Hx1 & Hx2 & Hon & _).
  replace (mkFalling (sp_y me) (store 0) true)
    with (mkFalling (sp_y (obj w p) - sp_height me) (store 0) true)
    by (by rewrite <- Hon).
  apply contact_landing; [apply rest_others | apply rest_ground | |].
  - unfold overlaps. simpl.
    rewrite !andb_true_iff, !Qltb_lt, !Qgtb_gt.
    rewrite Hy, Hon. repeat split; lra.
  - apply Qltb_ge. simpl. lra.
Qed.


(** One call takes the platformer off the ground: it stays where it is,
    not grounded, with the velocity of the pull. *)
Lemma rest_pulled :
  doGravity this w =
  put this
    (place (mkFalling (sp_y me + 0) (pull w this) false) (refreshed w this)) w.
Proof.
  rewrite doGravity_put. do 2 f_equal. unfold gravity_fall.
  destruct Hrest as (_ & _ & _ & _ & _ & Hvy & _). rewrite Hvy.
  rewrite rest_fall_standing by ring. reflexivity.
Qed.

(** The next call puts it back, grounded and without velocity. *)
Lemma rest_landed :
  doGravity this (doGravity this w) =
  put this (place (mkFalling (sp_y me) 0 true) (refreshed w this)) w.
Proof.
  rewrite rest_pulled. set (o1 := place _ (refreshed w this)).
  rewrite doGravity_put, put_put, obj_put_eq.
  assert (gravity_candidates (put this o1 w) this = gravity_candidates w this)
    as Hcands by (by apply gravity_candidates_put).
  f_equal. unfold gravity_fall, refreshed. rewrite Hcands, obj_put_eq.
  assert (map (obj (put this o1 w))
            (List.filter (differs this) (gravity_candidates w this)) = others)
    as ->.
  { apply map_ext_in. intros q Hq. apply filter_In in Hq as [_ Hq].
    apply differs_true in Hq. by rewrite obj_put_ne. }
  change (pl_maxVY o1) with (pl_maxVY me).
  change (sp_y o1 + pl_vy o1) with (sp_y me + 0 + pull w this).
  change (pl_vy o1) with (pull w this).
  assert (forall st l,
             foldl (gravity_contact store o1) st l =
             foldl (gravity_contact store me) st l) as ->.
  { intros st l. revert st. induction l as [| q l IH]; intros st; [done |].
    simpl. rewrite IH. reflexivity. }
  rewrite rest_fall_pulled by ring. simpl.
  by rewrite (storedVelocity_zero _ Hlimit).
Qed.

End Rest.



(** ** The first frame *)

(** X24. The first frame.  The constructor sets the clock of the engine
    to the time of the construction, and [init] ends with a call of the
    frame driver.  With nothing to load, that frame calls the [init] of the
    game, runs simulation steps, five at most, and draws, and sets the clock
    to its own time.  With assets to load it calls nothing of the game and
    requests a frame; the clock of the engine is left at the time of its
    construction and no time is accumulated, so that the time spent loading
    is time the frames after it will find passed. *)
Theorem Engine_init_first_frame (sprite_update : ref -> World -> World)
    (settings_update settings_init : World -> World)
    (whileMouseDown : Q * Q -> World -> World)
    (drawFunction settings_load : World -> World)
    (now tps currentTime : Q) (numberOfAssetsToLoad : nat) (w : World) :
  let f := Engine_init sprite_update settings_update settings_init
             whileMouseDown drawFunction settings_load tps
             numberOfAssetsToLoad currentTime (Engine_constructor now) w in
  lastUpdateTime (Engine_constructor now) = now /\
  (numberOfAssetsToLoad = 0%nat ->
   before f = [CallInit] /\
   (length (steps f) <= 5)%nat /\
   after f = [CallDraw; RequestAnimationFrame] /\
   hasInited (engine f) = true /\
   lastUpdateTime (engine f) = currentTime) /\
  (numberOfAssetsToLoad <> 0%nat ->
   before f = [] /\ steps f = [] /\ after f = [RequestAnimationFrame] /\
   world f = settings_load w /\
   hasInited (engine f) = false /\ hasLoadedAssets (engine f) = true /\
   lastUpdateTime (engine f) = now /\ accumulatedTime (engine f) = 0).
Proof.
  cbv zeta. unfold Engine_init. split; [reflexivity |]. split.
  - intros ->. simpl negb. cbv iota.
    set (e := with_minFrameTime _ _).
    assert (running 0 e) as Hrun by (split; [done | by left]).
    unfold startLoop.
    set (step := Engine_update sprite_update settings_update whileMouseDown).
    rewrite (startLoop_with_running settings_init drawFunction step
               currentTime 0 e (settings_load w) Hrun).
    cbv zeta.
    change (if hasInited e then settings_load w
            else settings_init (settings_load w))
      with (settings_init (settings_load w)).
    pose proof (catchUp_engine step (maxUpdatesPerFrame e) 0
                  (atLoop currentTime e) (settings_init (settings_load w)))
      as Heng.
    pose proof (catchUp_spec step (maxUpdatesPerFrame e) 0
                  (atLoop currentTime e) (settings_init (settings_load w)))
      as Hspec.
    destruct (catchUp step (maxUpdatesPerFrame e) 0 (atLoop currentTime e)
                (settings_init (settings_load w))) as [[ss e3] w3].
    destruct Hspec as (Hn & _).
    cbn [before steps after engine].
    split; [reflexivity |]. split; [exact Hn |]. split; [reflexivity |].
    rewrite frameSkip_engine, Heng. split; reflexivity.
  - intros Hn. destruct numberOfAssetsToLoad as [| k]; [done |].
    repeat split.
Qed.

(** An engine made at time 0 and started with 50 ticks a second at time
    1000, with nothing to load: the first frame calls the [init] of the
    game and runs five steps. *)
Lemma Engine_init_first_frame_witness :
  before (Engine_init idle_sprite idle idle idle_mouse idle idle 50 0 1000
            (Engine_constructor 0) world_particle) = [CallInit] /\
  length (steps (Engine_init idle_sprite idle idle idle_mouse idle idle 50 0
                   1000 (Engine_constructor 0) world_particle)) = 5%nat.
Proof.
  destruct (Engine_init_first_frame idle_sprite idle idle idle_mouse idle idle
              0 50 1000 0 world_particle)
    as (_ & Hready & _).
  destruct (Hready eq_refl) as (Hbefore & _).
  split; [exact Hbefore | reflexivity].
Defined.

(** ** The canvas in the window *)

(** X25. [ajustCanvasRatio] shows the canvas as the largest rectangle of
    the ratio that fits in the window: for a ratio of positive terms, the
    size it sets is in the ratio, spans the width or the height of the
    window, and is within the window in both directions. *)
Theorem ajustCanvasRatio_fits (innerWidth innerHeight xRatio yRatio : Q) :
  0 < xRatio -> 0 < yRatio ->
  let layout := ajustCanvasRatio innerWidth innerHeight xRatio yRatio in
  fullScreenRatio layout = Some (xRatio, yRatio) /\
  styleWidth layout * yRatio == styleHeight layout * xRatio /\
  (0 <= innerWidth -> 0 <= innerHeight ->
   styleWidth layout <= innerWidth /\ styleHeight layout <= innerHeight) /\
  (styleWidth layout = innerWidth \/ styleHeight layout = innerHeight).
Proof.
  intros Hx Hy. cbv zeta. unfold ajustCanvasRatio.
  destruct (Qgtb innerHeight (innerWidth * (yRatio / xRatio))) eqn:E; simpl.
  - apply Qgtb_gt in E. split; [done |]. split.
    { field. lra. }
    split; [| by left]. intros Hw Hh. split; lra.
  - apply Qgtb_le in E. split; [done |]. split.
    { field. lra. }
    split; [| by right]. intros Hw Hh. split; [| lra].
    assert (innerHeight * (xRatio / yRatio) <=
            innerWidth * (yRatio / xRatio) * (xRatio / yRatio)) as Hle.
    { apply Qmult_le_compat_r; [done |].
      apply Qlt_le_weak, Qlt_shift_div_l; lra. }
    assert (innerWidth * (yRatio / xRatio) * (xRatio / yRatio) == innerWidth)
      as Heq by (field; lra).
    lra.
Qed.

(** A canvas of ratio 4 to 3 in a window of 1000 by 600 is shown at 800 by
    600. *)
Lemma ajustCanvasRatio_fits_witness :
  styleWidth (ajustCanvasRatio 1000 600 4 3) == 800 /\
  styleHeight (ajustCanvasRatio 1000 600 4 3) <= 600.
Proof.
  destruct (ajustCanvasRatio_fits 1000 600 4 3) as (_ & _ & Hfit & _);
    [reflexivity | reflexivity |].
  destruct Hfit as [_ Hh]; [by vm_compute | by vm_compute |].
  split; [reflexivity | exact Hh].
Defined.

(** * The platformer on doubles *)

Section OnDoubles.

Import PrimFloat SpecFloat FloatOps FloatAxioms.
#[local] Set Warnings "-inexact-float".
#[local] Open Scope float_scope.

(** ** The store *)

Lemma double_upd_put (r : ref) (f : Double.Obj -> Double.Obj) (w : Double.World) :
  Double.upd r f w = Double.put r (f (Double.obj w r)) w.
Proof. reflexivity. Qed.

Lemma double_obj_put_eq (r : ref) (o : Double.Obj) (w : Double.World) :
  Double.obj (Double.put r o w) r = o.
Proof. unfold Double.obj, Double.put. simpl. apply lookup_total_insert_eq. Qed.

Lemma double_obj_put_ne (r r' : ref) (o : Double.Obj) (w : Double.World) :
  r <> r' -> Double.obj (Double.put r o w) r' = Double.obj w r'.
Proof.
  intros Hne. unfold Double.obj, Double.put. simpl.
  by apply lookup_total_insert_ne.
Qed.

Lemma double_put_put (r : ref) (o o' : Double.Obj) (w : Double.World) :
  Double.put r o' (Double.put r o w) = Double.put r o' w.
Proof. unfold Double.put. simpl. by rewrite insert_insert_eq. Qed.

Lemma double_put_same (r : ref) (o : Double.Obj) (w : Double.World) :
  Double.heap w !! r = Some o -> Double.put r o w = w.
Proof.
  intros Hr. unfold Double.put. rewrite (insert_id _ _ _ Hr). by destruct w.
Qed.

(** ** Velocity *)

Lemma double_setVX_stored (this : ref) (v : float) (w : Double.World) :
  Double.setVX this v w =
  Double.put this
    (Double.set_pl_vx (Double.storedVelocity (Double.getMaxVX w this) v)
       (Double.obj w this)) w.
Proof.
  unfold Double.setVX, Double.getVX, Double.getMaxVX, Double.storedVelocity,
    Double.above_max, Double.below_min.
  rewrite !double_upd_put, !double_obj_put_eq, !double_put_put. simpl.
  destruct (Double.pl_maxVX (Double.obj w this)) as [m |]; simpl;
    [| reflexivity].
  destruct (Double.gtb (Double.round1 v) m); [reflexivity |].
  destruct (Double.round1 v <? - m); reflexivity.
Qed.

Lemma double_setVY_stored (this : ref) (v : float) (w : Double.World) :
  Double.setVY this v w =
  Double.put this
    (Double.set_pl_vy (Double.storedVelocity (Double.getMaxVY w this) v)
       (Double.obj w this)) w.
Proof.
  unfold Double.setVY, Double.getVY, Double.getMaxVY, Double.storedVelocity,
    Double.above_max, Double.below_min.
  rewrite !double_upd_put, !double_obj_put_eq, !double_put_put. simpl.
  destruct (Double.pl_maxVY (Double.obj w this)) as [m |]; simpl;
    [| reflexivity].
  destruct (Double.gtb (Double.round1 v) m); [reflexivity |].
  destruct (Double.round1 v <? - m); reflexivity.
Qed.

(** ** Gravity *)

Lemma double_touching_put (this p : ref) (o : Double.Obj) (w : Double.World) :
  this <> p ->
  Double.touching (Double.put this o w) this p =
  Double.overlapsAt o (Double.sp_x o) (Double.sp_y o) (Double.obj w p).
Proof.
  intros Hne.
  unfold Double.touching, Double.overlapsAt, Double.getX, Double.getY,
    Double.getWidth, Double.getHeight.
  by rewrite !double_obj_put_eq, !double_obj_put_ne.
Qed.

(** One turn of the [forEach] on a candidate other than the platformer. *)
Lemma double_doGravity_each_other (this p : ref) (st : Double.Falling)
    (me : Double.Obj) (w : Double.World) :
  this <> p ->
  Double.doGravity_each this (Double.put this (Double.place st me) w) p =
  Double.put this
    (Double.place
       (Double.gravity_contact (Double.storedVelocity (Double.pl_maxVY me)) me
          st (Double.obj w p)) me) w.
Proof.
  intros Hne. unfold Double.doGravity_each, Double.gravity_contact.
  rewrite double_touching_put by done.
  rewrite (proj2 (differs_true this p) Hne), andb_true_r.
  change (Double.overlapsAt (Double.place st me) (Double.sp_x (Double.place st me))
            (Double.sp_y (Double.place st me)))
    with (Double.overlapsAt me (Double.sp_x me) (Double.f_y st)).
  destruct (Double.overlapsAt me (Double.sp_x me) (Double.f_y st) (Double.obj w p));
    [| by destruct st].
  rewrite double_obj_put_eq.
  change (Double.pl_vy (Double.place st me)) with (Double.f_vy st).
  unfold Double.setY, Double.getY, Double.getHeight.
  destruct (Double.f_vy st <? 0).
  - rewrite double_upd_put, !(double_obj_put_ne this p), double_obj_put_eq,
      double_put_put by done.
    rewrite double_touching_put by done.
    match goal with
    | |- context [Double.overlapsAt ?o (Double.sp_x ?o) (Double.sp_y ?o) ?q] =>
        change (Double.overlapsAt o (Double.sp_x o) (Double.sp_y o) q)
          with (Double.overlapsAt me (Double.sp_x me)
                  (Double.sp_y (Double.obj w p) + Double.sp_height (Double.obj w p)) q)
    end.
    destruct (Double.overlapsAt me _ _ (Double.obj w p)).
    + rewrite double_upd_put, double_obj_put_eq, double_put_put,
        double_setVY_stored. unfold Double.getMaxVY.
      rewrite double_obj_put_eq, double_put_put. reflexivity.
    + rewrite double_setVY_stored. unfold Double.getMaxVY.
      rewrite double_obj_put_eq, double_put_put. reflexivity.
  - rewrite !double_upd_put, !(double_obj_put_ne this p), !double_obj_put_eq,
      !double_put_put by done.
    rewrite double_touching_put by done.
    match goal with
    | |- context [Double.overlapsAt ?o (Double.sp_x ?o) (Double.sp_y ?o) ?q] =>
        change (Double.overlapsAt o (Double.sp_x o) (Double.sp_y o) q)
          with (Double.overlapsAt me (Double.sp_x me)
                  (Double.sp_y (Double.obj w p) - Double.sp_height me) q)
    end.
    destruct (Double.overlapsAt me _ _ (Double.obj w p)).
    + rewrite ?double_upd_put, ?double_obj_put_eq, ?double_put_put,
        double_setVY_stored. unfold Double.getMaxVY.
      rewrite double_obj_put_eq, double_put_put. reflexivity.
    + rewrite double_setVY_stored. unfold Double.getMaxVY.
      rewrite double_obj_put_eq, double_put_put. reflexivity.
Qed.

(** The turn on the platformer itself does nothing. *)
Lemma double_doGravity_each_self (this : ref) (w : Double.World) :
  Double.doGravity_each this w this = w.
Proof.
  unfold Double.doGravity_each, differs. rewrite Nat.eqb_refl. simpl.
  by rewrite andb_false_r.
Qed.

Lemma double_doGravity_forEach (this : ref) (me : Double.Obj) (w : Double.World)
    (candidates : list ref) (st : Double.Falling) :
  foldl (Double.doGravity_each this) (Double.put this (Double.place st me) w)
    candidates =
  Double.put this
    (Double.place
       (foldl (Double.gravity_contact (Double.storedVelocity (Double.pl_maxVY me)) me)
          st (map (Double.obj w) (List.filter (differs this) candidates)))
       me) w.
Proof.
  revert st. induction candidates as [| p rest IH]; intros st; [done |].
  simpl. destruct (differs this p) eqn:E.
  - apply differs_true in E. rewrite double_doGravity_each_other by done.
    apply IH.
  - apply not_true_iff_false in E. rewrite differs_true in E.
    apply dec_stable in E. subst p.
    rewrite double_doGravity_each_self. apply IH.
Qed.

(** What [doGravity] leaves. *)
Lemma double_doGravity_put (this : ref) (w : Double.World) :
  Double.doGravity this w =
  Double.put this (Double.gravity_steps_stored w this) w.
Proof.
  unfold Double.doGravity, Double.gravity_steps_stored, Double.gravity_steps,
    Double.gravity_fall.
  set (me := Double.refreshed w this).
  assert (Double.refreshCandidates this w = Double.put this me w \/
          (Double.refreshCandidates this w = w /\ me = Double.obj w this))
    as Hrefresh.
  { unfold Double.refreshCandidates, me, Double.refreshed,
      Double.gravity_candidates.
    destruct (Double.pl_checkAllPlatformers (Double.obj w this)); [by left |].
    right. split; [done |]. by destruct (Double.obj w this). }
  assert (Double.upd this (Double.set_pl_hasPlatformerBelow false)
            (Double.refreshCandidates this w) =
          Double.put this (Double.set_pl_hasPlatformerBelow false me) w) as ->.
  { destruct Hrefresh as [-> | [-> ->]].
    - by rewrite double_upd_put, double_obj_put_eq, double_put_put.
    - by rewrite double_upd_put. }
  unfold Double.setY, Double.getY, Double.getVY.
  rewrite double_upd_put, !double_obj_put_eq, double_put_put.
  change (Double.set_sp_y _ (Double.set_pl_hasPlatformerBelow false me))
    with (Double.place
            (Double.mkFalling (Double.sp_y me + Double.pl_vy me)
               (Double.pl_vy me) false) me).
  unfold Double.getPlatformersToCheckCollision. rewrite double_obj_put_eq.
  change (Double.pl_platformersToCheckCollision (Double.place _ me))
    with (Double.gravity_candidates w this).
  rewrite double_doGravity_forEach. rewrite double_obj_put_eq.
  change (Double.pl_maxVY me) with (Double.pl_maxVY (Double.obj w this)).
  change (Double.sp_y me) with (Double.sp_y (Double.obj w this)).
  change (Double.pl_vy me) with (Double.pl_vy (Double.obj w this)).
  set (store := Double.storedVelocity (Double.pl_maxVY (Double.obj w this))).
  set (st := foldl _ _ _).
  replace (foldl (Double.gravity_contact store (Double.obj w this))
             (Double.mkFalling
                (Double.sp_y (Double.obj w this) + Double.pl_vy (Double.obj w this))
                (Double.pl_vy (Double.obj w this)) false)
             (map (Double.obj w)
                (List.filter (differs this) (Double.gravity_candidates w this))))
    with st by (subst st; f_equal).
  change (Double.pl_hasPlatformerBelow (Double.place st me)) with (Double.f_below st).
  destruct (Double.f_below st) eqn:Eb; simpl.
  - reflexivity.
  - rewrite double_setVY_stored. unfold Double.getMaxVY, Double.getGravityAcc.
    rewrite !double_obj_put_eq, double_put_put.
    unfold Double.place. cbn [Double.f_y Double.f_vy Double.f_below].
    rewrite Eb. reflexivity.
Qed.

(** C1, amended.  [doGravity()] replaces the platformer by the outcome of
    the steps taken in order (refresh of the candidates in check-all mode,
    reset of [hasPlatformerBelow], [vy] added to [y], the candidates other
    than the platformer handled in turn with the snap, the grounding, 0.1
    added to [y] if the two still touch, and the zeroing of [vy], and the
    gravity increment unless grounded), every write to [vy] being what
    [setVY] stores: the value rounded to one decimal and clamped into
    [[-maxVY, maxVY]] when [maxVY] is set.  Nothing else in the world
    changes.  The sums are those of doubles, so that the platformer can
    still touch after the snap: a player 10 high that falls onto a ground
    whose top is at 0.3 is put at [0.3 - 10], whose sum with 10 is above
    0.3, and the 0.1 is added, which leaves it touching the ground. *)
Theorem doGravity_steps (this : ref) (w : Double.World) :
  Double.doGravity this w =
    Double.put this (Double.gravity_steps_stored w this) w /\
  Double.getY (Double.doGravity 0 (Double.world_fall 0.3 (-10) 2.5 None)) 0 =
    0.3 - 10 + 0.1 /\
  Double.touching (Double.doGravity 0 (Double.world_fall 0.3 (-10) 2.5 None))
    0 1 = true.
Proof.
  split; [apply double_doGravity_put |]. split; reflexivity.
Qed.

(** C1 as stated, with [gravityAcc] plainly added to [vy], fails at the
    limit velocity: a platformer in free fall with [vy = 10], [maxVY = 10]
    and [gravityAcc = 0.2] keeps [vy = 10], where the plain steps give
    10.2. *)
Lemma doGravity_limit_counterexample :
  Double.getVY (Double.world_fall 100 0 10 (Some 10)) 0 = 10 /\
  Double.getGravityAcc (Double.world_fall 100 0 10 (Some 10)) 0 = 0.2 /\
  Double.pl_hasPlatformerBelow
    (Double.obj (Double.doGravity 0 (Double.world_fall 100 0 10 (Some 10))) 0)
    = false /\
  Double.pl_vy (Double.gravity_steps_plain (Double.world_fall 100 0 10 (Some 10)) 0)
    = 10.2 /\
  Double.getVY (Double.doGravity 0 (Double.world_fall 100 0 10 (Some 10))) 0
    = 10 /\
  Double.doGravity 0 (Double.world_fall 100 0 10 (Some 10)) <>
    Double.put 0
      (Double.gravity_steps_plain (Double.world_fall 100 0 10 (Some 10)) 0)
      (Double.world_fall 100 0 10 (Some 10)).
Proof.
  repeat split.
  intros H. apply (f_equal (fun w => Double.getVY w 0 =? 10)) in H.
  vm_compute in H. discriminate H.
Qed.

(** ** Probes and jumps *)

(** The candidates a search or a move tests, for a platformer [o] stored in
    place of the original one. *)
Lemma double_hit_filter (this : ref) (o : Double.Obj) (w : Double.World)
    (l : list ref) :
  Double.sp_width o = Double.sp_width (Double.obj w this) ->
  Double.sp_height o = Double.sp_height (Double.obj w this) ->
  List.filter
    (fun p => Double.touching (Double.put this o w) this p && differs this p) l =
  List.filter
    (fun p => Double.overlapsAt (Double.obj w this) (Double.sp_x o)
                (Double.sp_y o) (Double.obj w p) && differs this p) l.
Proof.
  intros Hw Hh. apply List.filter_ext. intros p.
  destruct (differs this p) eqn:E; [| by rewrite !andb_false_r].
  apply differs_true in E. rewrite double_touching_put by done.
  unfold Double.overlapsAt. by rewrite Hw, Hh.
Qed.

(** A probe along [x]: the step forth, the search, the step back. *)
Lemma double_probe_x (me : ref) (w : Double.World) (forth back : float -> float) :
  (let w1 := Double.setX me (forth (Double.getX w me)) w in
   let touchingSprites :=
     List.filter (fun sprite => Double.touching w1 me sprite && differs me sprite)
       (Double.getSprites w1) in
   (touchingSprites, Double.setX me (back (Double.getX w1 me)) w1)) =
  (Double.foundAt w me (forth (Double.getX w me)) (Double.getY w me),
   Double.put me
     (Double.set_sp_x (back (forth (Double.getX w me))) (Double.obj w me)) w).
Proof.
  cbv zeta. unfold Double.setX, Double.getX, Double.getY.
  rewrite !double_upd_put, double_obj_put_eq, double_put_put.
  unfold Double.getSprites.
  change (Double.sprites (Double.put me _ w)) with (Double.sprites w).
  rewrite double_hit_filter by reflexivity. reflexivity.
Qed.

Lemma double_probe_y (me : ref) (w : Double.World) (forth back : float -> float) :
  (let w1 := Double.setY me (forth (Double.getY w me)) w in
   let touchingSprites :=
     List.filter (fun sprite => Double.touching w1 me sprite && differs me sprite)
       (Double.getSprites w1) in
   (touchingSprites, Double.setY me (back (Double.getY w1 me)) w1)) =
  (Double.foundAt w me (Double.getX w me) (forth (Double.getY w me)),
   Double.put me
     (Double.set_sp_y (back (forth (Double.getY w me))) (Double.obj w me)) w).
Proof.
  cbv zeta. unfold Double.setY, Double.getX, Double.getY.
  rewrite !double_upd_put, double_obj_put_eq, double_put_put.
  unfold Double.getSprites.
  change (Double.sprites (Double.put me _ w)) with (Double.sprites w).
  rewrite double_hit_filter by reflexivity. reflexivity.
Qed.

Lemma double_getSpriteBelowSelf_found (me : ref) (w : Double.World) :
  Double.getSpriteBelowSelf me w =
  (Double.foundAt w me (Double.getX w me) (Double.getY w me + 1),
   Double.put me
     (Double.set_sp_y (Double.getY w me + 1 - 1) (Double.obj w me)) w).
Proof. apply (double_probe_y me w (fun y => y + 1) (fun y => y - 1)). Qed.

Lemma double_set_sp_y_same (o : Double.Obj) :
  Double.set_sp_y (Double.sp_y o) o = o.
Proof. by destruct o. Qed.

Lemma double_set_sp_x_same (o : Double.Obj) :
  Double.set_sp_x (Double.sp_x o) o = o.
Proof. by destruct o. Qed.

(** C4, amended.  [doJump(jumpHeight)] runs the probe one unit below, which
    returns the registered sprites other than the platformer that overlap
    it one unit lower, and leaves the platformer at the height [y + 1 - 1]
    that the step down and the step up give in doubles, changing nothing
    else.  If the probe returns at least one touching platformer, the jump
    then stores [-jumpHeight] in [vy] through [setVY] (rounded to one
    decimal, clamped into [[-maxVY, maxVY]] when [maxVY] is set) and changes
    nothing else; if the probe returns no sprite at all, the call does
    nothing more.  Where [y + 1 - 1] is [y], the probe leaves the world as it
    was. *)
Theorem doJump_grounded (this : ref) (jumpHeight : float) (w : Double.World) :
  let o := Double.obj w this in
  let probed := Double.set_sp_y (Double.sp_y o + 1 - 1) o in
  Double.getSpriteBelowSelf this w =
    (Double.foundAt w this (Double.sp_x o) (Double.sp_y o + 1),
     Double.put this probed w) /\
  (fst (Double.getPlatformerBelowSelf this w) <> [] ->
   Double.doJump this jumpHeight w =
     Double.put this
       (Double.set_pl_vy
          (Double.storedVelocity (Double.pl_maxVY o) (- jumpHeight)) probed) w) /\
  (fst (Double.getSpriteBelowSelf this w) = [] ->
   Double.doJump this jumpHeight w = Double.put this probed w) /\
  (Double.heap w !! this = Some o -> Double.sp_y o + 1 - 1 = Double.sp_y o ->
   Double.put this probed w = w).
Proof.
  cbv zeta.
  pose proof (double_getSpriteBelowSelf_found this w) as Hprobe.
  unfold Double.getX, Double.getY in Hprobe.
  split; [exact Hprobe |].
  unfold Double.doJump, Double.getPlatformerBelowSelf. rewrite Hprobe.
  cbn [fst]. split; [| split].
  - intros Hne.
    destruct (Double.foundAt w this _ _) as [| s below]; [done |].
    simpl. rewrite double_setVY_stored. unfold Double.getMaxVY.
    by rewrite double_obj_put_eq, double_put_put.
  - by intros ->.
  - intros Hthis ->. rewrite double_set_sp_y_same. by apply double_put_same.
Qed.

(** The player of [world_mixed] stands on the ground and jumps. *)
Lemma doJump_grounded_witness :
  fst (Double.getPlatformerBelowSelf 2 Double.world_mixed) = [1%nat] /\
  Double.getVY (Double.doJump 2 18 Double.world_mixed) 2 = -18.
Proof.
  split; [reflexivity |].
  destruct (doJump_grounded 2 18 Double.world_mixed) as (_ & Hjump & _).
  rewrite Hjump; [reflexivity | discriminate].
Defined.

(** C4 as stated fails in three ways.  A platformer with [maxVY = 10] that
    stands on a platformer and jumps by 18 gets [vy = -10], not [-18].  A
    platformer on a crate that is a plain sprite has no platformer below,
    and the jump takes place all the same.  A platformer alone at
    [y = 0.3] has nothing below and does not jump, but the probe leaves it
    at [0.3 + 1 - 1], which is not 0.3. *)
Lemma doJump_counterexample :
  fst (Double.getPlatformerBelowSelf 0 (Double.world_fall 100 90 0 (Some 10)))
    = [1%nat] /\
  Double.getVY (Double.doJump 0 18 (Double.world_fall 100 90 0 (Some 10))) 0
    = -10 /\
  fst (Double.getPlatformerBelowSelf 0 Double.world_crate) = [] /\
  Double.getVY Double.world_crate 0 = 0 /\
  Double.getVY (Double.doJump 0 18 Double.world_crate) 0 = -18 /\
  fst (Double.getPlatformerBelowSelf 0 (Double.world_mover 0 0.3 0 0 None None))
    = [] /\
  Double.getY (Double.world_mover 0 0.3 0 0 None None) 0 = 0.3 /\
  Double.getY (Double.doJump 0 18 (Double.world_mover 0 0.3 0 0 None None)) 0
    = 0.3 + 1 - 1 /\
  (0.3 + 1 - 1 =? 0.3) = false.
Proof. repeat split. Qed.

(** ** Friction *)

(** A limit that is not negative is a zero, the infinity or a positive
    number. *)
Lemma double_nonneg (m : float) :
  (0 <=? m) = true ->
  match Prim2SF m with
  | S754_zero _ | S754_infinity false | S754_finite false _ _ => True
  | _ => False
  end.
Proof.
  rewrite leb_spec. change (Prim2SF 0) with (S754_zero false).
  destruct (Prim2SF m) as [s | s | | s mm e]; try destruct s; simpl;
    (done || discriminate).
Qed.

Lemma double_storedVelocity_zero (max : option float) :
  Double.limit_ok max -> Double.storedVelocity max 0 = 0.
Proof.
  unfold Double.storedVelocity, Double.limit_ok, Double.gtb.
  destruct max as [m |]; [| reflexivity].
  intros Hm. apply double_nonneg in Hm.
  change (Double.round1 0) with 0.
  rewrite !ltb_spec, opp_spec. change (Prim2SF 0) with (S754_zero false).
  destruct (Prim2SF m) as [s | s | | s mm e]; try destruct s; simpl in *;
    done.
Qed.

(** 0.25 * 0.9 is stored as 0.2 or, under a smaller limit, as the limit;
    both are below 0.3. *)
Lemma double_frictionVelocity_quarter (max : option float) :
  Double.limit_ok max -> Double.frictionVelocity max 0.25 0.9 = 0.
Proof.
  unfold Double.frictionVelocity, Double.storedVelocity, Double.limit_ok,
    Double.gtb.
  change (Double.round1 (0.25 * 0.9)) with 0.2.
  destruct max as [m |]; [| reflexivity].
  intros Hm. apply double_nonneg in Hm.
  rewrite (ltb_spec m), (ltb_spec 0.2 (- m)), opp_spec.
  change (Prim2SF 0.2) with (S754_finite false 7205759403792794 (-55)).
  destruct (Prim2SF m) as [s | s | | s mm e] eqn:Em; try destruct s;
    try done; simpl.
  - rewrite ltb_spec, abs_spec, Em. reflexivity.
  - rewrite ltb_spec, abs_spec, Em. reflexivity.
  - unfold SFltb, SFcompare.
    destruct (Z.compare_spec e (-55)) as [He | He | He].
    + destruct (Pos.compare_cont Eq mm 7205759403792794); try reflexivity.
      rewrite ltb_spec, abs_spec, Em.
      change (Prim2SF 0.3) with (S754_finite false 5404319552844595 (-54)).
      unfold SFltb, SFabs, SFcompare.
      assert ((e ?= -54)%Z = Lt) as -> by (apply Z.compare_lt_iff; lia).
      reflexivity.
    + rewrite ltb_spec, abs_spec, Em.
      change (Prim2SF 0.3) with (S754_finite false 5404319552844595 (-54)).
      unfold SFltb, SFabs, SFcompare.
      assert ((e ?= -54)%Z = Lt) as -> by (apply Z.compare_lt_iff; lia).
      reflexivity.
    + reflexivity.
Qed.

(** C5, amended.  For a platformer whose [maxVX] is [null] or not negative,
    [addFrictionX(friction)] leaves in [vx] the product [vx * friction] of
    the two doubles as [setVX] stores it (rounded to one decimal, then
    clamped into [[-maxVX, maxVX]] when [maxVX] is set), or exactly 0 when
    that stored value is smaller than 0.3 in magnitude, and changes nothing
    else; with [vx = 0.25], one call with friction 0.9 leaves [vx] exactly
    0.  The product is the rounded one: 4.5 * 0.9 is a double below 4.05
    and is stored as 4. *)
Theorem addFrictionX_stored (this : ref) (friction : float) (w : Double.World) :
  Double.limit_ok (Double.getMaxVX w this) ->
  Double.addFrictionX this friction w =
    Double.put this
      (Double.set_pl_vx
         (Double.frictionVelocity (Double.getMaxVX w this)
            (Double.getVX w this) friction)
         (Double.obj w this)) w /\
  (Double.getVX w this = 0.25 -> friction = 0.9 ->
   Double.getVX (Double.addFrictionX this friction w) this = 0) /\
  Double.getVX
    (Double.addFrictionX 0 0.9 (Double.world_mover 0 0 4.5 0 None None)) 0 = 4.
Proof.
  intros Hmax.
  assert (Double.addFrictionX this friction w =
          Double.put this
            (Double.set_pl_vx
               (Double.frictionVelocity (Double.getMaxVX w this)
                  (Double.getVX w this) friction)
               (Double.obj w this)) w) as Heq.
  { unfold Double.addFrictionX, Double.frictionVelocity.
    rewrite double_setVX_stored. unfold Double.getVX at 1.
    rewrite double_obj_put_eq. cbn [Double.pl_vx Double.set_pl_vx].
    fold (Double.getVX w this).
    destruct (abs _ <? 0.3); [| reflexivity].
    rewrite double_setVX_stored, double_put_put. unfold Double.getMaxVX at 1.
    rewrite !double_obj_put_eq. cbn [Double.pl_maxVX Double.set_pl_vx].
    fold (Double.getMaxVX w this). by rewrite double_storedVelocity_zero. }
  split; [exact Heq |]. split; [| reflexivity].
  intros Hv ->. rewrite Heq. unfold Double.getVX at 1.
  rewrite double_obj_put_eq. cbn [Double.pl_vx Double.set_pl_vx].
  rewrite Hv. by apply double_frictionVelocity_quarter.
Qed.

(** A platformer with [vx = 0.25] and no limit comes to rest in one call. *)
Lemma addFrictionX_stored_witness :
  Double.getVX
    (Double.addFrictionX 0 0.9 (Double.world_mover 0 0 0.25 0 None None)) 0 = 0.
Proof.
  apply (addFrictionX_stored 0 0.9 (Double.world_mover 0 0 0.25 0 None None) I);
    reflexivity.
Defined.

(** C5 as stated fails where the limit interferes: with [maxVX = -5] the
    platformer of [vx = 0.25] ends at [-5], not at 0; with [vx = 20] stored
    before [maxVX = 10] was set, friction 1 leaves 10, not the product. *)
Lemma addFrictionX_limit_counterexample :
  Double.getVX (Double.world_mover 0 0 0.25 0 (Some (-5)) None) 0 = 0.25 /\
  Double.getVX
    (Double.addFrictionX 0 0.9 (Double.world_mover 0 0 0.25 0 (Some (-5)) None)) 0
    = -5 /\
  Double.getVX (Double.world_mover 0 0 20 0 (Some 10) None) 0 * 1 = 20 /\
  Double.getVX
    (Double.addFrictionX 0 1 (Double.world_mover 0 0 20 0 (Some 10) None)) 0 = 10.
Proof. repeat split. Qed.

(** ** Moves *)

Lemma double_upd_refreshCandidates (this : ref) (f : Double.Obj -> Double.Obj)
    (w : Double.World) :
  Double.upd this f (Double.refreshCandidates this w) =
  Double.put this (f (Double.refreshed w this)) w.
Proof.
  unfold Double.refreshCandidates, Double.refreshed, Double.gravity_candidates.
  destruct (Double.pl_checkAllPlatformers (Double.obj w this)) eqn:E.
  - by rewrite !double_upd_put, double_obj_put_eq, double_put_put.
  - rewrite double_upd_put. do 2 f_equal. by destruct (Double.obj w this).
Qed.

Lemma double_setX_refresh (this : ref) (v : float) (w : Double.World) :
  Double.setX this v (Double.refreshCandidates this w) =
  Double.put this (Double.set_sp_x v (Double.refreshed w this)) w.
Proof. apply double_upd_refreshCandidates. Qed.

Lemma double_setY_refresh (this : ref) (v : float) (w : Double.World) :
  Double.setY this v (Double.refreshCandidates this w) =
  Double.put this (Double.set_sp_y v (Double.refreshed w this)) w.
Proof. apply double_upd_refreshCandidates. Qed.

Lemma double_hitAt_other (w : Double.World) (this : ref) (x y : float) (p : ref) :
  p ∈ Double.hitAt w this x y ->
  this <> p /\ p ∈ Double.gravity_candidates w this /\
  Double.overlapsAt (Double.obj w this) x y (Double.obj w p) = true.
Proof.
  unfold Double.hitAt. rewrite list_elem_of_In, filter_In, <- list_elem_of_In,
    andb_true_iff, differs_true. tauto.
Qed.

(** The corrections one after the other: the last one stands. *)
Lemma double_correct_last (this : ref) (w : Double.World)
    (set : float -> Double.Obj -> Double.Obj) (target : ref -> float)
    (step : Double.World -> ref -> Double.World) (keeps : Double.Obj -> Prop)
    (hit : list ref) (o : Double.Obj) :
  (forall a b o', set a (set b o') = set a o') ->
  (forall a o', keeps o' -> keeps (set a o')) ->
  (forall o' p, p ∈ hit -> keeps o' ->
     step (Double.put this o' w) p = Double.put this (set (target p) o') w) ->
  keeps o ->
  foldl step (Double.put this o w) hit =
  Double.put this
    (match last hit with Some p => set (target p) o | None => o end) w.
Proof.
  intros Hset Hkeeps Hstep. revert o.
  induction hit as [| p rest IH]; intros o Ho; [done |].
  simpl foldl. rewrite Hstep by (done || left).
  rewrite IH; [| intros o' q Hq; apply Hstep; by right | by apply Hkeeps].
  rewrite last_cons. destruct (last rest); [by rewrite Hset | done].
Qed.

(** What [moveX] leaves. *)
Lemma double_moveX_put (this : ref) (dx : float) (w : Double.World) :
  Double.moveX this dx w =
  Double.put this
    (Double.set_sp_x (Double.moveX_x w this dx) (Double.refreshed w this)) w.
Proof.
  unfold Double.moveX, Double.moveX_x.
  assert (Double.getX (Double.refreshCandidates this w) this = Double.getX w this)
    as ->.
  { unfold Double.getX, Double.refreshCandidates.
    destruct (Double.pl_checkAllPlatformers (Double.obj w this)); [| done].
    by rewrite double_upd_put, double_obj_put_eq. }
  rewrite !double_setX_refresh.
  unfold Double.getPlatformersToCheckCollision. rewrite double_obj_put_eq.
  change (Double.pl_platformersToCheckCollision
            (Double.set_sp_x _ (Double.refreshed w this)))
    with (Double.gravity_candidates w this).
  rewrite double_hit_filter by done.
  change (Double.sp_x (Double.set_sp_x (Double.getX w this + dx)
                         (Double.refreshed w this)))
    with (Double.getX w this + dx).
  change (Double.sp_y (Double.set_sp_x (Double.getX w this + dx)
                         (Double.refreshed w this)))
    with (Double.getY w this).
  fold (Double.hitAt w this (Double.getX w this + dx) (Double.getY w this)).
  rewrite (double_correct_last this w Double.set_sp_x
             (fun p => if Double.gtb dx 0
                       then Double.getX w p - Double.getWidth w this
                       else Double.getX w p + Double.getWidth w p)
             _ (fun o => Double.sp_width o = Double.sp_width (Double.obj w this))).
  - destruct (last _); reflexivity.
  - reflexivity.
  - intros a o' Ho'. exact Ho'.
  - intros o' p Hp Ho'. apply double_hitAt_other in Hp as (Hne & _ & _).
    unfold Double.setX, Double.getX, Double.getWidth.
    destruct (Double.gtb dx 0);
      rewrite double_upd_put, (double_obj_put_ne this p), ?double_obj_put_eq,
        double_put_put by done.
    + by rewrite Ho'.
    + reflexivity.
  - reflexivity.
Qed.

(** What [moveY] leaves. *)
Lemma double_moveY_put (this : ref) (dy : float) (w : Double.World) :
  Double.moveY this dy w =
  Double.put this
    (Double.set_sp_y (Double.moveY_y w this dy) (Double.refreshed w this)) w.
Proof.
  unfold Double.moveY, Double.moveY_y.
  assert (Double.getY (Double.refreshCandidates this w) this = Double.getY w this)
    as ->.
  { unfold Double.getY, Double.refreshCandidates.
    destruct (Double.pl_checkAllPlatformers (Double.obj w this)); [| done].
    by rewrite double_upd_put, double_obj_put_eq. }
  rewrite !double_setY_refresh.
  unfold Double.getPlatformersToCheckCollision. rewrite double_obj_put_eq.
  change (Double.pl_platformersToCheckCollision
            (Double.set_sp_y _ (Double.refreshed w this)))
    with (Double.gravity_candidates w this).
  rewrite double_hit_filter by done.
  change (Double.sp_x (Double.set_sp_y (Double.getY w this + dy)
                         (Double.refreshed w this)))
    with (Double.getX w this).
  change (Double.sp_y (Double.set_sp_y (Double.getY w this + dy)
                         (Double.refreshed w this)))
    with (Double.getY w this + dy).
  fold (Double.hitAt w this (Double.getX w this) (Double.getY w this + dy)).
  rewrite (double_correct_last this w Double.set_sp_y
             (fun p => if Double.gtb dy 0
                       then Double.getY w p - Double.getHeight w this
                       else Double.getY w p + Double.getHeight w p)
             _ (fun o => Double.sp_height o = Double.sp_height (Double.obj w this))).
  - destruct (last _); reflexivity.
  - reflexivity.
  - intros a o' Ho'. exact Ho'.
  - intros o' p Hp Ho'. apply double_hitAt_other in Hp as (Hne & _ & _).
    unfold Double.setY, Double.getY, Double.getHeight.
    destruct (Double.gtb dy 0);
      rewrite double_upd_put, (double_obj_put_ne this p), ?double_obj_put_eq,
        double_put_put by done.
    + by rewrite Ho'.
    + reflexivity.
  - reflexivity.
Qed.

(** X1. [moveX(dx)] changes the [x] of the platformer (and refreshes its
    candidate list) and nothing else.  It is displaced by [dx] when no
    candidate other than itself overlaps it there; otherwise it is put
    where the last overlapping candidate [p] of the list puts it, at
    [p.x - width] when [dx > 0] and at [p.x + p.width] otherwise, the
    corrections against the candidates before [p] being overwritten.  The
    sums are those of doubles, so that the platformer can still touch [p]:
    a player 10 wide moved against a wall whose left edge is at 0.3 is put
    at [0.3 - 10], whose sum with 10 is above 0.3. *)
Theorem moveX_outcome (this : ref) (dx : float) (w : Double.World) :
  Double.moveX this dx w =
    Double.put this
      (Double.set_sp_x (Double.moveX_x w this dx) (Double.refreshed w this)) w /\
  Double.getX (Double.moveX 0 5 (Double.world_wall 0.3 (-12))) 0 = 0.3 - 10 /\
  Double.touching (Double.moveX 0 5 (Double.world_wall 0.3 (-12))) 0 1 = true.
Proof. split; [apply double_moveX_put |]. split; reflexivity. Qed.

(** X2. [moveY(dy)] changes the [y] of the platformer (and refreshes its
    candidate list) and nothing else.  It is displaced by [dy] when no
    candidate other than itself overlaps it there; otherwise it is put
    where the last overlapping candidate [p] of the list puts it, at
    [p.y - height] when [dy > 0] and at [p.y + p.height] otherwise.  The
    sums are those of doubles, so that the platformer can still touch [p]:
    a player 10 high moved onto a ground whose top is at 0.3 is put at
    [0.3 - 10], whose sum with 10 is above 0.3. *)
Theorem moveY_outcome (this : ref) (dy : float) (w : Double.World) :
  Double.moveY this dy w =
    Double.put this
      (Double.set_sp_y (Double.moveY_y w this dy) (Double.refreshed w this)) w /\
  Double.getY (Double.moveY 0 5 (Double.world_fall 0.3 (-12) 0 None)) 0
    = 0.3 - 10 /\
  Double.touching (Double.moveY 0 5 (Double.world_fall 0.3 (-12) 0 None)) 0 1
    = true.
Proof. split; [apply double_moveY_put |]. split; reflexivity. Qed.

(** X3. The probes to the left, to the right and above return, in the order
    of the registry, the registered sprites other than the sprite itself
    that overlap it when it stands one unit to the left, one unit to the
    right or one unit higher.  Each leaves the sprite where the step forth
    and the step back put it in doubles, at [x - 1 + 1], [x + 1 - 1] or
    [y - 1 + 1], and changes nothing else; where that is the coordinate the
    sprite had, the world is as it was.  It need not be: the probe to the
    left of a sprite at [x = 0.3] leaves it at [0.3 - 1 + 1], which is not
    0.3. *)
Theorem probes_found (me : ref) (w : Double.World) :
  let o := Double.obj w me in
  Double.getSpriteLeftSelf me w =
    (Double.foundAt w me (Double.sp_x o - 1) (Double.sp_y o),
     Double.put me (Double.set_sp_x (Double.sp_x o - 1 + 1) o) w) /\
  Double.getSpriteRightSelf me w =
    (Double.foundAt w me (Double.sp_x o + 1) (Double.sp_y o),
     Double.put me (Double.set_sp_x (Double.sp_x o + 1 - 1) o) w) /\
  Double.getSpriteAboveSelf me w =
    (Double.foundAt w me (Double.sp_x o) (Double.sp_y o - 1),
     Double.put me (Double.set_sp_y (Double.sp_y o - 1 + 1) o) w) /\
  (Double.heap w !! me = Some o ->
   (Double.sp_x o - 1 + 1 = Double.sp_x o ->
    snd (Double.getSpriteLeftSelf me w) = w) /\
   (Double.sp_x o + 1 - 1 = Double.sp_x o ->
    snd (Double.getSpriteRightSelf me w) = w) /\
   (Double.sp_y o - 1 + 1 = Double.sp_y o ->
    snd (Double.getSpriteAboveSelf me w) = w)) /\
  Double.getX
    (snd (Double.getSpriteLeftSelf 0 (Double.world_mover 0.3 0 0 0 None None))) 0
    = 0.3 - 1 + 1 /\
  (0.3 - 1 + 1 =? 0.3) = false.
Proof.
  cbv zeta.
  pose proof (double_probe_x me w (fun x => x - 1) (fun x => x + 1)) as Hleft.
  pose proof (double_probe_x me w (fun x => x + 1) (fun x => x - 1)) as Hright.
  pose proof (double_probe_y me w (fun y => y - 1) (fun y => y + 1)) as Habove.
  cbv beta zeta in Hleft, Hright, Habove.
  fold (Double.getSpriteLeftSelf me w) in Hleft.
  fold (Double.getSpriteRightSelf me w) in Hright.
  fold (Double.getSpriteAboveSelf me w) in Habove.
  unfold Double.getX, Double.getY in Hleft, Hright, Habove.
  split; [exact Hleft |]. split; [exact Hright |]. split; [exact Habove |].
  split; [| split; reflexivity].
  intros Hme. rewrite Hleft, Hright, Habove. cbn [snd].
  split; [| split]; intros ->.
  - rewrite double_set_sp_x_same. by apply double_put_same.
  - rewrite double_set_sp_x_same. by apply double_put_same.
  - rewrite double_set_sp_y_same. by apply double_put_same.
Qed.

End OnDoubles.
